(** * Gallery index of the photography portfolio

    A shallow embedding of the indexing engine of the portfolio site:
    [lib/gallery/paths.ts], [lib/gallery/order.ts], [lib/gallery/cover.ts],
    [lib/gallery/build.ts], [lib/dev-limit.ts] and the offline generator
    [scripts/generate-manifest.mjs], followed by the properties of the
    engine that its design document states.

    Conventions of the embedding.
    - A JavaScript string is the list of its UTF-16 code units ([N]).
    - [undefined] / [null] results are [None].
    - The directory [public/Portfolio] is a finite tree of entries, each
      listing in the order of [readdir].  A directory is addressed by
      the list of its segments below the root (the [relParts] of the
      builders); the string [absPath] is threaded beside it for the
      fields that record it.  Names are compared exactly, as on a
      case-sensitive file system.
    - A file-system call that throws is a [None], which the embedding of
      the surrounding [try]/[catch] turns into the fallback of the
      source; reads, writes and removals of entries that exist with the
      right kind succeed.
    - Recursion over the directory tree takes fuel; it is proved that
      the fuel handed over by the entry points is never exhausted. *)

From Stdlib Require Import List NArith Bool Arith Lia Permutation Sorted String Ascii.
Import ListNotations.
Local Open Scope list_scope.

Set Warnings "-register-all".

(* ================================================================== *)
(** * JavaScript strings and the built-ins the sources call *)
(* ================================================================== *)

Definition jsstring := list N.

(** An ASCII literal as a JavaScript string. *)
Definition js (s : string) : jsstring :=
  map N_of_ascii (list_ascii_of_string s).
Arguments js s%_string.

Fixpoint str_eqb (a b : jsstring) : bool :=
  match a, b with
  | [], [] => true
  | x :: a', y :: b' => N.eqb x y && str_eqb a' b'
  | _, _ => false
  end.

(** [arr.includes(x)], [new Set(arr).has(x)] on strings. *)
Definition includes (l : list jsstring) (x : jsstring) : bool :=
  existsb (str_eqb x) l.

(** Truthiness of a string: non-empty. *)
Definition truthy (s : jsstring) : bool :=
  match s with [] => false | _ => true end.

Definition orElse {A} (a b : option A) : option A :=
  match a with Some _ => a | None => b end.

(** [s.startsWith(p)] *)
Fixpoint startsWith (s p : jsstring) : bool :=
  match p, s with
  | [], _ => true
  | c :: p', d :: s' => N.eqb c d && startsWith s' p'
  | _ :: _, [] => false
  end.

(** White space of [String.prototype.trim]: the WhiteSpace and
    LineTerminator code points. *)
Definition isWhiteSpace (c : N) : bool :=
  existsb (N.eqb c)
    [9; 10; 11; 12; 13; 32; 160; 5760; 8232; 8233; 8239; 8287; 12288; 65279]%N
  || (N.leb 8192 c && N.leb c 8202).

Fixpoint trimStart (s : jsstring) : jsstring :=
  match s with
  | c :: s' => if isWhiteSpace c then trimStart s' else s
  | [] => []
  end.

Definition trim (s : jsstring) : jsstring :=
  rev (trimStart (rev (trimStart s))).

(** [s.split(sep)] for a one-unit separator. *)
Fixpoint splitOn (sep : N) (s : jsstring) : list jsstring :=
  match s with
  | [] => [[]]
  | c :: s' =>
      if N.eqb c sep then [] :: splitOn sep s'
      else match splitOn sep s' with
           | seg :: segs => (c :: seg) :: segs
           | [] => [[c]]
           end
  end.

(** [s.split(/\r?\n/)] *)
Fixpoint splitLines (s : jsstring) : list jsstring :=
  match s with
  | [] => [[]]
  | c :: s' =>
      let consTo c r :=
        match r with
        | seg :: segs => (c :: seg) :: segs
        | [] => [[c]]
        end in
      if N.eqb c 10 then [] :: splitLines s'
      else if N.eqb c 13 then
        match s' with
        | d :: _ => if N.eqb d 10 then splitLines s' else consTo c (splitLines s')
        | [] => consTo c (splitLines s')
        end
      else consTo c (splitLines s')
  end.

(** [parts.join(sep)] *)
Fixpoint joinWith (sep : jsstring) (parts : list jsstring) : jsstring :=
  match parts with
  | [] => []
  | [p] => p
  | p :: ps => p ++ sep ++ joinWith sep ps
  end.

(** [s.replace(/\\/g, "/")] *)
Definition backslashesToSlashes (s : jsstring) : jsstring :=
  map (fun c => if N.eqb c 92 then 47%N else c) s.

(** [s.replace(/^\/+/, ...)]: the leading slashes are removed. *)
Fixpoint dropLeadingSlashes (s : jsstring) : jsstring :=
  match s with
  | c :: s' => if N.eqb c 47 then dropLeadingSlashes s' else s
  | [] => []
  end.

(** Case folding of one code unit under the [i] flag of a regular
    expression without the [u] flag: only the ASCII letters fold onto
    ASCII letters. *)
Definition foldAscii (c : N) : N :=
  if N.leb 65 c && N.leb c 90 then (c + 32)%N else c.

(** [/^portfolio\//i.test(s)] *)
Definition testPortfolioPrefix (s : jsstring) : bool :=
  startsWith (map foldAscii s) (js "portfolio/").

(* ================================================================== *)
(** * The host: built-ins whose tables live outside the repository *)
(* ================================================================== *)

(** [toLowerCase] and [localeCompare] depend on the Unicode tables and on
    the collation of the runtime, [encodeURIComponent] and
    [decodeURIComponent] on UTF-8 transcoding, and the development limit
    on the process environment.  The engine is embedded over any host;
    concrete trees are evaluated on [asciiHost] below. *)
Class Host := {
  (** [s.toLowerCase()] *)
  toLowerCase : jsstring -> jsstring;
  (** [a.localeCompare(b, undefined, {sensitivity: "base"}) <= 0] *)
  localeLe : jsstring -> jsstring -> bool;
  (** [a.localeCompare(b, undefined, {sensitivity: "base", numeric: true}) <= 0] *)
  localeLeNumeric : jsstring -> jsstring -> bool;
  (** [encodeURIComponent(s)] *)
  encodeURIComponent : jsstring -> jsstring;
  (** [decodeURIComponent(s)]; [None] when it throws [URIError]. *)
  decodeURIComponent : jsstring -> option jsstring;
  (** [process.cwd()] *)
  cwd : jsstring;
  (** [process.env.NEXT_PUBLIC_DEV], [process.env.NODE_ENV] *)
  env_NEXT_PUBLIC_DEV : option jsstring;
  env_NODE_ENV : option jsstring;
  (** The value of [getDevGalleryLimit()], as the number of elements
      that [items.slice(0, limit)] keeps for it ([Some 0] for a limit
      strictly between 0 and 1). *)
  devGalleryLimit : option nat
}.

(** [arr.sort(cmp)], a stable sort: insertion keeps equal elements in
    their order. *)
Fixpoint insertBy {A} (le : A -> A -> bool) (x : A) (l : list A) : list A :=
  match l with
  | [] => [x]
  | y :: l' => if le x y then x :: l else y :: insertBy le x l'
  end.

Fixpoint sortBy {A} (le : A -> A -> bool) (l : list A) : list A :=
  match l with
  | [] => []
  | x :: l' => insertBy le x (sortBy le l')
  end.

(** [path.extname(p)] (POSIX): the scan from the end of the path that
    Node performs, over the reversed path.  The state is
    [startDot], [end], [matchedSlash] and [preDotState] (0, 1, -1). *)
Inductive preDot := PreStart | PreDots | PreOther.

Fixpoint extScan (rs : jsstring) (startDot endIdx : option nat)
    (matchedSlash : bool) (pre : preDot)
    : option nat * nat * option nat * preDot :=
  match rs with
  | [] => (startDot, 0, endIdx, pre)
  | c :: rs' =>
      let i := List.length rs' in
      if N.eqb c 47 then
        if matchedSlash then extScan rs' startDot endIdx matchedSlash pre
        else (startDot, S i, endIdx, pre)
      else
        let endIdx' := match endIdx with None => Some (S i) | Some _ => endIdx end in
        if N.eqb c 46 then
          match startDot with
          | None => extScan rs' (Some i) endIdx' false pre
          | Some _ => extScan rs' startDot endIdx' false PreDots
          end
        else
          match startDot with
          | Some _ => extScan rs' startDot endIdx' false PreOther
          | None => extScan rs' startDot endIdx' false pre
          end
  end.

Definition slice (from to : nat) (s : jsstring) : jsstring :=
  firstn (to - from) (skipn from s).

Definition extname (p : jsstring) : jsstring :=
  match extScan (rev p) None None true PreStart with
  | (Some sd, sp, Some e, pre) =>
      match pre with
      | PreStart => []
      | PreDots => if Nat.eqb sd (e - 1) && Nat.eqb sd (sp + 1) then [] else slice sd e p
      | PreOther => slice sd e p
      end
  | _ => []
  end.

(** [path.basename(p)] (POSIX, no suffix argument). *)
Fixpoint baseScan (rs : jsstring) (endIdx : option nat) (matchedSlash : bool)
    : nat * option nat :=
  match rs with
  | [] => (0, endIdx)
  | c :: rs' =>
      let i := List.length rs' in
      if N.eqb c 47 then
        if matchedSlash then baseScan rs' endIdx matchedSlash
        else (S i, endIdx)
      else
        match endIdx with
        | None => baseScan rs' (Some (S i)) false
        | Some _ => baseScan rs' endIdx matchedSlash
        end
  end.

Definition basename (p : jsstring) : jsstring :=
  match baseScan (rev p) None true with
  | (start, Some e) => slice start e p
  | (_, None) => []
  end.

(** [s.lastIndexOf("/")] and the helper of build.ts built on it. *)
Fixpoint afterLastSlash (s : jsstring) : option jsstring :=
  match s with
  | [] => None
  | c :: s' =>
      match afterLastSlash s' with
      | Some r => Some r
      | None => if N.eqb c 47 then Some s' else None
      end
  end.

(* ================================================================== *)
(** * The collection on disk *)
(* ================================================================== *)

(** One directory entry.  As [readdir] returns them, names are single
    path segments, so [path.join(dir, name)] is the path extended by
    [name].  The order of a listing is the order of [readdir]. *)
Inductive entry :=
| File (nm : jsstring) (content : jsstring)
| Dir (nm : jsstring) (entries : list entry).

Definition entryName (e : entry) : jsstring :=
  match e with File n _ => n | Dir n _ => n end.

Definition isFile (e : entry) : bool :=
  match e with File _ _ => true | Dir _ _ => false end.

Definition isDirectory (e : entry) : bool :=
  match e with File _ _ => false | Dir _ _ => true end.

(** The entry that a name denotes in a listing. *)
Definition lookup (es : list entry) (n : jsstring) : option entry :=
  find (fun e => str_eqb (entryName e) n) es.

(** [fs.readdirSync(path.join(ROOT, ...p), {withFileTypes: true})];
    [None] when it throws (missing, or not a directory). *)
Fixpoint readdirSync (es : list entry) (p : list jsstring) : option (list entry) :=
  match p with
  | [] => Some es
  | d :: p' =>
      match lookup es d with
      | Some (Dir _ sub) => readdirSync sub p'
      | _ => None
      end
  end.

(** [fs.statSync(path.join(ROOT, ...p, n))]: the entry, [None] when it throws. *)
Definition statSync (fs : list entry) (p : list jsstring) (n : jsstring) : option entry :=
  match readdirSync fs p with
  | Some es => lookup es n
  | None => None
  end.

(** [fs.readFileSync(path.join(ROOT, ...p, n), "utf8")]; [None] when it throws. *)
Definition readFileSync (fs : list entry) (p : list jsstring) (n : jsstring)
    : option jsstring :=
  match statSync fs p n with
  | Some (File _ c) => Some c
  | _ => None
  end.

(** [fs.existsSync(path.join(ROOT, ...p, n))] *)
Definition existsSync (fs : list entry) (p : list jsstring) (n : jsstring) : bool :=
  match statSync fs p n with Some _ => true | None => false end.

(** Height of a listing, the fuel of the tree walks. *)
Fixpoint entryHeight (e : entry) : nat :=
  match e with
  | File _ _ => 0
  | Dir _ sub => S (list_max (map entryHeight sub))
  end.

Definition height (es : list entry) : nat := list_max (map entryHeight es).

(* ================================================================== *)
(** * The node tree (lib/gallery/types.ts) *)
(* ================================================================== *)

Inductive GalleryNode := mkNode {
  name : jsstring;
  slug : jsstring;
  fsPath : jsstring;
  webPath : jsstring;
  coverWebPath : option jsstring;
  images : option (list jsstring);
  children : option (list GalleryNode)
}.

(** A node of a parsed manifest ([any] in build.ts): every field may be
    missing; [dirName] is the legacy name field that [normalizeManifest]
    accepts.  [JSON.stringify] drops the [undefined] fields of the
    generator's nodes, and [JSON.parse] gives this shape back. *)
Inductive RawNode := mkRaw {
  raw_name : option jsstring;
  raw_dirName : option jsstring;
  raw_slug : option jsstring;
  raw_fsPath : option jsstring;
  raw_webPath : option jsstring;
  raw_coverWebPath : option jsstring;
  raw_images : option (list jsstring);
  raw_children : option (list RawNode)
}.

(** Every node of a tree, the root first. *)
Fixpoint nodesOf (n : GalleryNode) : list GalleryNode :=
  n :: match children n with
       | Some cs => flat_map nodesOf cs
       | None => []
       end.

(** [path.posix.normalize] on the list of segments: empty segments and
    [.] vanish; [..] removes the segment before it, and is kept only
    where the path may climb above its start. *)
Fixpoint normalizeSegs (allowAboveRoot : bool) (res : list jsstring)
    (segs : list jsstring) : list jsstring :=
  match segs with
  | [] => res
  | s :: segs' =>
      if negb (truthy s) || str_eqb s (js ".") then
        normalizeSegs allowAboveRoot res segs'
      else if str_eqb s (js "..") then
        match rev res with
        | lastSeg :: _ =>
            if str_eqb lastSeg (js "..") then
              normalizeSegs allowAboveRoot
                (if allowAboveRoot then res ++ [s] else res) segs'
            else normalizeSegs allowAboveRoot (removelast res) segs'
        | [] =>
            normalizeSegs allowAboveRoot
              (if allowAboveRoot then res ++ [s] else res) segs'
        end
      else normalizeSegs allowAboveRoot (res ++ [s]) segs'
  end.

Definition posixNormalize (p : jsstring) : jsstring :=
  match p with
  | [] => js "."
  | c :: _ =>
      let isAbsolute := N.eqb c 47 in
      let trailingSeparator := N.eqb (last p 0%N) 47 in
      let body := joinWith (js "/")
                    (normalizeSegs (negb isAbsolute) [] (splitOn 47 p)) in
      match body with
      | [] => if isAbsolute then js "/"
              else if trailingSeparator then js "./" else js "."
      | _ :: _ =>
          let body := if trailingSeparator then body ++ js "/" else body in
          if isAbsolute then js "/" ++ body else body
      end
  end.

(** [path.join(...args)] (POSIX) *)
Definition pathJoin (args : list jsstring) : jsstring :=
  posixNormalize (joinWith (js "/") (filter truthy args)).

Definition opt_is (o : option jsstring) (s : jsstring) : bool :=
  match o with Some v => str_eqb v s | None => false end.

(** [arr.map(f)] where [f] may fail. *)
Fixpoint mapM {A B} (f : A -> option B) (l : list A) : option (list B) :=
  match l with
  | [] => Some []
  | a :: l' =>
      match f a with
      | Some b => match mapM f l' with
                  | Some bs => Some (b :: bs)
                  | None => None
                  end
      | None => None
      end
  end.

(** A computation that may throw. *)
Inductive result (A : Type) : Type :=
| Ok (a : A)
| Throw.
Arguments Ok {A} a.
Arguments Throw {A}.

(* ================================================================== *)
(** * lib/dev-limit.ts *)
(* ================================================================== *)

Module DevLimit.
Section WithHost.
Context {host : Host}.

Definition isDevRuntime : bool :=
  if opt_is env_NEXT_PUBLIC_DEV (js "0") then false
  else opt_is env_NEXT_PUBLIC_DEV (js "1")
       || negb (opt_is env_NODE_ENV (js "production")).

Definition maybeLimit {T} (items : list T) : list T :=
  if negb isDevRuntime then items
  else match devGalleryLimit with
       | Some limit => firstn limit items
       | None => items
       end.

End WithHost.
End DevLimit.

(* ================================================================== *)
(** * lib/gallery/paths.ts *)
(* ================================================================== *)

Module Paths.
Section WithHost.
Context {host : Host}.

Definition IMAGE_EXT : list jsstring :=
  [js ".jpg"; js ".jpeg"; js ".png"; js ".webp"; js ".gif"; js ".avif";
   js ".bmp"; js ".tiff"].

Definition isImageFile (file : jsstring) : bool :=
  includes IMAGE_EXT (toLowerCase (extname file)).

Definition slugify (nm : jsstring) : jsstring := encodeURIComponent nm.

Definition readDirSafe (fs : list entry) (p : list jsstring) : list jsstring :=
  match readdirSync fs p with
  | Some es => map entryName es
  | None => []
  end.

Definition firstImageInDir (fs : list entry) (relParts : list jsstring)
    : option jsstring :=
  let webPath := js "/" ++ joinWith (js "/") (js "Portfolio" :: relParts) in
  match find (fun e => match statSync fs relParts e with
                       | Some (File _ _) => isImageFile e
                       | _ => false
                       end) (readDirSafe fs relParts) with
  | Some e => Some (webPath ++ js "/" ++ e)
  | None => None
  end.

End WithHost.
End Paths.

(* ================================================================== *)
(** * lib/gallery/order.ts *)
(* ================================================================== *)

Module Order.

Definition readListFile (fs : list entry) (absDir : list jsstring)
    (file : jsstring) : list jsstring :=
  if negb (existsSync fs absDir file) then []
  else match readFileSync fs absDir file with
       | Some txt => filter truthy (map trim (splitLines txt))
       | None => []
       end.

Definition readOrder (fs : list entry) (absDir : list jsstring) : list jsstring :=
  if negb (existsSync fs absDir (js ".order")) then []
  else match readFileSync fs absDir (js ".order") with
       | Some raw =>
           let text := filter (fun c => negb (N.eqb c 65279)) raw in
           filter (fun line => Nat.ltb 0 (List.length line)
                               && negb (startsWith line (js "#"))
                               && negb (startsWith line (js "//")))
                  (map trim (splitLines text))
       | None => []
       end.

Definition readFolders (fs : list entry) (absDir : list jsstring) :=
  readListFile fs absDir (js ".folders").

Definition readImages (fs : list entry) (absDir : list jsstring) :=
  readListFile fs absDir (js ".images").

Definition applyOrder (items orderNames : list jsstring) : list jsstring :=
  match orderNames with
  | [] => items
  | _ :: _ =>
      let inOrder := filter (fun n => includes items n) orderNames in
      let leftovers := filter (fun n => negb (includes orderNames n)) items in
      inOrder ++ leftovers
  end.

End Order.

(* ================================================================== *)
(** * lib/gallery/cover.ts *)
(* ================================================================== *)

Module Cover.
Section WithHost.
Context {host : Host}.

Definition IMAGE_EXT : list jsstring :=
  [js ".jpg"; js ".jpeg"; js ".png"; js ".webp"; js ".gif"; js ".avif"].

(** [IMAGE_EXT.has(path.extname(n).toLowerCase())] *)
Definition hasImageExt (n : jsstring) : bool :=
  includes IMAGE_EXT (toLowerCase (extname n)).

(** The loop of [normalizeParts], [out] being its accumulator;
    [out.pop()] leaves an empty array empty. *)
Fixpoint normalizeLoop (out : list jsstring) (parts : list jsstring)
    : list jsstring :=
  match parts with
  | [] => out
  | p :: ps =>
      if negb (truthy p) || str_eqb p (js ".") then normalizeLoop out ps
      else if str_eqb p (js "..") then normalizeLoop (removelast out) ps
      else normalizeLoop (out ++ [p]) ps
  end.

Definition normalizeParts (parts : list jsstring) : list jsstring :=
  normalizeLoop [] parts.

Definition slugToWebPath (parts : list jsstring) : jsstring :=
  js "/" ++ joinWith (js "/") (js "Portfolio" :: parts).

(** [s.replace(/^[\uFEFF\u2060\u200B]+/, ...)]: the leading run of byte-order
    marks, word joiners and zero-width spaces is removed. *)
Fixpoint stripWeirdPrefix (s : jsstring) : jsstring :=
  match s with
  | c :: s' =>
      if N.eqb c 65279 || N.eqb c 8288 || N.eqb c 8203
      then stripWeirdPrefix s' else s
  | [] => []
  end.

Definition resolveLineToSlugParts (rawLine : jsstring)
    (currentSlugParts : list jsstring) : option (list jsstring) :=
  let line := trim (stripWeirdPrefix rawLine) in
  if negb (truthy line) || startsWith line (js "#") then None
  else
    let line := backslashesToSlashes line in
    let cleaned := dropLeadingSlashes line in
    if testPortfolioPrefix cleaned then
      Some (normalizeParts (tl (splitOn 47 cleaned)))
    else if startsWith rawLine (js "/") then None
    else
      let relSegs := splitOn 47 cleaned in
      let relSegs :=
        match relSegs with
        | s0 :: r => if str_eqb (toLowerCase s0) (js "portfolio") then r else relSegs
        | [] => relSegs
        end in
      Some (normalizeParts (currentSlugParts ++ relSegs)).

(** The predicate of the [find] in [readFirstLineIfExists]. *)
Definition meaningful (l : jsstring) : bool :=
  let t := trim (stripWeirdPrefix l) in
  truthy t && negb (startsWith t (js "#")).

Definition readFirstLineIfExists (fs : list entry) (absDir : list jsstring)
    (filename : jsstring) : option jsstring :=
  match readFileSync fs absDir filename with
  | Some raw =>
      let txt := stripWeirdPrefix raw in
      match find meaningful (splitLines txt) with
      | Some line =>
          if truthy line then Some (trim (stripWeirdPrefix line)) else None
      | None => None
      end
  | None => None
  end.

(** The loop of [correctCaseUnderPortfolio]: [dir] is the directory the
    walk stands in, [corrected] the segments corrected so far. *)
Fixpoint correctCaseLoop (fs : list entry) (dir corrected parts : list jsstring)
    : option (list jsstring) :=
  match parts with
  | [] => Some corrected
  | seg :: rest =>
      match readdirSync fs dir with
      | None => None
      | Some entries =>
          let found :=
            orElse (find (fun e => str_eqb (entryName e) seg) entries)
                   (find (fun e => str_eqb (toLowerCase (entryName e))
                                           (toLowerCase seg)) entries) in
          match found with
          | None => None
          | Some m =>
              let corrected := corrected ++ [entryName m] in
              match rest with
              | [] => Some corrected
              | _ :: _ =>
                  if isDirectory m
                  then correctCaseLoop fs (dir ++ [entryName m]) corrected rest
                  else None
              end
          end
      end
  end.

Definition correctCaseUnderPortfolio (fs : list entry) (parts : list jsstring)
    : option (list jsstring) :=
  correctCaseLoop fs [] [] parts.

(** Upper bound on the number of directories that the search dequeues
    below a listing. *)
Fixpoint entryVisits (e : entry) : nat :=
  match e with
  | File _ _ => 0
  | Dir _ sub => S (List.length sub * S (list_sum (map entryVisits sub)))
  end.

Definition visits (es : list entry) : nat :=
  S (List.length es * S (list_sum (map entryVisits es))).

Definition queueWeight (fs : list entry) (parts : list jsstring) : nat :=
  match readdirSync fs parts with
  | Some es => visits es
  | None => 1
  end.

(** The file of a sorted listing that the two [for] loops pick: an exact
    match first, then a case-insensitive one. *)
Definition matchFile (files : list jsstring) (targetFileName wantedLower : jsstring)
    : option jsstring :=
  orElse (find (fun f => str_eqb f targetFileName) files)
         (find (fun f => str_eqb (toLowerCase f) wantedLower) files).

Definition subdirNames (le : jsstring -> jsstring -> bool) (entries : list entry)
    : list jsstring :=
  sortBy le
    (map entryName
       (filter (fun e => isDirectory e && negb (startsWith (entryName e) (js ".")))
               entries)).

Definition fileNames (le : jsstring -> jsstring -> bool) (entries : list entry)
    : list jsstring :=
  sortBy le (map entryName (filter isFile entries)).

(** The [while (q.length)] loop of [findFileUnderPortfolioBFS]; the outer
    [None] is fuel exhaustion.  An element of the queue is the [parts]
    of the source ([abs] is the same path below the root).  [le] is the
    comparator of the two sorts. *)
Fixpoint bfsLoop (le : jsstring -> jsstring -> bool) (fuel : nat)
    (fs : list entry) (targetFileName wantedLower : jsstring)
    (q : list (list jsstring)) : option (option (list jsstring)) :=
  match q with
  | [] => Some None
  | parts :: q' =>
      match fuel with
      | 0 => None
      | S fuel' =>
          match readdirSync fs parts with
          | None => bfsLoop le fuel' fs targetFileName wantedLower q'
          | Some entries =>
              let dirs := subdirNames le entries in
              let files := fileNames le entries in
              match matchFile files targetFileName wantedLower with
              | Some f => Some (Some (parts ++ [f]))
              | None =>
                  bfsLoop le fuel' fs targetFileName wantedLower
                    (q' ++ map (fun d => parts ++ [d]) dirs)
              end
          end
      end
  end.

Definition bfsFrom (le : jsstring -> jsstring -> bool) (fs : list entry)
    (startSlugParts : list jsstring) (targetFileName : jsstring)
    : option (list jsstring) :=
  match correctCaseUnderPortfolio fs startSlugParts with
  | None => None
  | Some startCorrected =>
      match bfsLoop le (queueWeight fs startCorrected) fs
              targetFileName (toLowerCase targetFileName) [startCorrected] with
      | Some r => r
      | None => None
      end
  end.

Definition findFileUnderPortfolioBFS := bfsFrom localeLe.

(** The test [isLikelyRelative] of [readCoverOverrideWebPath]. *)
Definition lineLooksRelative (line : jsstring) : bool :=
  negb (testPortfolioPrefix
          (dropLeadingSlashes (backslashesToSlashes (stripWeirdPrefix line))))
  && negb (startsWith (stripWeirdPrefix line) (js "/")).

Definition readCoverOverrideWebPath (fs : list entry) (dirAbs slugParts : list jsstring)
    : option jsstring :=
  match readFirstLineIfExists fs dirAbs (js ".cover") with
  | None => None
  | Some line =>
      if negb (truthy line) then None
      else
        match resolveLineToSlugParts line slugParts with
        | None => None
        | Some [] => None
        | Some ((_ :: _) as parts) =>
            let lastSeg := last parts [] in
            if negb (hasImageExt lastSeg) then None
            else
              match correctCaseUnderPortfolio fs parts with
              | Some corrected => Some (slugToWebPath corrected)
              | None =>
                  if lineLooksRelative line then
                    match findFileUnderPortfolioBFS fs slugParts lastSeg with
                    | Some found => Some (slugToWebPath found)
                    | None => None
                    end
                  else None
              end
        end
  end.

Definition fallbackCoverFromImages (webPath : jsstring)
    (images : option (list jsstring)) : option jsstring :=
  match images with
  | Some (img :: _) => Some (pathJoin [webPath; img])
  | _ => None
  end.

(** [a || b] on optional strings: the empty string is falsy. *)
Definition orString (a b : option jsstring) : option jsstring :=
  match a with
  | Some s => if truthy s then a else b
  | None => b
  end.

Definition effectiveCoverWebPath (fs : list entry) (dirAbs slugParts : list jsstring)
    (webPath : jsstring) (existingCoverWebPath : option jsstring)
    (images : option (list jsstring)) : option jsstring :=
  let override := orString (readCoverOverrideWebPath fs dirAbs slugParts) None in
  orString override
    (orString existingCoverWebPath (fallbackCoverFromImages webPath images)).

(** The constants [normalized], [cleaned], [candidateParts] and
    [isLikelyRelative] of [resolveCover], as functions of the line. *)
Definition normalizedOf (raw : jsstring) : jsstring :=
  trim (backslashesToSlashes (stripWeirdPrefix raw)).

Definition cleanedOf (raw : jsstring) : jsstring :=
  dropLeadingSlashes (normalizedOf raw).

Definition candidatePartsOf (relParts : list jsstring) (raw : jsstring)
    : option (list jsstring) :=
  if testPortfolioPrefix (cleanedOf raw) then
    Some (normalizeParts (tl (splitOn 47 (cleanedOf raw))))
  else if negb (startsWith (normalizedOf raw) (js "/")) then
    Some (normalizeParts (relParts ++ splitOn 47 (cleanedOf raw)))
  else None.

Definition isLikelyRelative (raw : jsstring) : bool :=
  negb (testPortfolioPrefix (cleanedOf raw))
  && negb (startsWith (normalizedOf raw) (js "/")).

(** Rule 1 of [resolveCover]: the value that the [.cover] block returns,
    [None] when control falls through to rule 2. *)
Definition resolveCoverRule1 (fs : list entry) (absPath relParts : list jsstring)
    : option jsstring :=
  match readFirstLineIfExists fs absPath (js ".cover") with
  | None => None
  | Some raw =>
      if negb (truthy raw) then None
      else
        match candidatePartsOf relParts raw with
        | Some ((_ :: _) as candidateParts) =>
            let lastSeg := last candidateParts [] in
            if hasImageExt lastSeg then
              match correctCaseUnderPortfolio fs candidateParts with
              | Some corrected => Some (slugToWebPath corrected)
              | None =>
                  if isLikelyRelative raw then
                    match findFileUnderPortfolioBFS fs relParts lastSeg with
                    | Some found => Some (slugToWebPath found)
                    | None => None
                    end
                  else None
              end
            else
              match correctCaseUnderPortfolio fs candidateParts with
              | Some correctedDir =>
                  match readdirSync fs correctedDir with
                  | Some entries =>
                      match find hasImageExt
                              (map entryName (filter isFile entries)) with
                      | Some firstImage =>
                          if truthy firstImage then
                            Some (js "/" ++ joinWith (js "/")
                                    (js "Portfolio" :: correctedDir ++ [firstImage]))
                          else None
                      | None => None
                      end
                  | None => None
                  end
              | None => None
              end
        | _ => None
        end
  end.

(** Rule 3 of [resolveCover]: the [for] loop over the children. *)
Fixpoint resolveCoverRule3 (children : list GalleryNode) : option jsstring :=
  match children with
  | [] => None
  | c :: rest =>
      let imgs := match images c with Some l => l | None => [] end in
      match imgs with
      | img :: _ =>
          if truthy (webPath c) then Some (webPath c ++ js "/" ++ img)
          else match coverWebPath c with
               | Some cv => if truthy cv then Some cv else resolveCoverRule3 rest
               | None => resolveCoverRule3 rest
               end
      | [] =>
          match coverWebPath c with
          | Some cv => if truthy cv then Some cv else resolveCoverRule3 rest
          | None => resolveCoverRule3 rest
          end
      end
  end.

Definition resolveCover (fs : list entry) (absPath : list jsstring)
    (relParts : list jsstring) (dotDirs imagesHere : list jsstring)
    (webPath : jsstring) (children : list GalleryNode)
    (childDirs : list jsstring) : option jsstring :=
  match resolveCoverRule1 fs absPath relParts with
  | Some w => Some w
  | None =>
      match imagesHere with
      | [only] => Some (webPath ++ js "/" ++ only)
      | _ => resolveCoverRule3 children
      end
  end.

End WithHost.
End Cover.

(* ================================================================== *)
(** * lib/gallery/build.ts *)
(* ================================================================== *)

Module Build.
Section WithHost.
Context {host : Host}.

(** [ROOT], and the [absPath] of the directory at [relParts]. *)
Definition ROOT : jsstring := pathJoin [cwd; js "public"; js "Portfolio"].

Definition filenameFromWebPath (p : option jsstring) : option jsstring :=
  match p with
  | None => None
  | Some [] => None
  | Some s => match afterLastSlash s with
              | Some r => Some r
              | None => Some s
              end
  end.

Definition cons_if {A} (b : bool) (x : A) (l : list A) : list A :=
  if b then x :: l else l.

(** [buildNode(absPath, relParts, siblingsCountAtParent)] is embedded in
    three parts: [scan] is its text before the recursion, [assemble] its
    text after it.  [absPath] is the string [path.join(ROOT, ...relParts)]
    and names the directory that [relParts] addresses in [fs]. *)

(** The [desired] list of the two ordering blocks: [.order] if it names
    anything, else the fallback list. *)
Definition desiredFolders (fs : list entry) (absPath : list jsstring)
    : list jsstring :=
  let order := Order.readOrder fs absPath in
  match order with
  | [] => Order.readFolders fs absPath
  | _ :: _ => order
  end.

Definition desiredImages (fs : list entry) (absPath : list jsstring)
    : list jsstring :=
  let order := Order.readOrder fs absPath in
  match order with
  | [] => Order.readImages fs absPath
  | _ :: _ => order
  end.

(** Read the entries, split them and order them: the result is
    [(dotDirs, normalDirs, imagesHere)]. *)
Definition scan (fs : list entry) (relParts : list jsstring)
    : list jsstring * list jsstring * list jsstring :=
  let entries := Paths.readDirSafe fs relParts in
  let fileNames :=
    filter (fun e => match statSync fs relParts e with
                     | Some (File _ _) => true
                     | _ => false
                     end) entries in
  let dirNames :=
    filter (fun e => match statSync fs relParts e with
                     | Some (Dir _ _) => true
                     | _ => false
                     end) entries in
  let dotDirs := filter (fun d => startsWith d (js ".")) dirNames in
  let normalDirs := filter (fun d => negb (startsWith d (js "."))) dirNames in
  let imagesHere := filter Paths.isImageFile fileNames in
  let normalDirs := Order.applyOrder normalDirs (desiredFolders fs relParts) in
  let imagesHere := Order.applyOrder imagesHere (desiredImages fs relParts) in
  (dotDirs, normalDirs, imagesHere).

(** [c || alt] for the cover. *)
Definition ifNoCover (c : option jsstring) (alt : jsstring) : option jsstring :=
  match c with
  | Some s => if truthy s then c else Some alt
  | None => Some alt
  end.

(** Cover, leaf logic and the node, once the children are built. *)
Definition assemble (fs : list entry) (absPath : jsstring)
    (relParts dotDirs imagesHere : list jsstring)
    (children : list GalleryNode) : GalleryNode :=
  let dirName := basename absPath in
  let dirSlug := Paths.slugify dirName in
  let dirWebPath := js "/" ++ joinWith (js "/") (js "Portfolio" :: relParts) in
  let childDirs :=
    filter truthy
      (map (fun c =>
              if truthy (fsPath c) then basename (fsPath c)
              else if truthy (slug c) then slug c
              else if truthy (webPath c) then
                last (filter truthy (splitOn 47 (webPath c))) []
              else []) children) in
  let coverFromParentRules :=
    Cover.resolveCover fs relParts relParts dotDirs imagesHere dirWebPath
      children childDirs in
  let isLeaf := Nat.eqb (List.length children) 0 in
  let imagesOut := match imagesHere with
                   | [] => None
                   | _ :: _ => Some imagesHere
                   end in
  let cover := coverFromParentRules in
  let '(cover, imagesOut) :=
    if isLeaf then
      match imagesHere with
      | first :: _ :: _ =>
          (ifNoCover cover (dirWebPath ++ js "/" ++ first), imagesOut)
      | [only] =>
          (ifNoCover cover (dirWebPath ++ js "/" ++ only), Some [only])
      | [] => (cover, imagesOut)
      end
    else (cover, None) in
  {| name := dirName;
     slug := dirSlug;
     fsPath := absPath;
     webPath := dirWebPath;
     coverWebPath := cover;
     images := imagesOut;
     children :=
       match children with
       | [] => None
       | _ :: _ =>
           Some (if Nat.eqb (List.length relParts) 0
                 then DevLimit.maybeLimit children
                 else children)
       end |}.

Fixpoint buildNode (fuel : nat) (fs : list entry) (absPath : jsstring)
    (relParts : list jsstring) (siblingsCountAtParent : nat)
    : option GalleryNode :=
  match fuel with
  | 0 => None
  | S fuel' =>
      let '(dotDirs, normalDirs, imagesHere) := scan fs relParts in
      let parentChildCount := List.length normalDirs in
      match mapM (fun d => buildNode fuel' fs (pathJoin [absPath; d])
                             (relParts ++ [d]) parentChildCount) normalDirs with
      | None => None
      | Some children =>
          Some (assemble fs absPath relParts dotDirs imagesHere children)
      end
  end.

Fixpoint normalizeManifest (node : RawNode) : GalleryNode :=
  let name := match raw_name node with
              | Some n => n
              | None => match raw_dirName node with
                        | Some d => d
                        | None => []
                        end
              end in
  let slug := match raw_slug node with
              | Some s => s
              | None => Paths.slugify name
              end in
  let fsPath := match raw_fsPath node with Some p => p | None => [] end in
  let webPath := match raw_webPath node with Some p => p | None => [] end in
  let coverWebPath := raw_coverWebPath node in
  let children := match raw_children node with
                  | Some ((_ :: _) as cs) => Some (map normalizeManifest cs)
                  | _ => None
                  end in
  let imagesArray := match raw_images node with Some l => l | None => [] end in
  let images := match imagesArray with
                | [] => None
                | _ :: _ => Some imagesArray
                end in
  let images :=
    match children, images with
    | None, None =>
        match filenameFromWebPath coverWebPath with
        | Some fn => if truthy fn then Some [fn] else images
        | None => images
        end
    | _, _ => images
    end in
  {| name := name; slug := slug; fsPath := fsPath; webPath := webPath;
     coverWebPath := coverWebPath; images := images; children := children |}.

(** What [getGalleryIndex] reads besides the collection:
    [process.env.GALLERY_USE_MANIFEST]; the manifest file ([None] when
    it is missing, [Some None] when [JSON.parse] throws); the collection
    ([None] when [ROOT] does not exist). *)
Record World := {
  env_GALLERY_USE_MANIFEST : option jsstring;
  manifestFile : option (option RawNode);
  portfolio : option (list entry)
}.

(** [arr.find(pred)] for a predicate that may throw. *)
Fixpoint findM {A} (pred : A -> result bool) (l : list A) : result (option A) :=
  match l with
  | [] => Ok None
  | a :: l' =>
      match pred a with
      | Throw => Throw
      | Ok true => Ok (Some a)
      | Ok false => findM pred l'
      end
  end.

Definition getGalleryIndex (w : World) : result GalleryNode :=
  let useManifest := opt_is (env_GALLERY_USE_MANIFEST w) (js "true") in
  match (if useManifest then manifestFile w else None) with
  | Some None => Throw
  | Some (Some parsed) =>
      let root := normalizeManifest parsed in
      match findM (fun n =>
                     match decodeURIComponent (slug n) with
                     | None => Throw
                     | Some d => Ok (str_eqb d (js "Portfolio")
                                     || str_eqb (name n) (js "Portfolio"))
                     end)
                  (match children root with Some cs => cs | None => [] end) with
      | Throw => Throw
      | Ok (Some found) => Ok found
      | Ok None => Ok root
      end
  | None =>
      match portfolio w with
      | None =>
          Ok {| name := js "Portfolio"; slug := js "Portfolio"; fsPath := ROOT;
                webPath := js "/Portfolio"; coverWebPath := None;
                images := None; children := Some [] |}
      | Some fs =>
          match buildNode (S (height fs)) fs ROOT [] 0 with
          | Some n => Ok n
          | None => Throw
          end
      end
  end.

(** The [for] loop of [getNodeBySlug], from the node reached so far. *)
Fixpoint descend (node : GalleryNode) (slugParts : list jsstring)
    : result (option GalleryNode) :=
  match slugParts with
  | [] => Ok (Some node)
  | part :: rest =>
      match decodeURIComponent part with
      | None => Throw
      | Some decoded =>
          match find (fun c => str_eqb (slug c) part || str_eqb (name c) decoded)
                     (match children node with Some cs => cs | None => [] end) with
          | None => Ok None
          | Some next => descend next rest
          end
      end
  end.

Definition getNodeBySlug (w : World) (slugParts : list jsstring)
    : result (option GalleryNode) :=
  match getGalleryIndex w with
  | Throw => Throw
  | Ok index => descend index slugParts
  end.

End WithHost.
End Build.

(* ================================================================== *)
(** * Writing to the collection *)
(* ================================================================== *)

(** [fs.writeFileSync] in one listing: the file of that name gets the
    content, a new file is added to the listing; [None] ([EISDIR]) when the
    name is a directory. *)
Fixpoint putFile (n content : jsstring) (es : list entry) : option (list entry) :=
  match es with
  | [] => Some [File n content]
  | e :: es' =>
      if str_eqb (entryName e) n then
        match e with
        | File _ _ => Some (File n content :: es')
        | Dir _ _ => None
        end
      else match putFile n content es' with
           | Some r => Some (e :: r)
           | None => None
           end
  end.

(** [fs.unlinkSync] in one listing: afterwards the name is gone; [None]
    when it throws (no such file, or a directory). *)
Definition dropFile (n : jsstring) (es : list entry) : option (list entry) :=
  match lookup es n with
  | Some (File _ _) =>
      Some (filter (fun e => negb (str_eqb (entryName e) n)) es)
  | _ => None
  end.

(** Apply a change to the first entry of that name. *)
Fixpoint changeFirst (n : jsstring) (f : entry -> option entry)
    (es : list entry) : option (list entry) :=
  match es with
  | [] => None
  | e :: es' =>
      if str_eqb (entryName e) n then
        match f e with
        | Some e' => Some (e' :: es')
        | None => None
        end
      else match changeFirst n f es' with
           | Some r => Some (e :: r)
           | None => None
           end
  end.

(** Apply a change to the listing of the directory at path [p]. *)
Fixpoint updateAt (p : list jsstring)
    (f : list entry -> option (list entry)) (es : list entry)
    : option (list entry) :=
  match p with
  | [] => f es
  | d :: p' =>
      changeFirst d
        (fun e => match e with
                  | Dir n sub =>
                      match updateAt p' f sub with
                      | Some sub' => Some (Dir n sub')
                      | None => None
                      end
                  | File _ _ => None
                  end) es
  end.

(** What the generator did to the collection. *)
Inductive event :=
| Wrote (dir : list jsstring) (file : jsstring) (content : jsstring)
| Unlinked (dir : list jsstring) (file : jsstring).

Record GenState := {
  disk : list entry;
  trace : list event
}.

(** The end of a run of the generator. *)
Inductive run (A : Type) : Type :=
| Finished (a : A)
| Threw
| OutOfFuel.
Arguments Finished {A} a.
Arguments Threw {A}.
Arguments OutOfFuel {A}.

(** State passing: the state survives a throw. *)
Definition Gen (A : Type) : Type := GenState -> run A * GenState.

Definition ret {A} (a : A) : Gen A := fun st => (Finished a, st).

Definition bind {A B} (m : Gen A) (k : A -> Gen B) : Gen B :=
  fun st =>
    match m st with
    | (Finished a, st') => k a st'
    | (Threw, st') => (Threw, st')
    | (OutOfFuel, st') => (OutOfFuel, st')
    end.

Notation "x <- m ;; k" := (bind m (fun x => k))
  (at level 61, m at next level, right associativity).

Definition getDisk : Gen (list entry) := fun st => (Finished (disk st), st).

(** [arr.map(f)] for an effectful [f], left to right. *)
Fixpoint mapGen {A B} (f : A -> Gen B) (l : list A) : Gen (list B) :=
  match l with
  | [] => ret []
  | a :: l' =>
      b <- f a ;;
      bs <- mapGen f l' ;;
      ret (b :: bs)
  end.

(** [fs.writeFileSync(path.join(ROOT, ...dir, file), content)] *)
Definition writeFileSync (dir : list jsstring) (file content : jsstring) : Gen unit :=
  fun st =>
    match updateAt dir (putFile file content) (disk st) with
    | Some d => (Finished tt,
                 {| disk := d; trace := trace st ++ [Wrote dir file content] |})
    | None => (Threw, st)
    end.

(* ================================================================== *)
(** * scripts/generate-manifest.mjs *)
(* ================================================================== *)

Module Generator.
Section WithHost.
Context {host : Host}.

Definition IMAGE_EXT : list jsstring :=
  [js ".jpg"; js ".jpeg"; js ".png"; js ".webp"; js ".gif"; js ".avif"].

Definition DEFAULT_IGNORE_DIRS : list jsstring :=
  [js "thumbnails"; js "thumbnail"; js "thumbs"; js "thumb"; js "proofs";
   js "proof"].

Definition isImageFile (nm : jsstring) : bool :=
  includes IMAGE_EXT (toLowerCase (extname nm)).

Definition safeReaddirSync (fs : list entry) (p : list jsstring) : list entry :=
  match readdirSync fs p with
  | Some es => es
  | None => []
  end.

(** [s.replace(/#.*/, ...)] with the empty replacement: the first [#] and
    what follows it up to a line terminator are removed. *)
Definition isLineTerminator (c : N) : bool :=
  N.eqb c 10 || N.eqb c 13 || N.eqb c 8232 || N.eqb c 8233.

Fixpoint dropToTerminator (s : jsstring) : jsstring :=
  match s with
  | c :: s' => if isLineTerminator c then s else dropToTerminator s'
  | [] => []
  end.

Fixpoint stripHashComment (s : jsstring) : jsstring :=
  match s with
  | c :: s' => if N.eqb c 35 then dropToTerminator s' else c :: stripHashComment s'
  | [] => []
  end.

Definition readLinesIfFile (fs : list entry) (dir : list jsstring) (file : jsstring)
    : list jsstring :=
  match readFileSync fs dir file with
  | Some raw =>
      filter truthy (map (fun s => trim (stripHashComment s)) (splitLines raw))
  | None => []
  end.

Definition readOrder (fs : list entry) (absDir : list jsstring) : list jsstring :=
  readLinesIfFile fs absDir (js ".order").

Definition readIgnore (fs : list entry) (absDir : list jsstring) : list jsstring :=
  map toLowerCase (readLinesIfFile fs absDir (js ".ignore")).

Definition isHiddenOrIgnored (nm : jsstring) (ignoreSet : list jsstring) : bool :=
  if negb (truthy nm) then true
  else if startsWith nm (js ".") || startsWith nm (js "@") then true
  else if includes ignoreSet (toLowerCase nm) then true
  else if includes DEFAULT_IGNORE_DIRS (toLowerCase nm) then true
  else false.

(** [pos.get(n)] after [desired.forEach((n, i) => pos.set(n, i))]: the
    last index of [n]. *)
Fixpoint posOf (desired : list jsstring) (i : nat) (n : jsstring) : option nat :=
  match desired with
  | [] => None
  | d :: ds =>
      match posOf ds (S i) n with
      | Some j => Some j
      | None => if str_eqb d n then Some i else None
      end
  end.

Definition applyOrderList (items desired : list jsstring) : list jsstring :=
  match desired with
  | [] => items
  | _ :: _ =>
      let pos n := posOf desired 0 n in
      let has n := match pos n with Some _ => true | None => false end in
      let key n := match pos n with Some i => i | None => 0 end in
      let inList := sortBy (fun a b => Nat.leb (key a) (key b)) (filter has items) in
      let rest := filter (fun n => negb (has n)) items in
      inList ++ rest
  end.

Definition writeIfChanged (dir : list jsstring) (file content : jsstring) : Gen bool :=
  fs <- getDisk ;;
  match readFileSync fs dir file with
  | Some prev =>
      if str_eqb prev content then ret false
      else (_ <- writeFileSync dir file content ;; ret true)
  | None => _ <- writeFileSync dir file content ;; ret true
  end.

Definition removeIfExists (dir : list jsstring) (file : jsstring) : Gen bool :=
  fun st =>
    if existsSync (disk st) dir file then
      match updateAt dir (dropFile file) (disk st) with
      | Some d => (Finished true,
                   {| disk := d; trace := trace st ++ [Unlinked dir file] |})
      | None => (Finished false, st)
      end
    else (Finished false, st).

(** The cover helpers of the script.  [normalizeParts], [slugToWebPath],
    [stripWeirdPrefix] and [correctCaseUnderPortfolio] are the functions
    of cover.ts, copied; the search sorts with [ciAlpha]. *)
Definition resolveLineToSlugParts (rawLine : jsstring)
    (currentSlugParts : list jsstring) : option (list jsstring) :=
  let line := trim (Cover.stripWeirdPrefix rawLine) in
  if negb (truthy line) || startsWith line (js "#") then None
  else
    let line := backslashesToSlashes line in
    let cleaned := dropLeadingSlashes line in
    if testPortfolioPrefix cleaned then
      Some (Cover.normalizeParts (tl (splitOn 47 cleaned)))
    else if startsWith line (js "/") then None
    else
      let rel := splitOn 47 cleaned in
      let rel :=
        match rel with
        | s0 :: r => if str_eqb (toLowerCase s0) (js "portfolio") then r else rel
        | [] => rel
        end in
      Some (Cover.normalizeParts (currentSlugParts ++ rel)).

Definition findFileUnderPortfolioBFS := Cover.bfsFrom localeLeNumeric.

Definition readCoverOverrideWebPath (fs : list entry) (absDir slugParts : list jsstring)
    : option jsstring :=
  match readFileSync fs absDir (js ".cover") with
  | None => None
  | Some [] => None
  | Some ((_ :: _) as raw) =>
      match find (fun s => truthy s && negb (startsWith s (js "#")))
                 (map (fun s => trim (Cover.stripWeirdPrefix s))
                      (splitLines (Cover.stripWeirdPrefix raw))) with
      | None => None
      | Some line =>
          match resolveLineToSlugParts line slugParts with
          | None => None
          | Some [] => None
          | Some ((_ :: _) as parts) =>
              let lastSeg := last parts [] in
              if negb (isImageFile lastSeg) then None
              else
                match Cover.correctCaseUnderPortfolio fs parts with
                | Some corrected => Some (Cover.slugToWebPath corrected)
                | None =>
                    let isLikelyRelative :=
                      negb (testPortfolioPrefix
                              (dropLeadingSlashes (backslashesToSlashes line)))
                      && negb (startsWith line (js "/")) in
                    if isLikelyRelative then
                      match findFileUnderPortfolioBFS fs slugParts lastSeg with
                      | Some found => Some (Cover.slugToWebPath found)
                      | None => None
                      end
                    else None
                end
          end
      end
  end.

Definition fallbackCoverFromImages (webPath : jsstring) (images : list jsstring)
    : option jsstring :=
  match images with
  | img :: _ => Some (pathJoin [webPath; img])
  | [] => None
  end.

Definition effectiveCoverWebPath (fs : list entry) (dirAbs slugParts : list jsstring)
    (webPath : jsstring) (images : list jsstring)
    (existingCoverWebPath : option jsstring) : option jsstring :=
  let override :=
    Cover.orString (readCoverOverrideWebPath fs dirAbs slugParts) None in
  Cover.orString override
    (Cover.orString existingCoverWebPath (fallbackCoverFromImages webPath images)).

Definition unionSets (a b c : list jsstring) : list jsstring :=
  nodup (list_eq_dec N.eq_dec) (a ++ b ++ c).

(** [buildNode(absPath, relParts, inheritedIgnore)] is embedded in four
    parts, in the order of its text: [listing] reads and orders the
    entries, [writeListings] maintains the two convenience files, the
    recursion builds the children, [finish] picks the cover and makes
    the node.  As in build.ts, [absPath] is the string and [relParts]
    addresses the directory. *)

(** The result is [(combinedIgnore, images, folders)]. *)
Definition listing (fs : list entry) (relParts inheritedIgnore : list jsstring)
    : list jsstring * list jsstring * list jsstring :=
  let localIgnore := readIgnore fs relParts in
  let combinedIgnore :=
    unionSets inheritedIgnore localIgnore DEFAULT_IGNORE_DIRS in
  let entries := safeReaddirSync fs relParts in
  let fileNames :=
    filter (fun n => negb (isHiddenOrIgnored n combinedIgnore))
           (map entryName (filter isFile entries)) in
  let dirNames :=
    filter (fun n => negb (isHiddenOrIgnored n combinedIgnore))
           (map entryName (filter isDirectory entries)) in
  let order := readOrder fs relParts in
  let images := filter isImageFile fileNames in
  let folders := dirNames in
  match order with
  | _ :: _ =>
      (combinedIgnore, applyOrderList images order, applyOrderList folders order)
  | [] =>
      (combinedIgnore, sortBy localeLeNumeric images,
       sortBy localeLeNumeric folders)
  end.

Definition writeListings (relParts images folders : list jsstring) : Gen unit :=
  let isRoot := Nat.eqb (List.length relParts) 0 in
  _ <- (match folders with
        | _ :: _ =>
            writeIfChanged relParts (js ".folders")
              (joinWith [10%N] folders ++ [10%N])
        | [] => removeIfExists relParts (js ".folders")
        end) ;;
  _ <- (if isRoot then removeIfExists relParts (js ".images")
        else match images with
             | _ :: _ =>
                 writeIfChanged relParts (js ".images")
                   (joinWith [10%N] images ++ [10%N])
             | [] => removeIfExists relParts (js ".images")
             end) ;;
  ret tt.

Definition finish (fs : list entry) (absPath : jsstring)
    (relParts images : list jsstring) (children : list RawNode) : RawNode :=
  let dirName := basename absPath in
  let slug := dirName in
  let webPath := js "/" ++ joinWith (js "/") (js "Portfolio" :: relParts) in
  let cover := effectiveCoverWebPath fs relParts relParts webPath images None in
  let finalImages :=
    match children, cover with
    | _ :: _, Some cv =>
        if truthy cv && startsWith cv (webPath ++ js "/") then
          let coverFile := skipn (List.length webPath + 1) cv in
          filter (fun img => negb (str_eqb img coverFile)) images
        else images
    | _, _ => images
    end in
  {| raw_name := Some dirName;
     raw_dirName := None;
     raw_slug := Some slug;
     raw_fsPath := Some absPath;
     raw_webPath := Some webPath;
     raw_coverWebPath := Cover.orString cover None;
     raw_images := match finalImages with
                   | [] => None
                   | _ :: _ => Some finalImages
                   end;
     raw_children := match children with
                     | [] => None
                     | _ :: _ => Some children
                     end |}.

Fixpoint buildNode (fuel : nat) (absPath : jsstring) (relParts : list jsstring)
    (inheritedIgnore : list jsstring) : Gen RawNode :=
  match fuel with
  | 0 => fun st => (OutOfFuel, st)
  | S fuel' =>
      fs <- getDisk ;;
      let '(combinedIgnore, images, folders) :=
        listing fs relParts inheritedIgnore in
      _ <- writeListings relParts images folders ;;
      children <- mapGen (fun child =>
                            buildNode fuel' (pathJoin [absPath; child])
                              (relParts ++ [child]) combinedIgnore) folders ;;
      fs <- getDisk ;;
      ret (finish fs absPath relParts images children)
  end.

(** The script: build from [ROOT]; the result is the document that is
    written to [public/portfolio-manifest.json]. *)
Definition generate (fs : list entry) : run RawNode * GenState :=
  buildNode (S (height fs)) Build.ROOT [] []
    {| disk := fs; trace := [] |}.

End WithHost.
End Generator.

(* ================================================================== *)
(** * A host for ASCII names *)
(* ================================================================== *)

(** Lexicographic order of the folded code units; on names made of
    ASCII letters (no digits, no punctuation) this is the order of
    [localeCompare] at base sensitivity, with or without [numeric]. *)
Fixpoint foldedLe (a b : jsstring) : bool :=
  match a, b with
  | [], _ => true
  | _ :: _, [] => false
  | x :: a', y :: b' =>
      if N.ltb (foldAscii x) (foldAscii y) then true
      else if N.ltb (foldAscii y) (foldAscii x) then false
      else foldedLe a' b'
  end.

(** Percent-encoding of the code units below the surrogate range, and
    decoding of the escapes of ASCII characters. *)
Definition isUnreserved (c : N) : bool :=
  (N.leb 65 c && N.leb c 90) || (N.leb 97 c && N.leb c 122)
  || (N.leb 48 c && N.leb c 57)
  || existsb (N.eqb c) [45; 95; 46; 33; 126; 42; 39; 40; 41]%N.

Definition hexDigit (n : N) : N :=
  if N.ltb n 10 then (48 + n)%N else (55 + n)%N.

Definition utf8 (c : N) : list N :=
  if N.ltb c 128 then [c]
  else if N.ltb c 2048 then [192 + c / 64; 128 + c mod 64]%N
  else [224 + c / 4096; 128 + (c / 64) mod 64; 128 + c mod 64]%N.

Definition percentEncode (s : jsstring) : jsstring :=
  flat_map (fun c =>
              if isUnreserved c then [c]
              else flat_map (fun b => [37%N; hexDigit (b / 16); hexDigit (b mod 16)])
                            (utf8 c)) s.

Definition hexValue (c : N) : option N :=
  if N.leb 48 c && N.leb c 57 then Some (c - 48)%N
  else if N.leb 65 c && N.leb c 70 then Some (c - 55)%N
  else if N.leb 97 c && N.leb c 102 then Some (c - 87)%N
  else None.

Fixpoint percentDecode (s : jsstring) : option jsstring :=
  match s with
  | [] => Some []
  | c :: s' =>
      if N.eqb c 37 then
        match s' with
        | h :: l :: rest =>
            match hexValue h, hexValue l with
            | Some a, Some b =>
                if N.ltb (16 * a + b) 128
                then option_map (cons (16 * a + b)%N) (percentDecode rest)
                else None
            | _, _ => None
            end
        | _ => None
        end
      else option_map (cons c) (percentDecode s')
  end.

Definition asciiHost : Host := {|
  toLowerCase := map foldAscii;
  localeLe := foldedLe;
  localeLeNumeric := foldedLe;
  encodeURIComponent := percentEncode;
  decodeURIComponent := percentDecode;
  cwd := js "/srv/site";
  env_NEXT_PUBLIC_DEV := None;
  env_NODE_ENV := Some (js "production");
  devGalleryLimit := None
|}.

(* ================================================================== *)
(** * Notions of the design document *)
(* ================================================================== *)

Definition str_dec : forall a b : jsstring, {a = b} + {a <> b} :=
  list_eq_dec N.eq_dec.

(** A non-empty optional string. *)
Definition nonEmpty (o : option jsstring) : option jsstring :=
  match o with
  | Some s => if truthy s then Some s else None
  | None => None
  end.

(** The address of the first media file that a child exposes. *)
Definition firstMedia (c : GalleryNode) : option jsstring :=
  match images c with
  | Some (img :: _) =>
      if truthy (webPath c) then Some (webPath c ++ js "/" ++ img) else None
  | _ => None
  end.

(** What one child yields to its parent, in the words of the design
    document: its cover if non-empty, else its first media file. *)
Definition coverThenMedia (c : GalleryNode) : option jsstring :=
  orElse (nonEmpty (coverWebPath c)) (firstMedia c).

(** The other order: its first media file, else its cover if non-empty. *)
Definition mediaThenCover (c : GalleryNode) : option jsstring :=
  orElse (firstMedia c) (nonEmpty (coverWebPath c)).

(** Walk the children in order and stop at the first one that yields. *)
Fixpoint firstYield (yield : GalleryNode -> option jsstring)
    (children : list GalleryNode) : option jsstring :=
  match children with
  | [] => None
  | c :: rest => orElse (yield c) (firstYield yield rest)
  end.


(** A line of a cover-override file that is blank or a comment. *)
Definition blankOrComment (l : jsstring) : Prop :=
  trim (Cover.stripWeirdPrefix l) = []
  \/ startsWith (trim (Cover.stripWeirdPrefix l)) (js "#") = true.

(** The invariant of section 3: a node with children exposes no media. *)
Definition parentHidesMedia (n : GalleryNode) : Prop :=
  children n <> None -> images n = None.

(** An address that names an entry of the collection. *)
Definition insideCollection (fs : list entry) (w : jsstring) : Prop :=
  exists (dir : list jsstring) (f : jsstring) (e : entry),
    w = Cover.slugToWebPath (dir ++ [f]) /\ statSync fs dir f = Some e.

(** The event that must never happen: a write of the media-listing file
    of the collection root. *)
Definition writesRootImages (ev : event) : bool :=
  match ev with
  | Wrote [] f _ => str_eqb f (js ".images")
  | _ => false
  end.

(** Whether the collection root holds a media-listing file. *)
Definition rootImagesFile (es : list entry) : bool :=
  match lookup es (js ".images") with
  | Some (File _ _) => true
  | _ => false
  end.

(** A computation of the generator that never writes the media-listing
    file of the root. *)
Definition quiet {A} (m : Gen A) : Prop :=
  forall st r st',
    m st = (r, st') ->
    exists new,
      trace st' = trace st ++ new
      /\ Forall (fun ev => writesRootImages ev = false) new.

(** A computation that leaves the root as it is, as far as its
    media-listing file goes. *)
Definition keepsRootImages {A} (m : Gen A) : Prop :=
  forall st r st',
    m st = (r, st') -> rootImagesFile (disk st') = rootImagesFile (disk st).

(** A computation that does not make the collection deeper. *)
Definition shrinks {A} (m : Gen A) : Prop :=
  forall st r st', m st = (r, st') -> height (disk st') <= height (disk st).

(** A computation that does not run out of fuel on a collection of
    height at most [h]. *)
Definition fuelled {A} (h : nat) (m : Gen A) : Prop :=
  forall st, height (disk st) <= h -> fst (m st) <> OutOfFuel.

(** *** Breadth-first search, level by level *)

Section LevelOrder.
Context {host : Host}.
Variable le : jsstring -> jsstring -> bool.
Variable fs : list entry.

(** The sub-directories of a directory that the search enters, in the
    order of the comparator; dot-directories are left out. *)
Definition subdirsOf (parts : list jsstring) : list (list jsstring) :=
  match readdirSync fs parts with
  | Some es => map (fun d => parts ++ [d]) (Cover.subdirNames le es)
  | None => []
  end.

(** The file of a directory that answers the target: the one of the
    same name, else the first of the sorted files that equals it up to
    case. *)
Definition hitIn (target : jsstring) (parts : list jsstring)
    : option (list jsstring) :=
  match readdirSync fs parts with
  | Some es =>
      option_map (fun f => parts ++ [f])
        (Cover.matchFile (Cover.fileNames le es) target (toLowerCase target))
  | None => None
  end.

Fixpoint firstHit (target : jsstring) (dirs : list (list jsstring))
    : option (list jsstring) :=
  match dirs with
  | [] => None
  | p :: ps => orElse (hitIn target p) (firstHit target ps)
  end.

(** [k] levels of directories, from the level [q] downwards, each level
    from left to right. *)
Fixpoint levelsFrom (k : nat) (q : list (list jsstring)) : list (list jsstring) :=
  match k with
  | 0 => []
  | S k' => q ++ levelsFrom k' (flat_map subdirsOf q)
  end.

(** The fuel that a queue of the search needs, and the loop of the
    source run with it. *)
Definition queueFuel (q : list (list jsstring)) : nat :=
  list_sum (map (Cover.queueWeight fs) q).

Definition bfsRun (target : jsstring) (q : list (list jsstring))
    : option (option (list jsstring)) :=
  Cover.bfsLoop le (queueFuel q) fs target (toLowerCase target) q.

(** The number of levels below a directory, itself included. *)
Definition depthBelow (parts : list jsstring) : nat :=
  match readdirSync fs parts with
  | Some es => S (height es)
  | None => 0
  end.

(** Breadth-first search from [start]: the first directory, level by
    level, that holds a file answering the target. *)
Definition levelOrderSearch (start : list jsstring) (target : jsstring)
    : option (list jsstring) :=
  firstHit target (levelsFrom (S (depthBelow start)) [start]).

End LevelOrder.

(** *** Modelled from the spec: the search of step 3b *)

Section AlphabeticalSearch.
Context {host : Host}.
Variable le : jsstring -> jsstring -> bool.



(** [arrange] is any way of putting names in alphabetical order. *)
Variable arrange : list jsstring -> list jsstring.
Variable fs : list entry.







End AlphabeticalSearch.

(* ================================================================== *)
(** * Sample collections *)
(* ================================================================== *)

Definition showcase (n : GalleryNode)
    : jsstring * option jsstring * option (list jsstring) :=
  (webPath n, coverWebPath n, images n).

(** A parent [C] with two media files and an override naming the second. *)
Definition fsOverrideSecond : list entry :=
  [ Dir (js "C") [ File (js "a.jpg") []; File (js "b.jpg") [];
                   File (js ".cover") (js "b.jpg") ] ].

(** A leaf [L] with one media file that [.order] names twice. *)
Definition fsRepeat : list entry :=
  [ Dir (js "L") [ File (js "x.jpg") [];
                   File (js ".order") (js "x.jpg" ++ [10%N] ++ js "x.jpg") ] ].

(** A leaf [L] with one media file and nothing else. *)
Definition fsSingle : list entry :=
  [ Dir (js "L") [ File (js "x.jpg") [] ] ].

(** A leaf whose [.cover] holds a comment, a blank line and a marked
    comment, and the same leaf without the file. *)
Definition fsCommentCover : list entry :=
  [ Dir (js "L")
      [ File (js "a.jpg") []; File (js "b.jpg") [];
        File (js ".cover")
          ([65279%N] ++ js "# pick later" ++ [13%N; 10%N] ++ js "   "
           ++ [10%N] ++ js "  #b.jpg" ++ [10%N]) ] ].

Definition fsNoCover : list entry :=
  [ Dir (js "L") [ File (js "a.jpg") []; File (js "b.jpg") [] ] ].

(** The scenario of the design document: [D] has no override and no
    media; its children are [C1] (nothing) and [C2] (one media file). *)
Definition fsScenario : list entry :=
  [ Dir (js "D") [ Dir (js "C1") []; Dir (js "C2") [ File (js "x.jpg") [] ] ] ].

Definition scenarioC1 : GalleryNode :=
  mkNode (js "C1") (js "C1") (js "/srv/site/public/Portfolio/D/C1")
    (js "/Portfolio/D/C1") None None None.

Definition scenarioC2 : GalleryNode :=
  mkNode (js "C2") (js "C2") (js "/srv/site/public/Portfolio/D/C2")
    (js "/Portfolio/D/C2") (Some (js "/Portfolio/D/C2/x.jpg"))
    (Some [js "x.jpg"]) None.

(** [A] holds two media files and the sub-gallery [S]. *)
Definition fsMixed : list entry :=
  [ Dir (js "A") [ File (js "a.jpg") []; File (js "b.jpg") [];
                   Dir (js "S") [ File (js "c.jpg") [] ] ] ].

(** [A] holds only the sub-gallery [B], which holds one media file. *)
Definition fsNested : list entry :=
  [ Dir (js "A") [ Dir (js "B") [ File (js "x.jpg") [] ] ] ].

(** The two ways to the index: a live scan, and the manifest that the
    generator wrote for the same collection. *)
Definition liveWorld (fs : list entry) : Build.World :=
  {| Build.env_GALLERY_USE_MANIFEST := None;
     Build.manifestFile := None;
     Build.portfolio := Some fs |}.

Definition snapshotWorld (fs : list entry) (manifest : RawNode) : Build.World :=
  {| Build.env_GALLERY_USE_MANIFEST := Some (js "true");
     Build.manifestFile := Some (Some manifest);
     Build.portfolio := Some fs |}.

(** [D] names the bare file [sibling.jpg] in its [.cover]; the only file
    of that name, up to case, lies three levels below [D]. *)
Definition fsDeep : list entry :=
  [ Dir (js "D")
      [ File (js ".cover") (js "sibling.jpg");
        Dir (js "b") [ File (js "other.jpg") [] ];
        Dir (js "a")
          [ File (js "first.jpg") [];
            Dir (js "m")
              [ Dir (js "n") [ File (js "Sibling.JPG") [] ] ] ] ] ].


(** A root with a stale media-listing file, media of its own and one
    gallery. *)
Definition fsStaleRoot : list entry :=
  [ File (js ".images") (js "old.jpg" ++ [10%N]);
    File (js "r.jpg") [];
    Dir (js "G") [ File (js "g.jpg") [] ] ].


(** Modelled from the spec: a line is blank when nothing is left of it
    once byte-order marks, zero-width characters and white space are
    taken away. *)
Definition isZeroWidth (c : N) : bool :=
  N.eqb c 65279 || N.eqb c 8288 || N.eqb c 8203.

Definition blankLine (l : jsstring) : bool :=
  forallb (fun c => isWhiteSpace c || isZeroWidth c) l.

(** A leaf whose [.order] puts [b.jpg] first and whose [.cover] holds a
    space and a zero-width space, and the same leaf without the
    [.cover]. *)
Definition fsInvisibleCover : list entry :=
  [ Dir (js "L")
      [ File (js "a.jpg") []; File (js "b.jpg") [];
        File (js ".order") (js "b.jpg");
        File (js ".cover") [32%N; 8203%N] ] ].

Definition fsInvisibleCoverAbsent : list entry :=
  [ Dir (js "L")
      [ File (js "a.jpg") []; File (js "b.jpg") [];
        File (js ".order") (js "b.jpg") ] ].

(* ================================================================== *)
(** * Further notions *)
(* ================================================================== *)

(** A path segment that [normalizeParts] keeps as it is. *)
Definition plainSegment (s : jsstring) : Prop :=
  s <> [] /\ s <> js "." /\ s <> js "..".

(** A node that shows a directory of the collection: its address names
    a directory that can be read, its media are media files of that
    directory, and its cover, if it has one, names an entry of the
    collection. *)
Definition showsDirectory {host : Host} (fs : list entry) (n : GalleryNode)
    : Prop :=
  exists (p : list jsstring) (es : list entry),
    webPath n = Cover.slugToWebPath p
    /\ readdirSync fs p = Some es
    /\ (forall l img, images n = Some l -> In img l ->
          Paths.isImageFile img = true
          /\ exists nm c, statSync fs p img = Some (File nm c))
    /\ (forall cv, coverWebPath n = Some cv -> insideCollection fs cv).

(** The sub-directories of a directory in the order of display: the
    [normalDirs] of [buildNode] after the ordering block. *)
Definition displayDirs {host : Host} (fs : list entry) (relParts : list jsstring)
    : list jsstring :=
  snd (fst (Build.scan fs relParts)).

(** A development host with a limit of two galleries. *)
Definition devHost : Host := {|
  toLowerCase := map foldAscii;
  localeLe := foldedLe;
  localeLeNumeric := foldedLe;
  encodeURIComponent := percentEncode;
  decodeURIComponent := percentDecode;
  cwd := js "/srv/site";
  env_NEXT_PUBLIC_DEV := None;
  env_NODE_ENV := Some (js "development");
  devGalleryLimit := Some 2
|}.

(** Three galleries, ordered by [.order] at the root. *)
Definition fsThree : list entry :=
  [ Dir (js "a") [ File (js "1.jpg") [] ];
    Dir (js ".meta") [];
    Dir (js "b") [ Dir (js "b1") []; Dir (js "b2") [] ];
    Dir (js "c") [];
    File (js ".order") (js "c" ++ [10%N] ++ js "a") ].

(* ================================================================== *)
(** * lib/gallery/build.ts: [getBreadcrumbs] *)
(* ================================================================== *)

Module Crumbs.
Section WithHost.
Context {host : Host}.

Record Crumb := { name : jsstring; href : jsstring }.

(** The [for] loop of [getBreadcrumbs]; [decodeURIComponent] may throw. *)
Fixpoint loop (href : jsstring) (items : list Crumb) (slugParts : list jsstring)
    : result (list Crumb) :=
  match slugParts with
  | [] => Ok items
  | part :: rest =>
      let href := href ++ js "/" ++ part in
      match decodeURIComponent part with
      | None => Throw
      | Some decoded => loop href (items ++ [{| name := decoded; href := href |}]) rest
      end
  end.

Definition getBreadcrumbs (slugParts : list jsstring) : result (list Crumb) :=
  loop (js "/portfolio") [{| name := js "Portfolio"; href := js "/portfolio" |}]
       slugParts.

End WithHost.
End Crumbs.

(** The shape that [normalizeManifest] gives every node: a list that is
    present is not empty, and a leaf without media has no cover to take
    a file name from. *)
Definition wellShaped (n : GalleryNode) : Prop :=
  children n <> Some []
  /\ images n <> Some []
  /\ (children n = None -> images n = None ->
      nonEmpty (Build.filenameFromWebPath (coverWebPath n)) = None).

(** A manifest whose lists are empty arrays, with a leaf that has
    nothing but a cover. *)
Definition rawLoose : RawNode :=
  mkRaw (Some (js "Portfolio")) None None None (Some (js "/Portfolio")) None
    (Some [])
    (Some [ mkRaw None (Some (js "A")) None None (Some (js "/Portfolio/A"))
              (Some (js "/Portfolio/A/x.jpg")) (Some []) (Some []) ]).

(** A change of one listing that touches the file [f] only: every other
    name denotes what it did, and [f] is no directory before or after. *)
Definition touchesOnly (f : jsstring) (g : list entry -> option (list entry))
    : Prop :=
  forall es es',
    g es = Some es' ->
    (forall n, n <> f -> lookup es' n = lookup es n)
    /\ (forall n sub, lookup es f <> Some (Dir n sub))
    /\ (forall n sub, lookup es' f <> Some (Dir n sub)).

(** A computation of a script whose runs relate the collection before
    to the collection after by [R]. *)
Definition relates {A} (R : list entry -> list entry -> Prop) (m : Gen A)
    : Prop :=
  forall st r st', m st = (r, st') -> R (disk st) (disk st').

(** Two collections that agree on every file that [touched] does not
    name. *)
Definition sameFilesBut (touched : list jsstring -> jsstring -> Prop)
    (fs fs' : list entry) : Prop :=
  forall dir f, ~ touched dir f -> readFileSync fs' dir f = readFileSync fs dir f.

(** The two convenience files, in any directory. *)
Definition listingFile (dir : list jsstring) (f : jsstring) : Prop :=
  f = js ".folders" \/ f = js ".images".

(** Any file that is not in the root directory. *)
Definition belowRoot (dir : list jsstring) (f : jsstring) : Prop :=
  dir <> [].

(** A name that a list file can hold on a line of its own: not empty,
    no white space at either end, no line feed. *)
Definition listable (n : jsstring) : Prop :=
  n <> [] /\ trim n = n /\ ~ In 10%N n.

(* ================================================================== *)
(** * components/GalleryGrid.tsx *)
(* ================================================================== *)

Module GalleryGrid.

(** [firstDescendantCover(node)]: the [for] loop over the children is
    the inner function; a node without a child list has no child to
    walk. *)
Fixpoint firstDescendantCover (node : GalleryNode) : option jsstring :=
  match children node with
  | Some cs =>
      (fix walk (cs : list GalleryNode) : option jsstring :=
         match cs with
         | [] => None
         | child :: rest =>
             match nonEmpty (coverWebPath child) with
             | Some cv => Some cv
             | None =>
                 match nonEmpty (firstDescendantCover child) with
                 | Some deeper => Some deeper
                 | None => walk rest
                 end
             end
         end) cs
  | None => None
  end.

(** The comparator of the sort, as [cmp(a, b) <= 0]: a missing index
    counts as infinity, and the difference of two infinities, which is
    not a number, leaves the two in their order. *)
Definition indexLe (a b : option nat) : bool :=
  match a, b with
  | Some x, Some y => Nat.leb x y
  | Some _, None => true
  | None, Some _ => false
  | None, None => true
  end.

(** The [list] that the grid renders, for nodes whose [sortIndex], if
    they have one, is a natural number. *)
Definition list {A} (sortIndex : A -> option nat) (nodes : list A) : list A :=
  let shouldSortByIndex :=
    existsb (fun n => match sortIndex n with Some _ => true | None => false end)
            nodes in
  if shouldSortByIndex
  then sortBy (fun a b => indexLe (sortIndex a) (sortIndex b)) nodes
  else nodes.

End GalleryGrid.

(* ================================================================== *)
(** * app/portfolio/[...slug]/page.tsx and lib/gallery/aliases.ts *)
(* ================================================================== *)

(** [webPath.replace(/^\/+/, ...).split("/").slice(1)]: the segments of
    an address after [Portfolio]. *)
Definition slugPartsOfWebPath (webPath : jsstring) : list jsstring :=
  tl (splitOn 47 (dropLeadingSlashes webPath)).

Module Page.
Section WithWorld.
Context {host : Host}.

(** The index that [getNodeBySlug] consults, and
    [fs.readFile(path.join(dirAbs, filename), "utf8")] on the machine
    that serves the pages; [None] when it rejects. *)
Variable w : Build.World.
Variable readFile : jsstring -> jsstring -> option jsstring.

Definition readLinesIfExists (dirAbs filename : jsstring) : list jsstring :=
  match readFile dirAbs filename with
  | Some txt => splitLines txt
  | None => []
  end.

(** [coverFile]: the file of the effective cover when it lies in the
    folder of the page. *)
Definition coverFile (coverWebPathEffective : option jsstring)
    (nodeWebPath : jsstring) : option jsstring :=
  match coverWebPathEffective with
  | Some cv =>
      if truthy cv && truthy nodeWebPath
         && startsWith cv (nodeWebPath ++ js "/")
      then Some (skipn (List.length nodeWebPath + 1) cv)
      else None
  | None => None
  end.


(** An alias tile. *)
Record AliasTile := {
  tileName : jsstring;
  tileSlug : jsstring;
  tileFsPath : jsstring;
  tileWebPath : jsstring;
  tileCoverWebPath : option jsstring;
  tileChildren : option (list GalleryNode);
  tileImages : option (list jsstring);
  linkHref : jsstring
}.

Definition aliasTile (node target : GalleryNode) (parts : list jsstring)
    : AliasTile :=
  let href := joinWith (js "/") (js "/portfolio" :: parts) in
  {| tileName := name target;
     tileSlug :=
       (if truthy (slug target) then slug target
        else if truthy (last parts []) then last parts []
        else js "alias") ++ js "__alias";
     tileFsPath :=
       (if truthy (fsPath target) then fsPath target else href)
       ++ js "#alias:" ++ fsPath node;
     tileWebPath := webPath target;
     tileCoverWebPath :=
       Cover.orString (coverWebPath target)
         (Cover.fallbackCoverFromImages (webPath target) (images target));
     tileChildren := children target;
     tileImages := images target;
     linkHref := href |}.

(** The [for] loop over the lines of [.aliases]; it runs inside a [try]
    whose [catch] keeps the tiles pushed so far. *)
Fixpoint tilesLoop (node : GalleryNode) (slugParts existingWeb : list jsstring)
    (lines : list jsstring) (aliasTiles : list AliasTile) : list AliasTile :=
  match lines with
  | [] => aliasTiles
  | line :: rest =>
      match Cover.resolveLineToSlugParts line slugParts with
      | None => tilesLoop node slugParts existingWeb rest aliasTiles
      | Some parts =>
          match Build.getNodeBySlug w parts with
          | Throw => aliasTiles
          | Ok None => tilesLoop node slugParts existingWeb rest aliasTiles
          | Ok (Some target) =>
              if includes existingWeb (webPath target)
              then tilesLoop node slugParts existingWeb rest aliasTiles
              else tilesLoop node slugParts existingWeb rest
                     (aliasTiles ++ [aliasTile node target parts])
          end
      end
  end.

Definition aliasTiles (node : GalleryNode) (slugParts : list jsstring)
    : list AliasTile :=
  tilesLoop node slugParts
    (map webPath (match children node with Some cs => cs | None => [] end))
    (readLinesIfExists (fsPath node) (js ".aliases")) [].

(** [merged.map((n, idx) => ({ ...n, sortIndex: idx }))] *)
Definition gridNodes {A} (merged : list A) : list (A * nat) :=
  combine merged (seq 0 (List.length merged)).

End WithWorld.
End Page.

Module Aliases.
Section WithWorld.
Context {host : Host}.
Variable w : Build.World.
Variable readFile : jsstring -> jsstring -> option jsstring.

(** The [for] loop of [addAliasCountToChild]; a lookup that throws
    rejects the whole call. *)
Fixpoint countLoop (childSlugParts realChildWebs : list jsstring)
    (lines : list jsstring) (aliasChildrenCount : nat) : result nat :=
  match lines with
  | [] => Ok aliasChildrenCount
  | rawLine :: rest =>
      match Cover.resolveLineToSlugParts rawLine childSlugParts with
      | None => countLoop childSlugParts realChildWebs rest aliasChildrenCount
      | Some parts =>
          match Build.getNodeBySlug w parts with
          | Throw => Throw
          | Ok None =>
              countLoop childSlugParts realChildWebs rest aliasChildrenCount
          | Ok (Some target) =>
              let targetWeb :=
                if truthy (webPath target) then webPath target
                else Cover.slugToWebPath parts in
              if includes realChildWebs targetWeb
              then countLoop childSlugParts realChildWebs rest aliasChildrenCount
              else countLoop childSlugParts realChildWebs rest
                     (S aliasChildrenCount)
          end
      end
  end.

(** The child, and its [aliasChildrenCount] when the call sets one. *)
Definition addAliasCountToChild (child : GalleryNode)
    : result (GalleryNode * option nat) :=
  let childSlugParts := slugPartsOfWebPath (webPath child) in
  match Page.readLinesIfExists readFile (fsPath child) (js ".aliases") with
  | [] => Ok (child, None)
  | (_ :: _) as lines =>
      let realChildWebs :=
        map webPath (match children child with Some cs => cs | None => [] end) in
      match countLoop childSlugParts realChildWebs lines 0 with
      | Ok n => Ok (child, Some n)
      | Throw => Throw
      end
  end.

(** [Promise.all] of the calls: the first rejection rejects it. *)
Fixpoint allOk {A B} (f : A -> result B) (l : list A) : result (list B) :=
  match l with
  | [] => Ok []
  | a :: l' =>
      match f a, allOk f l' with
      | Ok b, Ok bs => Ok (b :: bs)
      | _, _ => Throw
      end
  end.

Definition addAliasCountsToChildren (children : option (list GalleryNode))
    : result (list (GalleryNode * option nat)) :=
  match children with
  | Some ((_ :: _) as cs) => allOk addAliasCountToChild cs
  | _ => Ok []
  end.

End WithWorld.
End Aliases.

(** The [.aliases] file of the gallery [b] of [fsThree], as the server
    reads it: a gallery one level up, a comment, a child of [b] itself
    and a gallery that does not exist. *)
Definition aliasesOfB (dirAbs filename : jsstring) : option jsstring :=
  if str_eqb dirAbs (js "/srv/site/public/Portfolio/b")
     && str_eqb filename (js ".aliases")
  then Some (js "../a" ++ [10%N] ++ js "# later" ++ [10%N] ++ js "b1" ++ [10%N]
             ++ js "../nope")
  else None.

(* ================================================================== *)
(** * scripts/update-folders.mjs *)
(* ================================================================== *)

Module UpdateFolders.
Section WithHost.
Context {host : Host}.

Definition isHidden (name : jsstring) : bool := startsWith name (js ".").

(** [listTopLevelDirs(ROOT)], for a root that can be read. *)
Definition listTopLevelDirs (entries : list entry) : list jsstring :=
  sortBy localeLeNumeric
    (map entryName
       (filter (fun e => isDirectory e && negb (isHidden (entryName e))) entries)).

Definition main : Gen unit :=
  fs <- getDisk ;;
  let dirs := listTopLevelDirs fs in
  let content := joinWith [10%N] dirs ++ [10%N] in
  match readFileSync fs [] (js ".folders") with
  | Some existing =>
      if str_eqb existing content then ret tt
      else writeFileSync [] (js ".folders") content
  | None => writeFileSync [] (js ".folders") content
  end.

End WithHost.
End UpdateFolders.

(* ================================================================== *)
(** * scripts/gen-order-files.mjs *)
(* ================================================================== *)

Module GenOrderFiles.
Section WithHost.
Context {host : Host}.

(** [flags.has("--no-overwrite")] *)
Variable NO_OVERWRITE : bool.

Definition IMAGE_EXT : list jsstring :=
  [js ".jpg"; js ".jpeg"; js ".png"; js ".webp"; js ".gif"; js ".avif";
   js ".bmp"; js ".tiff"].

Definition isImage (e : jsstring) : bool :=
  includes IMAGE_EXT (toLowerCase (extname e)).

Definition readDirSafe (fs : list entry) (p : list jsstring) : list entry :=
  match readdirSync fs p with
  | Some es => es
  | None => []
  end.

(** [s.replace(/\r\n/g, "\n")] *)
Fixpoint crlfToLf (s : jsstring) : jsstring :=
  match s with
  | [] => []
  | c :: s' =>
      match s' with
      | d :: s'' =>
          if N.eqb c 13 && N.eqb d 10 then 10%N :: crlfToLf s''
          else c :: crlfToLf s'
      | [] => [c]
      end
  end.

(** [fs.readFileSync] of a directory throws, and nothing catches it. *)
Definition writeFileIfChanged (dir : list jsstring) (file contents : jsstring)
    : Gen bool :=
  fs <- getDisk ;;
  let newText := crlfToLf contents in
  if existsSync fs dir file then
    match readFileSync fs dir file with
    | None => fun st => (Threw, st)
    | Some old =>
        if str_eqb (crlfToLf old) newText then ret false
        else if NO_OVERWRITE then ret false
        else (_ <- writeFileSync dir file newText ;; ret true)
    end
  else (_ <- writeFileSync dir file newText ;; ret true).

(** What [walk] reads in a directory: [(imageFiles, nonDotSubdirs)]. *)
Definition survey (fs : list entry) (relParts : list jsstring)
    : list jsstring * list jsstring :=
  let entries :=
    filter (fun d => negb (startsWith (entryName d) (js ".")))
           (readDirSafe fs relParts) in
  let subdirs := map entryName (filter isDirectory entries) in
  let files := map entryName (filter isFile entries) in
  (sortBy localeLeNumeric (filter isImage files), sortBy localeLeNumeric subdirs).

(** [walk(dirAbs, relParts)]; the directory is addressed by its segments
    below the root. *)
Fixpoint walk (fuel : nat) (relParts : list jsstring) : Gen unit :=
  match fuel with
  | 0 => fun st => (OutOfFuel, st)
  | S fuel' =>
      fs <- getDisk ;;
      let '(imageFiles, nonDotSubdirs) := survey fs relParts in
      _ <- (if Nat.ltb 0 (List.length imageFiles)
               && Nat.eqb (List.length nonDotSubdirs) 0
            then _ <- writeFileIfChanged relParts (js ".images")
                        (joinWith [10%N] imageFiles ++ [10%N]) ;; ret tt
            else ret tt) ;;
      if Nat.ltb 0 (List.length nonDotSubdirs) then
        _ <- writeFileIfChanged relParts (js ".folders")
               (joinWith [10%N] nonDotSubdirs ++ [10%N]) ;;
        _ <- mapGen (fun sub => walk fuel' (relParts ++ [sub])) nonDotSubdirs ;;
        ret tt
      else ret tt
  end.

(** [main()], for a root that exists. *)
Definition main (fs : list entry) : run unit * GenState :=
  walk (S (height fs)) [] {| disk := fs; trace := [] |}.

End WithHost.
End GenOrderFiles.

(** The files that exist keep their content. *)
Definition keepsFiles (fs fs' : list entry) : Prop :=
  forall dir f c, readFileSync fs dir f = Some c -> readFileSync fs' dir f = Some c.

(** A collection with an image folder, a container and stale list
    files. *)
Definition fsStale : list entry :=
  [ Dir (js "shoots")
      [ File (js ".folders") (js "old" ++ [10%N]);
        Dir (js "b") [ File (js "2.jpg") []; File (js "1.jpg") [];
                       File (js ".images") (js "2.jpg" ++ [10%N]) ];
        Dir (js "a") [ File (js "x.png") [] ] ];
    File (js "notes.txt") (js "keep") ].

(** Galleries in no particular order, and no [.order] file. *)
Definition fsUnordered : list entry :=
  [ Dir (js "b 2") []; Dir (js ".meta") []; File (js "r.jpg") [];
    Dir (js "c") [ File (js "1.jpg") [] ]; Dir (js "a") [] ].

(** The names of all the entries of a collection. *)
Fixpoint entryNames (e : entry) : list jsstring :=
  entryName e :: match e with
                 | Dir _ sub => flat_map entryNames sub
                 | File _ _ => []
                 end.

Definition allNames (es : list entry) : list jsstring :=
  flat_map entryNames es.

(** A name as a listing of a directory gives it, one segment that is
    not empty, and that the host encodes and decodes back. *)
Definition properName {host : Host} (s : jsstring) : Prop :=
  s <> [] /\ ~ In 47%N s
  /\ decodeURIComponent (encodeURIComponent s) = Some s.

(** A path whose every segment is on display in the directory that the
    segments before it lead to. *)
Fixpoint onDisplay {host : Host} (fs : list entry) (relParts path : list jsstring)
    : Prop :=
  match path with
  | [] => True
  | d :: rest =>
      In d (displayDirs fs relParts) /\ onDisplay fs (relParts ++ [d]) rest
  end.
(* ================================================================== *)
(** * Properties *)
(* ================================================================== *)

(** ** Strings and lists *)

Lemma str_eqb_refl (a : jsstring) : str_eqb a a = true.
Proof.
  induction a as [|x a IH]; simpl; [reflexivity|].
  now rewrite N.eqb_refl.
Qed.

Lemma str_eqb_eq (a b : jsstring) : str_eqb a b = true <-> a = b.
Proof.
  split.
  - revert b. induction a as [|x a IH]; intros [|y b]; simpl; try discriminate; auto.
    intros H. apply andb_true_iff in H as [Hx Hab].
    apply N.eqb_eq in Hx. f_equal; auto.
  - intros ->. apply str_eqb_refl.
Qed.

Lemma str_eqb_neq (a b : jsstring) : str_eqb a b = false <-> a <> b.
Proof.
  rewrite <- str_eqb_eq. destruct (str_eqb a b); split; congruence.
Qed.


Lemma includes_In (l : list jsstring) (x : jsstring) :
  includes l x = true <-> In x l.
Proof.
  unfold includes. rewrite existsb_exists. split.
  - intros [y [Hy He]]. apply str_eqb_eq in He. now subst.
  - intros H. exists x. split; [assumption | apply str_eqb_refl].
Qed.

Lemma includes_not_In (l : list jsstring) (x : jsstring) :
  includes l x = false <-> ~ In x l.
Proof.
  rewrite <- includes_In. destruct (includes l x); split; congruence.
Qed.

Lemma mapM_total {A B} (f : A -> option B) (l : list A) :
  (forall a, In a l -> exists b, f a = Some b) ->
  exists bs, mapM f l = Some bs.
Proof.
  induction l as [|a l IH]; intros H; simpl.
  - now exists [].
  - destruct (H a (or_introl eq_refl)) as [b Hb]. rewrite Hb.
    destruct IH as [bs Hbs]; [intros; apply H; now right|].
    rewrite Hbs. now exists (b :: bs).
Qed.

Lemma mapM_Forall {A B} (P : B -> Prop) (f : A -> option B) (l : list A) bs :
  (forall a b, In a l -> f a = Some b -> P b) ->
  mapM f l = Some bs -> Forall P bs.
Proof.
  revert bs. induction l as [|a l IH]; intros bs H; simpl.
  - intros [= <-]. constructor.
  - destruct (f a) as [b|] eqn:Hb; [|discriminate].
    destruct (mapM f l) as [bs'|] eqn:Hbs; [|discriminate].
    intros [= <-]. constructor.
    + eapply H; [now left | exact Hb].
    + apply IH; [|reflexivity]. intros a' b' Hin. apply H. now right.
Qed.

(** *** White space *)

Lemma trimStart_suffix (s : jsstring) : exists pre, s = pre ++ trimStart s.
Proof.
  induction s as [|c s IH]; simpl.
  - now exists [].
  - destruct (isWhiteSpace c).
    + destruct IH as [pre IH]. exists (c :: pre). simpl. now f_equal.
    + now exists [].
Qed.

Lemma trimStart_head (s : jsstring) (c : N) (r : jsstring) :
  trimStart s = c :: r -> isWhiteSpace c = false.
Proof.
  induction s as [|d s IH]; simpl; [discriminate|].
  destruct (isWhiteSpace d) eqn:E; [exact IH|].
  intros [= -> _]. exact E.
Qed.

Lemma trimStart_fixed (c : N) (r : jsstring) :
  isWhiteSpace c = false -> trimStart (c :: r) = c :: r.
Proof. intros H. simpl. now rewrite H. Qed.

Lemma trim_head (s : jsstring) (c : N) (r : jsstring) :
  trim s = c :: r -> isWhiteSpace c = false.
Proof.
  unfold trim. intros H.
  destruct (trimStart s) as [|a t] eqn:Et.
  - simpl in H. discriminate.
  - pose proof (trimStart_head _ _ _ Et) as Ha.
    destruct (trimStart_suffix (rev (a :: t))) as [pre Hpre].
    apply (f_equal (@rev N)) in Hpre.
    rewrite rev_involutive, rev_app_distr, H in Hpre.
    simpl in Hpre. injection Hpre as -> _. exact Ha.
Qed.

Lemma trim_last (s : jsstring) (c : N) (r : jsstring) :
  rev (trim s) = c :: r -> isWhiteSpace c = false.
Proof.
  unfold trim. rewrite rev_involutive. apply trimStart_head.
Qed.

Lemma trim_fixed (s : jsstring) :
  (forall c r, s = c :: r -> isWhiteSpace c = false) ->
  (forall c r, rev s = c :: r -> isWhiteSpace c = false) ->
  trim s = s.
Proof.
  intros Hh Hl. unfold trim.
  assert (E1 : trimStart s = s).
  { destruct s as [|c r]; [reflexivity|].
    apply trimStart_fixed. eapply Hh. reflexivity. }
  rewrite E1.
  assert (E2 : trimStart (rev s) = rev s).
  { destruct (rev s) as [|c r] eqn:E; [reflexivity|].
    apply trimStart_fixed. eapply Hl. reflexivity. }
  rewrite E2. apply rev_involutive.
Qed.

Lemma trim_idempotent (s : jsstring) : trim (trim s) = trim s.
Proof.
  apply trim_fixed; intros c r H.
  - eapply trim_head. exact H.
  - eapply trim_last. exact H.
Qed.

(** ** lib/gallery/order.ts: [applyOrder] *)

Lemma applyOrder_eq (items desired : list jsstring) :
  Order.applyOrder items desired
  = filter (fun n => includes items n) desired
    ++ filter (fun n => negb (includes desired n)) items.
Proof.
  destruct desired as [|d ds]; [|reflexivity].
  simpl. symmetry. apply forallb_filter_id.
  apply forallb_forall. reflexivity.
Qed.

Lemma In_applyOrder (items desired : list jsstring) (x : jsstring) :
  In x (Order.applyOrder items desired) <-> In x items.
Proof.
  rewrite applyOrder_eq, in_app_iff, !filter_In, negb_true_iff.
  rewrite includes_In, includes_not_In.
  destruct (in_dec str_dec x desired); tauto.
Qed.

Lemma NoDup_applyOrder (items desired : list jsstring) :
  NoDup items -> NoDup desired -> NoDup (Order.applyOrder items desired).
Proof.
  intros Hi Hd. rewrite applyOrder_eq.
  apply NoDup_app.
  - now apply NoDup_filter.
  - now apply NoDup_filter.
  - intros x H1 H2. apply filter_In in H1 as [H1 _].
    apply filter_In in H2 as [_ H2].
    apply negb_true_iff, includes_not_In in H2. contradiction.
Qed.

(** C3.  [applyOrder items desired] is a stable merge: the elements of
    [desired] that are items come first, in the order of [desired]; the
    items that [desired] does not name follow in their own order; every
    item is kept and nothing but items is emitted; for duplicate-free
    [items] and [desired] the result is a permutation of [items]. *)
Theorem applyOrder_stable_merge (items desired : list jsstring) :
  Order.applyOrder items desired
  = filter (fun n => includes items n) desired
    ++ filter (fun n => negb (includes desired n)) items
  /\ (forall x, In x items -> In x (Order.applyOrder items desired))
  /\ (forall x, In x (Order.applyOrder items desired) -> In x items)
  /\ (NoDup items -> NoDup desired ->
      Permutation items (Order.applyOrder items desired)).
Proof.
  split; [apply applyOrder_eq|].
  split; [intros x; apply In_applyOrder|].
  split; [intros x; apply In_applyOrder|].
  intros Hi Hd. apply NoDup_Permutation; auto using NoDup_applyOrder.
  intros x. symmetry. apply In_applyOrder.
Qed.

(** [.order] names [c.jpg] first, then [a.jpg], and a file that is not
    there; [b.jpg] is not named. *)
Lemma applyOrder_stable_merge_witness :
  Order.applyOrder [js "a.jpg"; js "b.jpg"; js "c.jpg"]
                   [js "c.jpg"; js "gone.jpg"; js "a.jpg"]
  = [js "c.jpg"; js "a.jpg"; js "b.jpg"]
  /\ Permutation [js "a.jpg"; js "b.jpg"; js "c.jpg"]
       (Order.applyOrder [js "a.jpg"; js "b.jpg"; js "c.jpg"]
                         [js "c.jpg"; js "gone.jpg"; js "a.jpg"]).
Proof.
  split; [reflexivity|].
  apply (proj2 (proj2 (proj2
           (applyOrder_stable_merge [js "a.jpg"; js "b.jpg"; js "c.jpg"]
              [js "c.jpg"; js "gone.jpg"; js "a.jpg"])))).
  - repeat constructor; simpl; intuition discriminate.
  - repeat constructor; simpl; intuition discriminate.
Defined.

(** ** lib/gallery/build.ts: address lookup *)

Section Lookup.
Context {host : Host}.

(** C10.  Address lookup with no segment returns the index node itself:
    whenever the index is produced, [getNodeBySlug []] is that node, and
    it is never the not-found result. *)
Theorem getNodeBySlug_empty (w : Build.World) :
  (forall index, Build.getGalleryIndex w = Ok index ->
                 Build.getNodeBySlug w [] = Ok (Some index))
  /\ Build.getNodeBySlug w [] <> Ok None.
Proof.
  unfold Build.getNodeBySlug. split.
  - intros index ->. reflexivity.
  - destruct (Build.getGalleryIndex w); simpl; discriminate.
Qed.

End Lookup.

(** ** lib/gallery/cover.ts: the walk over the children *)

Section ChildWalk.
Context {host : Host}.

Lemma resolveCoverRule3_walk (children : list GalleryNode) :
  Cover.resolveCoverRule3 children = firstYield mediaThenCover children.
Proof.
  induction children as [|c rest IH]; [reflexivity|].
  simpl. unfold mediaThenCover, firstMedia, nonEmpty.
  destruct (images c) as [[|img imgs]|]; simpl;
    destruct (truthy (webPath c)); simpl;
    destruct (coverWebPath c) as [cv|]; simpl;
    try destruct (truthy cv); simpl; auto.
Qed.

(** C2, as amended.  When no override applies and the directory does not
    hold exactly one media file, [resolveCover] walks the children in
    display order and stops at the first child that yields; a child
    yields its first media file, else its cover if non-empty.  In
    particular a first child without media and cover is passed over for
    a second child with media. *)
Theorem resolveCover_child_walk
    (fs : list entry) (absPath relParts dotDirs imagesHere : list jsstring)
    (webPath0 : jsstring) (children : list GalleryNode)
    (childDirs : list jsstring) :
  Cover.resolveCoverRule1 fs absPath relParts = None ->
  List.length imagesHere <> 1 ->
  Cover.resolveCover fs absPath relParts dotDirs imagesHere webPath0
    children childDirs
  = firstYield mediaThenCover children
  /\ (forall c1 c2 rest img,
        children = c1 :: c2 :: rest ->
        images c1 = None -> coverWebPath c1 = None ->
        images c2 = Some [img] -> truthy (webPath c2) = true ->
        Cover.resolveCover fs absPath relParts dotDirs imagesHere webPath0
          children childDirs
        = Some (webPath c2 ++ js "/" ++ img)).
Proof.
  intros H1 Hlen.
  assert (E : Cover.resolveCover fs absPath relParts dotDirs imagesHere webPath0
                children childDirs = firstYield mediaThenCover children).
  { unfold Cover.resolveCover. rewrite H1.
    destruct imagesHere as [|i [|j l]]; simpl in Hlen;
      try apply resolveCoverRule3_walk. congruence. }
  split; [exact E|].
  intros c1 c2 rest img -> Hi1 Hc1 Hi2 Hw2. rewrite E. simpl.
  unfold mediaThenCover, firstMedia, nonEmpty.
  rewrite Hi1, Hc1, Hi2, Hw2. reflexivity.
Qed.

End ChildWalk.

(** The scenario of the design document, on the children that the
    builder produces for [D]. *)
Lemma resolveCover_child_walk_witness :
  Build.buildNode (host := asciiHost) 3 fsScenario
    (js "/srv/site/public/Portfolio/D") [js "D"] 1
  = Some (mkNode (js "D") (js "D") (js "/srv/site/public/Portfolio/D")
            (js "/Portfolio/D") (Some (js "/Portfolio/D/C2/x.jpg")) None
            (Some [scenarioC1; scenarioC2]))
  /\ Cover.resolveCover (host := asciiHost) fsScenario [js "D"] [js "D"] [] []
       (js "/Portfolio/D") [scenarioC1; scenarioC2] [js "C1"; js "C2"]
     = Some (js "/Portfolio/D/C2/x.jpg").
Proof.
  split; [vm_compute; reflexivity|].
  assert (H1 : Cover.resolveCoverRule1 (host := asciiHost) fsScenario
                 [js "D"] [js "D"] = None) by (vm_compute; reflexivity).
  assert (H2 : List.length (@nil jsstring) <> 1) by (simpl; lia).
  apply (proj2 (@resolveCover_child_walk asciiHost fsScenario
                  [js "D"] [js "D"] [] [] (js "/Portfolio/D")
                  [scenarioC1; scenarioC2] [js "C1"; js "C2"] H1 H2)
               scenarioC1 scenarioC2 [] (js "x.jpg"));
    reflexivity.
Defined.

(** C2, as stated, fails: the child [C] has the media [a.jpg], [b.jpg]
    and the cover [b.jpg] (its override); the walk of the parent returns
    the first media file [a.jpg], where the claim has the child's cover. *)
Lemma resolveCover_child_walk_counterexample :
  exists c,
    Build.buildNode (host := asciiHost) 2 fsOverrideSecond
      (js "/srv/site/public/Portfolio") [] 0
    = Some (mkNode (js "Portfolio") (js "Portfolio")
              (js "/srv/site/public/Portfolio") (js "/Portfolio")
              (Some (js "/Portfolio/C/a.jpg")) None (Some [c]))
    /\ coverWebPath c = Some (js "/Portfolio/C/b.jpg")
    /\ images c = Some [js "a.jpg"; js "b.jpg"]
    /\ Cover.resolveCoverRule1 (host := asciiHost) fsOverrideSecond [] [] = None
    /\ Cover.resolveCover (host := asciiHost) fsOverrideSecond [] [] [] []
         (js "/Portfolio") [c] [js "C"]
       = Some (js "/Portfolio/C/a.jpg")
    /\ firstYield coverThenMedia [c] = Some (js "/Portfolio/C/b.jpg")
    /\ Cover.resolveCover (host := asciiHost) fsOverrideSecond [] [] [] []
         (js "/Portfolio") [c] [js "C"]
       <> firstYield coverThenMedia [c].
Proof.
  eexists. split; [vm_compute; reflexivity|].
  repeat split; try (vm_compute; reflexivity).
  vm_compute. discriminate.
Qed.

(** ** The collection on disk *)

Lemma lookup_Some (es : list entry) (n : jsstring) (e : entry) :
  lookup es n = Some e -> In e es /\ entryName e = n.
Proof.
  unfold lookup. intros H. apply find_some in H as [Hin He].
  apply str_eqb_eq in He. auto.
Qed.

Lemma lookup_NoDup (es : list entry) (e : entry) :
  NoDup (map entryName es) -> In e es -> lookup es (entryName e) = Some e.
Proof.
  unfold lookup. induction es as [|x es IH]; simpl; intros Hnd Hin; [easy|].
  inversion Hnd as [|? ? Hx Hnd']; subst.
  destruct Hin as [->|Hin].
  - now rewrite str_eqb_refl.
  - destruct (str_eqb (entryName x) (entryName e)) eqn:E.
    + apply str_eqb_eq in E. exfalso. apply Hx. rewrite E. now apply in_map.
    + auto.
Qed.

Lemma filter_map_comm {A B} (P : B -> bool) (f : A -> B) (l : list A) :
  filter P (map f l) = map f (filter (fun x => P (f x)) l).
Proof.
  induction l as [|a l IH]; simpl; [reflexivity|].
  destruct (P (f a)); simpl; now rewrite IH.
Qed.

Lemma statSync_listing (fs : list entry) (p : list jsstring) (es : list entry)
    (n : jsstring) :
  readdirSync fs p = Some es -> statSync fs p n = lookup es n.
Proof. unfold statSync. now intros ->. Qed.

Lemma readdirSync_app (fs : list entry) (p q : list jsstring) :
  readdirSync fs (p ++ q)
  = match readdirSync fs p with
    | Some es => readdirSync es q
    | None => None
    end.
Proof.
  revert fs. induction p as [|d p IH]; intros fs; simpl; [reflexivity|].
  destruct (lookup fs d) as [[|n sub]|]; auto.
Qed.

Lemma readdirSync_snoc (fs : list entry) (p : list jsstring) (d : jsstring) :
  readdirSync fs (p ++ [d])
  = match readdirSync fs p with
    | Some es => match lookup es d with
                 | Some (Dir _ sub) => Some sub
                 | _ => None
                 end
    | None => None
    end.
Proof.
  rewrite readdirSync_app. destruct (readdirSync fs p) as [es|]; [|reflexivity].
  simpl. destruct (lookup es d) as [[|n sub]|]; reflexivity.
Qed.

(** ** lib/gallery/build.ts: a leaf with one media file *)

Lemma applyOrder_nil (desired : list jsstring) : Order.applyOrder [] desired = [].
Proof.
  rewrite applyOrder_eq. simpl. rewrite app_nil_r.
  induction desired as [|d ds IH]; simpl; auto.
Qed.

Lemma filter_includes_single (f : jsstring) (desired : list jsstring) :
  filter (fun n => includes [f] n) desired = repeat f (count_occ str_dec desired f).
Proof.
  induction desired as [|d ds IH]; [reflexivity|].
  cbn [filter count_occ].
  replace (includes [f] d) with (str_eqb d f)
    by (unfold includes; simpl; now rewrite orb_false_r).
  destruct (str_dec d f) as [->|Hne].
  - rewrite str_eqb_refl. cbn [repeat]. now rewrite IH.
  - assert (E : str_eqb d f = false) by now apply str_eqb_neq.
    rewrite E. exact IH.
Qed.

Lemma applyOrder_single (f : jsstring) (desired : list jsstring) :
  exists k, Order.applyOrder [f] desired = f :: repeat f k
            /\ (count_occ str_dec desired f <= 1 -> k = 0).
Proof.
  rewrite applyOrder_eq, filter_includes_single. simpl.
  destruct (count_occ str_dec desired f) as [|c] eqn:Hc.
  - apply count_occ_not_In in Hc. apply includes_not_In in Hc. rewrite Hc.
    simpl. exists 0. auto.
  - assert (Hin : In f desired) by (apply (count_occ_In str_dec); lia).
    apply includes_In in Hin. rewrite Hin. simpl. rewrite app_nil_r.
    exists c. split; [reflexivity | lia].
Qed.

Lemma applyOrder_single_count (f : jsstring) (desired : list jsstring) :
  Order.applyOrder [f] desired
  = repeat f (Nat.max 1 (count_occ str_dec desired f)).
Proof.
  rewrite applyOrder_eq, filter_includes_single. simpl.
  destruct (count_occ str_dec desired f) as [|c] eqn:Hc.
  - apply count_occ_not_In in Hc. apply includes_not_In in Hc. rewrite Hc.
    reflexivity.
  - assert (Hin : In f desired) by (apply (count_occ_In str_dec); lia).
    apply includes_In in Hin. rewrite Hin. simpl. now rewrite app_nil_r.
Qed.

Section Leaf.
Context {host : Host}.

Lemma scan_listing (fs : list entry) (relParts : list jsstring) (es : list entry) :
  readdirSync fs relParts = Some es ->
  NoDup (map entryName es) ->
  Build.scan fs relParts
  = (filter (fun d => startsWith d (js "."))
            (map entryName (filter isDirectory es)),
     Order.applyOrder
       (filter (fun d => negb (startsWith d (js ".")))
               (map entryName (filter isDirectory es)))
       (Build.desiredFolders fs relParts),
     Order.applyOrder
       (filter Paths.isImageFile (map entryName (filter isFile es)))
       (Build.desiredImages fs relParts)).
Proof.
  intros Hes Hnd. unfold Build.scan, Paths.readDirSafe.
  rewrite Hes.
  assert (HF : filter (fun e => match statSync fs relParts e with
                                | Some (File _ _) => true
                                | _ => false
                                end) (map entryName es)
               = map entryName (filter isFile es)).
  { rewrite filter_map_comm. f_equal. apply filter_ext_in. intros e He.
    rewrite (statSync_listing _ _ _ _ Hes), (lookup_NoDup _ _ Hnd He).
    now destruct e. }
  assert (HD : filter (fun e => match statSync fs relParts e with
                                | Some (Dir _ _) => true
                                | _ => false
                                end) (map entryName es)
               = map entryName (filter isDirectory es)).
  { rewrite filter_map_comm. f_equal. apply filter_ext_in. intros e He.
    rewrite (statSync_listing _ _ _ _ Hes), (lookup_NoDup _ _ Hnd He).
    now destruct e. }
  rewrite HF, HD. reflexivity.
Qed.

Lemma buildNode_S (fuel : nat) (fs : list entry) (absPath : jsstring)
    (relParts : list jsstring) (siblings : nat) :
  Build.buildNode (S fuel) fs absPath relParts siblings
  = match mapM (fun d => Build.buildNode fuel fs (pathJoin [absPath; d])
                           (relParts ++ [d])
                           (List.length (snd (fst (Build.scan fs relParts)))))
               (snd (fst (Build.scan fs relParts))) with
    | None => None
    | Some children =>
        Some (Build.assemble fs absPath relParts
                (fst (fst (Build.scan fs relParts)))
                (snd (Build.scan fs relParts)) children)
    end.
Proof.
  cbn [Build.buildNode]. destruct (Build.scan fs relParts) as [[a b] c].
  reflexivity.
Qed.

Lemma resolveCoverRule1_no_file (fs : list entry) (absPath relParts : list jsstring) :
  readFileSync fs absPath (js ".cover") = None ->
  Cover.resolveCoverRule1 fs absPath relParts = None.
Proof.
  intros H. unfold Cover.resolveCoverRule1, Cover.readFirstLineIfExists.
  now rewrite H.
Qed.

(** C7, as amended.  A leaf directory (no child directory is traversed)
    that holds exactly one media file and has no cover override is built
    into a node without children whose cover is the address of that
    file; its media list is the one-element list of that file provided
    the order list in force names the file at most once, and in every
    case it holds the file as many times as the order list names it,
    and once when the list does not name it. *)
Theorem single_media_leaf
    (fuel : nat) (fs : list entry) (absPath : jsstring)
    (relParts : list jsstring) (siblings : nat)
    (es : list entry) (f : jsstring) :
  readdirSync fs relParts = Some es ->
  NoDup (map entryName es) ->
  (forall e, In e es -> isDirectory e = true ->
             startsWith (entryName e) (js ".") = true) ->
  filter Paths.isImageFile (map entryName (filter isFile es)) = [f] ->
  readFileSync fs relParts (js ".cover") = None ->
  exists node,
    Build.buildNode (S fuel) fs absPath relParts siblings = Some node
    /\ children node = None
    /\ webPath node = js "/" ++ joinWith (js "/") (js "Portfolio" :: relParts)
    /\ coverWebPath node = Some (webPath node ++ js "/" ++ f)
    /\ (count_occ str_dec (Build.desiredImages fs relParts) f <= 1 ->
        images node = Some [f])
    /\ images node
       = Some (repeat f
                 (Nat.max 1
                    (count_occ str_dec (Build.desiredImages fs relParts) f))).
Proof.
  intros Hes Hnd Hleaf Hone Hcover.
  assert (Hdirs : filter (fun d => negb (startsWith d (js ".")))
                    (map entryName (filter isDirectory es)) = []).
  { rewrite filter_map_comm.
    replace (filter (fun x => negb (startsWith (entryName x) (js ".")))
               (filter isDirectory es)) with (@nil entry); [reflexivity|].
    clear - Hleaf. induction es as [|e es IH]; [reflexivity|].
    simpl. destruct (isDirectory e) eqn:Hd.
    - simpl. rewrite (Hleaf e (or_introl eq_refl) Hd). simpl.
      apply IH. intros e' He'. apply Hleaf. now right.
    - apply IH. intros e' He'. apply Hleaf. now right. }
  destruct (applyOrder_single f (Build.desiredImages fs relParts))
    as [k [Hk Hk0]].
  pose proof (applyOrder_single_count f (Build.desiredImages fs relParts)) as Hn.
  rewrite Hk in Hn.
  rewrite buildNode_S, (scan_listing _ _ _ Hes Hnd).
  cbn [fst snd]. rewrite Hdirs, applyOrder_nil, Hone, Hk. cbn [mapM].
  eexists. split; [reflexivity|].
  unfold Build.assemble, Cover.resolveCover.
  rewrite (resolveCoverRule1_no_file _ _ _ Hcover).
  rewrite <- Hn.
  destruct k as [|k]; simpl; repeat split; auto.
  intros Hc. specialize (Hk0 Hc). discriminate.
Qed.

End Leaf.

(** A leaf with the single media file [x.jpg], and the same leaf with an
    [.order] that names the file twice. *)
Lemma single_media_leaf_witness :
  (exists node,
     Build.buildNode (host := asciiHost) 1 fsSingle
       (js "/srv/site/public/Portfolio/L") [js "L"] 1 = Some node
     /\ coverWebPath node = Some (js "/Portfolio/L/x.jpg")
     /\ images node = Some [js "x.jpg"])
  /\ (exists node,
        Build.buildNode (host := asciiHost) 1 fsRepeat
          (js "/srv/site/public/Portfolio/L") [js "L"] 1 = Some node
        /\ coverWebPath node = Some (js "/Portfolio/L/x.jpg")
        /\ images node = Some [js "x.jpg"; js "x.jpg"]).
Proof.
  split.
  - destruct (@single_media_leaf asciiHost 0 fsSingle
                (js "/srv/site/public/Portfolio/L") [js "L"] 1
                [File (js "x.jpg") []] (js "x.jpg"))
      as [node [Hnode [_ [Hweb [Hcover [Hone _]]]]]].
    + reflexivity.
    + repeat constructor; simpl; intuition.
    + intros e [<-|[]]; discriminate.
    + vm_compute; reflexivity.
    + reflexivity.
    + exists node. split; [exact Hnode|]. split.
      * rewrite Hcover, Hweb. reflexivity.
      * apply Hone. vm_compute. lia.
  - destruct (@single_media_leaf asciiHost 0 fsRepeat
                (js "/srv/site/public/Portfolio/L") [js "L"] 1
                [File (js "x.jpg") [];
                 File (js ".order") (js "x.jpg" ++ [10%N] ++ js "x.jpg")]
                (js "x.jpg"))
      as [node [Hnode [_ [Hweb [Hcover [_ Himages]]]]]].
    + reflexivity.
    + repeat constructor; simpl; intuition discriminate.
    + intros e [<-|[<-|[]]]; discriminate.
    + vm_compute; reflexivity.
    + reflexivity.
    + exists node. split; [exact Hnode|]. split.
      * rewrite Hcover, Hweb. reflexivity.
      * rewrite Himages. vm_compute. reflexivity.
Defined.

(** C7, as stated, fails: the leaf [L] holds the one media file [x.jpg]
    and no override, [.order] names the file twice, and the media list
    of the node has two elements. *)
Lemma single_media_leaf_counterexample :
  exists es node,
    readdirSync fsRepeat [js "L"] = Some es
    /\ filter (Paths.isImageFile (host := asciiHost))
         (map entryName (filter isFile es)) = [js "x.jpg"]
    /\ filter isDirectory es = []
    /\ readFileSync fsRepeat [js "L"] (js ".cover") = None
    /\ Build.buildNode (host := asciiHost) 1 fsRepeat
         (js "/srv/site/public/Portfolio/L") [js "L"] 1 = Some node
    /\ images node = Some [js "x.jpg"; js "x.jpg"]
    /\ images node <> Some [js "x.jpg"].
Proof.
  eexists. eexists.
  split; [reflexivity|]. split; [vm_compute; reflexivity|].
  split; [reflexivity|]. split; [reflexivity|].
  split; [vm_compute; reflexivity|].
  split; [reflexivity|]. discriminate.
Qed.

(** ** lib/gallery/cover.ts: an override file without a meaningful line *)

Lemma stripWeirdPrefix_idem (s : jsstring) :
  Cover.stripWeirdPrefix (Cover.stripWeirdPrefix s) = Cover.stripWeirdPrefix s.
Proof.
  induction s as [|c s IH]; [reflexivity|].
  simpl. destruct (N.eqb c 65279 || N.eqb c 8288 || N.eqb c 8203) eqn:E; [exact IH|].
  simpl. now rewrite E.
Qed.

Lemma splitLines_cons (s : jsstring) : exists l ls, splitLines s = l :: ls.
Proof.
  induction s as [|c s [l [ls IH]]]; [now exists [], []|].
  simpl. destruct (N.eqb c 10); [now eexists; eexists|].
  destruct (N.eqb c 13).
  - destruct s as [|d s']; [rewrite IH; now eexists; eexists|].
    destruct (N.eqb d 10); rewrite IH; now eexists; eexists.
  - rewrite IH. now eexists; eexists.
Qed.

(** Stripping the prefix of the whole text strips the prefix of its
    first line. *)
Lemma splitLines_stripWeirdPrefix (s : jsstring) :
  exists l ls,
    splitLines s = l :: ls
    /\ splitLines (Cover.stripWeirdPrefix s) = Cover.stripWeirdPrefix l :: ls.
Proof.
  induction s as [|c s IH]; [now exists [], []|].
  cbn [Cover.stripWeirdPrefix].
  destruct (N.eqb c 65279 || N.eqb c 8288 || N.eqb c 8203) eqn:E.
  - destruct IH as [l [ls [H1 H2]]].
    assert (Hc10 : N.eqb c 10 = false).
    { destruct (N.eqb_spec c 10) as [->|]; [discriminate E | reflexivity]. }
    assert (Hc13 : N.eqb c 13 = false).
    { destruct (N.eqb_spec c 13) as [->|]; [discriminate E | reflexivity]. }
    exists (c :: l), ls. cbn [splitLines]. rewrite Hc10, Hc13, H1.
    split; [reflexivity|]. cbn [Cover.stripWeirdPrefix]. now rewrite E.
  - assert (Hstrip : forall l', Cover.stripWeirdPrefix (c :: l') = c :: l').
    { intros l'. cbn [Cover.stripWeirdPrefix]. now rewrite E. }
    destruct (splitLines_cons s) as [l' [ls' H']].
    cbn [splitLines].
    destruct (N.eqb c 10); [exists [], (splitLines s); split; reflexivity|].
    destruct (N.eqb c 13).
    + destruct s as [|d s'].
      * rewrite H'. exists (c :: l'), ls'. now rewrite Hstrip.
      * destruct (N.eqb d 10) eqn:Hd.
        -- cbn [splitLines]. rewrite Hd.
           exists [], (splitLines s'). split; reflexivity.
        -- rewrite H'. exists (c :: l'), ls'. now rewrite Hstrip.
    + rewrite H'. exists (c :: l'), ls'. now rewrite Hstrip.
Qed.

Lemma meaningful_strip (l : jsstring) :
  Cover.meaningful (Cover.stripWeirdPrefix l) = Cover.meaningful l.
Proof. unfold Cover.meaningful. now rewrite stripWeirdPrefix_idem. Qed.

Lemma blankOrComment_not_meaningful (l : jsstring) :
  blankOrComment l -> Cover.meaningful l = false.
Proof.
  unfold blankOrComment, Cover.meaningful. intros [-> | ->]; [reflexivity|].
  simpl. apply andb_false_r.
Qed.

Lemma find_none_Forall {A} (P : A -> bool) (l : list A) :
  Forall (fun x => P x = false) l -> find P l = None.
Proof.
  induction 1 as [|x l Hx _ IH]; simpl; [reflexivity|]. now rewrite Hx.
Qed.

Lemma readFirstLine_comments_only (fs : list entry) (absPath : list jsstring)
    (file txt : jsstring) :
  readFileSync fs absPath file = Some txt ->
  Forall blankOrComment (splitLines txt) ->
  Cover.readFirstLineIfExists fs absPath file = None.
Proof.
  intros Hread Hall. unfold Cover.readFirstLineIfExists. rewrite Hread.
  destruct (splitLines_stripWeirdPrefix txt) as [l [ls [H1 H2]]].
  rewrite H2, H1 in *. inversion Hall as [|? ? Hl Hls]; subst.
  rewrite find_none_Forall; [reflexivity|].
  constructor.
  - rewrite meaningful_strip. now apply blankOrComment_not_meaningful.
  - eapply Forall_impl; [|exact Hls]. apply blankOrComment_not_meaningful.
Qed.

Section CommentOnly.
Context {host : Host}.

(** Cover resolution on an override file in which every line is blank
    or a comment, once its leading zero-width characters are stripped
    and it is trimmed, gives the result of cover resolution without an
    override file: both proceed to the later tiers. *)
Theorem comment_only_cover_is_no_cover
    (fs fs' : list entry) (absPath relParts dotDirs imagesHere : list jsstring)
    (webPath0 : jsstring) (children : list GalleryNode)
    (childDirs : list jsstring) (txt : jsstring) :
  readFileSync fs absPath (js ".cover") = Some txt ->
  Forall blankOrComment (splitLines txt) ->
  readFileSync fs' absPath (js ".cover") = None ->
  Cover.resolveCover fs absPath relParts dotDirs imagesHere webPath0
    children childDirs
  = Cover.resolveCover fs' absPath relParts dotDirs imagesHere webPath0
      children childDirs
  /\ Cover.resolveCover fs absPath relParts dotDirs imagesHere webPath0
       children childDirs
     = match imagesHere with
       | [only] => Some (webPath0 ++ js "/" ++ only)
       | _ => Cover.resolveCoverRule3 children
       end.
Proof.
  intros Hread Hall Hnone. unfold Cover.resolveCover, Cover.resolveCoverRule1.
  rewrite (readFirstLine_comments_only _ _ _ _ Hread Hall).
  unfold Cover.readFirstLineIfExists. rewrite Hnone. split; reflexivity.
Qed.

End CommentOnly.

(** C8 fails.  An override file of comments and blank lines behaves as
    no override file as long as every line is blank or a comment once
    its leading zero-width characters are stripped and it is trimmed, in
    this order.  The [.cover] of [fsInvisibleCover] holds a space and a
    zero-width space: a blank line, yet [readFirstLineIfExists] returns
    the zero-width space, [resolveCover] reads it as an override naming
    the directory itself and answers with the first media file in the
    order of the listing, and the node gets the cover [a.jpg] where it
    has [b.jpg] without the file.  [readCoverOverrideWebPath] takes the
    same file for no override, and so does the generator, whose
    manifest has the cover [b.jpg]. *)
Theorem invisible_cover_line_is_an_override :
  Cover.resolveCover (host := asciiHost) fsCommentCover [js "L"] [js "L"] []
    [js "a.jpg"; js "b.jpg"] (js "/Portfolio/L") [] []
  = Cover.resolveCover (host := asciiHost) fsNoCover [js "L"] [js "L"] []
      [js "a.jpg"; js "b.jpg"] (js "/Portfolio/L") [] []
  /\ Build.buildNode (host := asciiHost) 1 fsCommentCover
       (js "/srv/site/public/Portfolio/L") [js "L"] 1
     = Build.buildNode (host := asciiHost) 1 fsNoCover
         (js "/srv/site/public/Portfolio/L") [js "L"] 1
  /\ readFileSync fsInvisibleCover [js "L"] (js ".cover") = Some [32%N; 8203%N]
  /\ readFileSync fsInvisibleCoverAbsent [js "L"] (js ".cover") = None
  /\ Forall (fun l => blankLine l = true) (splitLines [32%N; 8203%N])
  /\ Cover.readFirstLineIfExists fsInvisibleCover [js "L"] (js ".cover")
     = Some [8203%N]
  /\ Cover.resolveCover (host := asciiHost) fsInvisibleCover [js "L"] [js "L"] []
       [js "b.jpg"; js "a.jpg"] (js "/Portfolio/L") [] []
     = Some (js "/Portfolio/L/a.jpg")
  /\ Cover.resolveCover (host := asciiHost) fsInvisibleCoverAbsent [js "L"]
       [js "L"] [] [js "b.jpg"; js "a.jpg"] (js "/Portfolio/L") [] []
     = None
  /\ Cover.readCoverOverrideWebPath (host := asciiHost) fsInvisibleCover
       [js "L"] [js "L"]
     = None
  /\ (exists manifest st c,
        Generator.generate (host := asciiHost) fsInvisibleCover
        = (Finished manifest, st)
        /\ raw_children manifest = Some [c]
        /\ raw_webPath c = Some (js "/Portfolio/L")
        /\ raw_coverWebPath c = Some (js "/Portfolio/L/b.jpg"))
  /\ exists n n',
       Build.buildNode (host := asciiHost) 1 fsInvisibleCover
         (js "/srv/site/public/Portfolio/L") [js "L"] 1 = Some n
       /\ Build.buildNode (host := asciiHost) 1 fsInvisibleCoverAbsent
            (js "/srv/site/public/Portfolio/L") [js "L"] 1 = Some n'
       /\ images n = Some [js "b.jpg"; js "a.jpg"]
       /\ images n' = Some [js "b.jpg"; js "a.jpg"]
       /\ coverWebPath n = Some (js "/Portfolio/L/a.jpg")
       /\ coverWebPath n' = Some (js "/Portfolio/L/b.jpg")
       /\ coverWebPath n <> coverWebPath n'.
Proof.
  split.
  { refine (proj1 (@comment_only_cover_is_no_cover asciiHost fsCommentCover
                     fsNoCover [js "L"] [js "L"] [] [js "a.jpg"; js "b.jpg"]
                     (js "/Portfolio/L") [] [] _ eq_refl _ eq_refl)).
    vm_compute.
    repeat (apply Forall_cons || apply Forall_nil);
      solve [left; reflexivity | right; reflexivity]. }
  split; [vm_compute; reflexivity|].
  split; [reflexivity|]. split; [reflexivity|].
  split; [repeat constructor|].
  split; [vm_compute; reflexivity|].
  split; [vm_compute; reflexivity|].
  split; [vm_compute; reflexivity|].
  split; [vm_compute; reflexivity|].
  split.
  { do 3 eexists. split; [vm_compute; reflexivity|].
    repeat split; reflexivity. }
  do 2 eexists.
  split; [vm_compute; reflexivity|].
  split; [vm_compute; reflexivity|].
  repeat (split; [reflexivity|]). discriminate.
Qed.

(** ** lib/gallery/build.ts: parents expose no media *)

Lemma nodesOf_eq (n : GalleryNode) :
  nodesOf n = n :: match children n with
                   | Some cs => flat_map nodesOf cs
                   | None => []
                   end.
Proof. destruct n; reflexivity. Qed.

Section ParentInvariant.
Context {host : Host}.

Lemma maybeLimit_In {T} (items : list T) (x : T) :
  In x (DevLimit.maybeLimit items) -> In x items.
Proof.
  unfold DevLimit.maybeLimit.
  destruct (negb DevLimit.isDevRuntime); [auto|].
  destruct devGalleryLimit as [k|]; [|auto].
  intros H. rewrite <- (firstn_skipn k items). apply in_or_app. now left.
Qed.

Lemma assemble_parentHidesMedia (fs : list entry) (absPath : jsstring)
    (relParts dotDirs imagesHere : list jsstring) (cs : list GalleryNode) :
  parentHidesMedia (Build.assemble fs absPath relParts dotDirs imagesHere cs).
Proof.
  unfold parentHidesMedia, Build.assemble.
  destruct cs as [|c cs]; [|intros _; reflexivity].
  destruct imagesHere as [|i [|j l]]; intros H; exfalso; apply H; reflexivity.
Qed.

Lemma assemble_children_In (fs : list entry) (absPath : jsstring)
    (relParts dotDirs imagesHere : list jsstring) (cs l : list GalleryNode)
    (x : GalleryNode) :
  children (Build.assemble fs absPath relParts dotDirs imagesHere cs) = Some l ->
  In x l -> In x cs.
Proof.
  unfold Build.assemble. destruct cs as [|c cs].
  - destruct imagesHere as [|i [|j l']]; discriminate.
  - set (root := Nat.eqb (List.length relParts) 0).
    cbn [children List.length Nat.eqb]. intros [= <-]. subst root.
  destruct (Nat.eqb (List.length relParts) 0); [apply maybeLimit_In | auto].
Qed.

(** The live scan: at every depth, a node with children has no media
    list. *)
Lemma buildNode_parentHidesMedia (fuel : nat) :
  forall (fs : list entry) (absPath : jsstring) (relParts : list jsstring)
         (siblings : nat) (node : GalleryNode),
    Build.buildNode fuel fs absPath relParts siblings = Some node ->
    Forall parentHidesMedia (nodesOf node).
Proof.
  induction fuel as [|fuel IH]; intros fs absPath relParts siblings node;
    [discriminate|].
  rewrite buildNode_S.
  destruct (mapM _ _) as [cs|] eqn:Hcs; [|discriminate].
  intros [= <-].
  assert (Hall : Forall (fun c => Forall parentHidesMedia (nodesOf c)) cs).
  { eapply mapM_Forall; [|exact Hcs]. intros d c _ Hc. eapply IH, Hc. }
  rewrite nodesOf_eq. constructor; [apply assemble_parentHidesMedia|].
  destruct (children (Build.assemble _ _ _ _ _ cs)) as [l|] eqn:Hl; [|constructor].
  apply Forall_forall. intros n Hn. apply in_flat_map in Hn as [c [Hc Hn]].
  rewrite Forall_forall in Hall.
  specialize (Hall c (assemble_children_In _ _ _ _ _ _ _ _ Hl Hc)).
  rewrite Forall_forall in Hall. auto.
Qed.

End ParentInvariant.

(** C4 fails on the snapshot.  The generator leaves the media of [A],
    less the cover file, in the manifest although [A] has the child [S];
    [normalizeManifest] keeps them, so the normalized node has children
    and a media list.  The live scan of the same collection has none. *)
Theorem normalizeManifest_parent_exposes_media :
  exists manifest st n live,
    Generator.generate (host := asciiHost) fsMixed = (Finished manifest, st)
    /\ In n (nodesOf (Build.normalizeManifest (host := asciiHost) manifest))
    /\ webPath n = js "/Portfolio/A"
    /\ (exists c, children n = Some [c] /\ webPath c = js "/Portfolio/A/S")
    /\ images n = Some [js "b.jpg"]
    /\ ~ parentHidesMedia n
    /\ Build.getGalleryIndex (host := asciiHost) (liveWorld fsMixed) = Ok live
    /\ Forall parentHidesMedia (nodesOf live).
Proof.
  eexists. eexists. eexists. eexists.
  split; [vm_compute; reflexivity|].
  split; [right; left; reflexivity|].
  split; [reflexivity|].
  split; [eexists; split; reflexivity|].
  split; [reflexivity|].
  split; [intros H; discriminate H; discriminate|].
  split; [vm_compute; reflexivity|].
  eapply (@buildNode_parentHidesMedia asciiHost 3 fsMixed
            (js "/srv/site/public/Portfolio") [] 0).
  vm_compute. reflexivity.
Qed.

(** C1 fails.  [A] has no media of its own and the child [B] with one
    media file.  The live scan gives [A] (and the root) the cover
    [/Portfolio/A/B/x.jpg] by the walk over the children; the generator
    never consults the children, the manifest has no cover for [A], and
    normalization keeps it absent. *)
Theorem live_and_snapshot_differ :
  exists manifest st live snap a a',
    Generator.generate (host := asciiHost) fsNested = (Finished manifest, st)
    /\ Build.getGalleryIndex (host := asciiHost) (liveWorld fsNested) = Ok live
    /\ Build.getGalleryIndex (host := asciiHost)
         (snapshotWorld (disk st) manifest) = Ok snap
    /\ children live = Some [a] /\ children snap = Some [a']
    /\ webPath a = js "/Portfolio/A" /\ webPath a' = js "/Portfolio/A"
    /\ coverWebPath a = Some (js "/Portfolio/A/B/x.jpg")
    /\ coverWebPath a' = None
    /\ coverWebPath live = Some (js "/Portfolio/A/B/x.jpg")
    /\ coverWebPath snap = None
    /\ map showcase (nodesOf live) <> map showcase (nodesOf snap).
Proof.
  do 6 eexists.
  split; [vm_compute; reflexivity|].
  split; [vm_compute; reflexivity|].
  split; [vm_compute; reflexivity|].
  repeat (split; [reflexivity|]).
  vm_compute. discriminate.
Qed.

(** ** lib/gallery/build.ts: the live scan returns *)

Lemma In_le_list_max (l : list nat) (x : nat) : In x l -> x <= list_max l.
Proof.
  intros H. assert (Hall : Forall (fun k => k <= list_max l) l)
    by (apply list_max_le; lia).
  rewrite Forall_forall in Hall. auto.
Qed.

Lemma height_sub (es : list entry) (n : jsstring) (sub : list entry) :
  In (Dir n sub) es -> height sub < height es.
Proof.
  intros H. unfold height at 2.
  apply (in_map entryHeight) in H. apply In_le_list_max in H.
  simpl in H. fold (height sub) in H. lia.
Qed.

(** Height of the directory at a path; 0 when there is none. *)
Lemma readdirSync_child_height (fs : list entry) (p : list jsstring)
    (d n : jsstring) (sub : list entry) :
  statSync fs p d = Some (Dir n sub) ->
  exists es, readdirSync fs p = Some es
             /\ readdirSync fs (p ++ [d]) = Some sub
             /\ height sub < height es.
Proof.
  unfold statSync. rewrite readdirSync_snoc.
  destruct (readdirSync fs p) as [es|]; [|discriminate].
  intros H. exists es. rewrite H. repeat split.
  apply lookup_Some in H as [Hin _]. eapply height_sub, Hin.
Qed.

Section LiveScan.
Context {host : Host}.

Lemma scan_normalDirs_In (fs : list entry) (relParts : list jsstring) (d : jsstring) :
  In d (snd (fst (Build.scan fs relParts))) ->
  exists n sub, statSync fs relParts d = Some (Dir n sub).
Proof.
  unfold Build.scan. cbn [fst snd]. intros H.
  apply In_applyOrder in H. apply filter_In in H as [H _].
  apply filter_In in H as [_ H].
  destruct (statSync fs relParts d) as [[|n sub]|]; try discriminate.
  now exists n, sub.
Qed.

Lemma buildNode_total (fuel : nat) :
  forall (fs : list entry) (absPath : jsstring) (relParts : list jsstring)
         (siblings : nat) (es : list entry),
    readdirSync fs relParts = Some es ->
    height es < fuel ->
    exists node, Build.buildNode fuel fs absPath relParts siblings = Some node.
Proof.
  induction fuel as [|fuel IH]; intros fs absPath relParts siblings es Hes Hh;
    [lia|].
  rewrite buildNode_S.
  destruct (mapM_total
              (fun d => Build.buildNode fuel fs (pathJoin [absPath; d])
                          (relParts ++ [d])
                          (List.length (snd (fst (Build.scan fs relParts)))))
              (snd (fst (Build.scan fs relParts)))) as [cs Hcs].
  - intros d Hd. apply scan_normalDirs_In in Hd as [n [sub Hd]].
    apply readdirSync_child_height in Hd as [es' [Hes' [Hsub Hlt]]].
    rewrite Hes in Hes'. injection Hes' as <-.
    eapply IH; [exact Hsub | lia].
  - rewrite Hcs. eexists. reflexivity.
Qed.

(** With the manifest switched off, the index is always produced. *)
Lemma getGalleryIndex_live (w : Build.World) :
  opt_is (Build.env_GALLERY_USE_MANIFEST w) (js "true") = false ->
  exists index, Build.getGalleryIndex w = Ok index.
Proof.
  intros H. unfold Build.getGalleryIndex. rewrite H.
  destruct (Build.portfolio w) as [fs|]; [|eexists; reflexivity].
  destruct (buildNode_total (S (height fs)) fs Build.ROOT [] 0 fs eq_refl
              (Nat.lt_succ_diag_r _)) as [node Hnode].
  rewrite Hnode. now exists node.
Qed.

End LiveScan.

(** The index of the live scan of [fsScenario], looked up with no
    segment. *)
Lemma getNodeBySlug_empty_witness :
  exists index,
    Build.getGalleryIndex (host := asciiHost) (liveWorld fsScenario) = Ok index
    /\ Build.getNodeBySlug (host := asciiHost) (liveWorld fsScenario) []
       = Ok (Some index)
    /\ webPath index = js "/Portfolio".
Proof.
  eexists. split; [vm_compute; reflexivity|].
  split; [|reflexivity].
  apply (proj1 (@getNodeBySlug_empty asciiHost (liveWorld fsScenario))).
  vm_compute. reflexivity.
Defined.

(** ** lib/gallery/cover.ts: the search of the subtree *)

Lemma length_insertBy {A} (le : A -> A -> bool) (x : A) (l : list A) :
  List.length (insertBy le x l) = S (List.length l).
Proof.
  induction l as [|y l IH]; simpl; [reflexivity|].
  destruct (le x y); simpl; auto.
Qed.

Lemma length_sortBy {A} (le : A -> A -> bool) (l : list A) :
  List.length (sortBy le l) = List.length l.
Proof.
  induction l as [|x l IH]; simpl; [reflexivity|].
  now rewrite length_insertBy, IH.
Qed.

Lemma Permutation_insertBy {A} (le : A -> A -> bool) (x : A) (l : list A) :
  Permutation (x :: l) (insertBy le x l).
Proof.
  induction l as [|y l IH]; simpl; [reflexivity|].
  destruct (le x y); [reflexivity|].
  rewrite perm_swap. now constructor.
Qed.

Lemma Permutation_sortBy {A} (le : A -> A -> bool) (l : list A) :
  Permutation l (sortBy le l).
Proof.
  induction l as [|x l IH]; simpl; [reflexivity|].
  rewrite <- Permutation_insertBy. now constructor.
Qed.

Lemma In_sortBy {A} (le : A -> A -> bool) (l : list A) (x : A) :
  In x (sortBy le l) <-> In x l.
Proof.
  split; apply Permutation_in;
    [symmetry|]; apply Permutation_sortBy.
Qed.

(** For a total and transitive comparator the result is in order. *)
Lemma insertBy_sorted {A} (le : A -> A -> bool) (x : A) (l : list A) :
  (forall a b, le a b = true \/ le b a = true) ->
  (forall a b c, le a b = true -> le b c = true -> le a c = true) ->
  StronglySorted (fun a b => le a b = true) l ->
  StronglySorted (fun a b => le a b = true) (insertBy le x l).
Proof.
  intros Htot Htr. induction l as [|y l IH]; intros Hs; simpl.
  - constructor; constructor.
  - inversion Hs as [|? ? Hl Hy]; subst.
    destruct (le x y) eqn:E.
    + constructor; [exact Hs|]. constructor; [exact E|].
      eapply Forall_impl; [|exact Hy]. intros z Hz. eapply Htr; eauto.
    + constructor; [now apply IH|].
      apply Forall_forall. intros z Hz.
      apply (Permutation_in z (Permutation_sym (Permutation_insertBy le x l)))
        in Hz.
      destruct Hz as [<-|Hz].
      * destruct (Htot x y); congruence.
      * rewrite Forall_forall in Hy. auto.
Qed.

Lemma sortBy_sorted {A} (le : A -> A -> bool) (l : list A) :
  (forall a b, le a b = true \/ le b a = true) ->
  (forall a b c, le a b = true -> le b c = true -> le a c = true) ->
  StronglySorted (fun a b => le a b = true) (sortBy le l).
Proof.
  intros Htot Htr. induction l as [|x l IH]; simpl; [constructor|].
  now apply insertBy_sorted.
Qed.

Lemma In_le_list_sum (l : list nat) (x : nat) : In x l -> x <= list_sum l.
Proof.
  induction l as [|y l IH]; simpl; [easy|].
  intros [->|H]; [lia|]. specialize (IH H). lia.
Qed.

Lemma list_sum_map_bound {A} (f : A -> nat) (l : list A) (b : nat) :
  (forall x, In x l -> f x <= b) ->
  list_sum (map f l) <= List.length l * b.
Proof.
  induction l as [|x l IH]; simpl; intros H; [lia|].
  assert (f x <= b) by (apply H; now left).
  assert (list_sum (map f l) <= List.length l * b)
    by (apply IH; intros; apply H; now right).
  lia.
Qed.

Section Search.
Context {host : Host}.
Variable le : jsstring -> jsstring -> bool.
Variable fs : list entry.

Lemma length_subdirNames (es : list entry) :
  List.length (Cover.subdirNames le es) <= List.length es.
Proof.
  unfold Cover.subdirNames. rewrite length_sortBy, length_map.
  apply filter_length_le.
Qed.

Lemma queueWeight_child (p : list jsstring) (es : list entry) (d : jsstring) :
  readdirSync fs p = Some es ->
  Cover.queueWeight fs (p ++ [d]) <= S (list_sum (map Cover.entryVisits es)).
Proof.
  intros Hes. unfold Cover.queueWeight. rewrite readdirSync_snoc, Hes.
  destruct (lookup es d) as [[n c|n sub]|] eqn:Hl; try lia.
  apply lookup_Some in Hl as [Hin _].
  apply (in_map Cover.entryVisits) in Hin. apply In_le_list_sum in Hin.
  simpl in Hin. unfold Cover.visits. lia.
Qed.

Lemma subdirsOf_weight (p : list jsstring) (es : list entry) :
  readdirSync fs p = Some es ->
  queueFuel fs (subdirsOf le fs p) < Cover.queueWeight fs p.
Proof.
  intros Hes.
  replace (Cover.queueWeight fs p) with (Cover.visits es)
    by (unfold Cover.queueWeight; now rewrite Hes).
  unfold queueFuel, subdirsOf. rewrite Hes, map_map.
  pose proof (list_sum_map_bound
                (fun d => Cover.queueWeight fs (p ++ [d]))
                (Cover.subdirNames le es)
                (S (list_sum (map Cover.entryVisits es)))
                (fun d _ => queueWeight_child p es d Hes)) as H.
  pose proof (length_subdirNames es) as Hlen.
  apply (Nat.mul_le_mono_r _ _ (S (list_sum (map Cover.entryVisits es)))) in Hlen.
  unfold Cover.visits. lia.
Qed.

Lemma queueFuel_app (a b : list (list jsstring)) : queueFuel fs (a ++ b) = queueFuel fs a + queueFuel fs b.
Proof. unfold queueFuel. now rewrite map_app, list_sum_app. Qed.

Lemma queueWeight_pos (p : list jsstring) : 1 <= Cover.queueWeight fs p.
Proof.
  unfold Cover.queueWeight, Cover.visits.
  destruct (readdirSync fs p); lia.
Qed.

(** One turn of the loop, in terms of [hitIn] and [subdirsOf]. *)
Lemma bfsLoop_S (fuel : nat) (target : jsstring) (p : list jsstring)
    (q : list (list jsstring)) :
  Cover.bfsLoop le (S fuel) fs target (toLowerCase target) (p :: q)
  = match hitIn le fs target p with
    | Some r => Some (Some r)
    | None =>
        Cover.bfsLoop le fuel fs target (toLowerCase target)
          (q ++ subdirsOf le fs p)
    end.
Proof.
  cbn [Cover.bfsLoop]. unfold hitIn, subdirsOf.
  destruct (readdirSync fs p) as [es|]; [|now rewrite app_nil_r].
  destruct (Cover.matchFile _ _ _); reflexivity.
Qed.

(** Enough fuel: the result does not depend on it, and the loop ends. *)
Lemma bfsLoop_fuel (n : nat) :
  forall (target : jsstring) (q : list (list jsstring)) (f1 f2 : nat),
    queueFuel fs q <= n -> n <= f1 -> n <= f2 ->
    Cover.bfsLoop le f1 fs target (toLowerCase target) q
    = Cover.bfsLoop le f2 fs target (toLowerCase target) q
    /\ Cover.bfsLoop le f1 fs target (toLowerCase target) q <> None.
Proof.
  induction n as [|n IH]; intros target q f1 f2 Hq H1 H2.
  - destruct q as [|p q]; [destruct f1, f2; simpl; split; congruence|].
    pose proof (queueWeight_pos p). unfold queueFuel in Hq. simpl in Hq. lia.
  - destruct q as [|p q]; [destruct f1, f2; simpl; split; congruence|].
    destruct f1 as [|f1]; [lia|]. destruct f2 as [|f2]; [lia|].
    rewrite !bfsLoop_S.
    destruct (hitIn le fs target p) as [r|] eqn:Hhit; [split; congruence|].
    apply IH; try lia.
    rewrite queueFuel_app. unfold queueFuel in Hq. simpl in Hq. fold (queueFuel fs q) in Hq.
    unfold hitIn in Hhit. unfold subdirsOf at 1.
    destruct (readdirSync fs p) as [es|] eqn:Hes.
    + pose proof (subdirsOf_weight p es Hes) as Hw.
      unfold subdirsOf in Hw. rewrite Hes in Hw. lia.
    + pose proof (queueWeight_pos p). unfold queueFuel at 2. simpl. lia.
Qed.

Lemma bfsLoop_bfsRun (target : jsstring) (q : list (list jsstring)) (fuel : nat) :
  queueFuel fs q <= fuel ->
  Cover.bfsLoop le fuel fs target (toLowerCase target) q = bfsRun le fs target q.
Proof.
  intros H. unfold bfsRun.
  apply (bfsLoop_fuel (queueFuel fs q)); auto.
Qed.

Lemma bfsRun_nil (target : jsstring) : bfsRun le fs target [] = Some None.
Proof. reflexivity. Qed.

Lemma bfsRun_cons (target : jsstring) (p : list jsstring) (q : list (list jsstring)) :
  bfsRun le fs target (p :: q)
  = match hitIn le fs target p with
    | Some r => Some (Some r)
    | None => bfsRun le fs target (q ++ subdirsOf le fs p)
    end.
Proof.
  unfold bfsRun at 1.
  pose proof (queueWeight_pos p) as Hpos.
  destruct (queueFuel fs (p :: q)) as [|f] eqn:Hf;
    [unfold queueFuel in Hf; simpl in Hf; lia|].
  rewrite bfsLoop_S.
  destruct (hitIn le fs target p) as [r|] eqn:Hhit; [reflexivity|].
  apply bfsLoop_bfsRun.
  rewrite queueFuel_app. unfold queueFuel in Hf. simpl in Hf. fold (queueFuel fs q) in Hf.
  unfold subdirsOf at 1.
  destruct (readdirSync fs p) as [es|] eqn:Hes.
  - pose proof (subdirsOf_weight p es Hes) as Hw.
    unfold subdirsOf in Hw. rewrite Hes in Hw. lia.
  - unfold queueFuel at 2. simpl. lia.
Qed.

Lemma firstHit_app (target : jsstring) (a b : list (list jsstring)) :
  firstHit le fs target (a ++ b)
  = orElse (firstHit le fs target a) (firstHit le fs target b).
Proof.
  induction a as [|p a IH]; simpl; [reflexivity|].
  rewrite IH. now destruct (hitIn le fs target p).
Qed.

(** The queue while a level is being served: what is left of the level,
    then the sub-directories of what has been served. *)
Lemma bfsRun_level (target : jsstring) (q : list (list jsstring)) :
  forall pre : list (list jsstring),
    bfsRun le fs target (q ++ flat_map (subdirsOf le fs) pre)
    = match firstHit le fs target q with
      | Some r => Some (Some r)
      | None => bfsRun le fs target (flat_map (subdirsOf le fs) (pre ++ q))
      end.
Proof.
  induction q as [|p q IH]; intros pre.
  - cbn [app firstHit]. now rewrite app_nil_r.
  - cbn [app firstHit]. rewrite bfsRun_cons.
    destruct (hitIn le fs target p) as [r|]; [reflexivity|].
    cbn [orElse].
    replace ((q ++ flat_map (subdirsOf le fs) pre) ++ subdirsOf le fs p)
      with (q ++ flat_map (subdirsOf le fs) (pre ++ [p])).
    + rewrite IH. now rewrite <- app_assoc.
    + rewrite flat_map_app. cbn [flat_map]. now rewrite app_nil_r, app_assoc.
Qed.

Lemma depthBelow_child (p : list jsstring) (p' : list jsstring) :
  In p' (subdirsOf le fs p) -> depthBelow fs p' < depthBelow fs p.
Proof.
  unfold subdirsOf, depthBelow.
  destruct (readdirSync fs p) as [es|] eqn:Hes; [|easy].
  intros H. apply in_map_iff in H as [d [<- _]].
  rewrite readdirSync_snoc, Hes.
  destruct (lookup es d) as [[n c|n sub]|] eqn:Hl; try lia.
  apply lookup_Some in Hl as [Hin _]. apply height_sub in Hin. lia.
Qed.

(** The loop serves the levels one after the other. *)
Lemma bfsRun_levels (target : jsstring) (k : nat) :
  forall q : list (list jsstring),
    (forall p, In p q -> depthBelow fs p < k) ->
    bfsRun le fs target q = Some (firstHit le fs target (levelsFrom le fs k q)).
Proof.
  induction k as [|k IH]; intros q Hq.
  - destruct q as [|p q]; [reflexivity|].
    specialize (Hq p (or_introl eq_refl)). lia.
  - cbn [levelsFrom]. rewrite firstHit_app.
    pose proof (bfsRun_level target q []) as H.
    cbn [flat_map app] in H. rewrite app_nil_r in H. rewrite H.
    destruct (firstHit le fs target q) as [r|]; [reflexivity|].
    cbn [orElse]. apply IH.
    intros p' Hp'. apply in_flat_map in Hp' as [p [Hp Hp']].
    apply depthBelow_child in Hp'. specialize (Hq p Hp). lia.
Qed.

(** The search of the source is the search level by level. *)
Lemma bfsFrom_levelOrder (startSlugParts : list jsstring) (target : jsstring) :
  Cover.bfsFrom le fs startSlugParts target
  = match Cover.correctCaseUnderPortfolio fs startSlugParts with
    | Some start => levelOrderSearch le fs start target
    | None => None
    end.
Proof.
  unfold Cover.bfsFrom, levelOrderSearch.
  destruct (Cover.correctCaseUnderPortfolio fs startSlugParts) as [s|];
    [|reflexivity].
  rewrite bfsLoop_bfsRun by (unfold queueFuel; simpl; lia).
  rewrite (bfsRun_levels target (S (depthBelow fs s))); [reflexivity|].
  intros p [<-|[]]. lia.
Qed.

End Search.

Lemma lookup_In_name (es : list entry) (m : entry) :
  In m es -> exists e, lookup es (entryName m) = Some e.
Proof.
  intros H. unfold lookup.
  destruct (find (fun e => str_eqb (entryName e) (entryName m)) es) as [e|] eqn:E;
    [now exists e|].
  pose proof (find_none _ _ E m H) as Hn. simpl in Hn.
  now rewrite str_eqb_refl in Hn.
Qed.

Lemma statSync_In (fs : list entry) (p : list jsstring) (es : list entry)
    (m : entry) :
  readdirSync fs p = Some es -> In m es ->
  exists e, statSync fs p (entryName m) = Some e.
Proof.
  intros Hes Hin. unfold statSync. rewrite Hes. now apply lookup_In_name.
Qed.

Section Inside.
Context {host : Host}.

Lemma correctCaseLoop_sound (fs : list entry) (parts : list jsstring) :
  forall (dir corrected c : list jsstring),
    parts <> [] ->
    Cover.correctCaseLoop fs dir corrected parts = Some c ->
    exists d' f e,
      c = corrected ++ d' ++ [f] /\ statSync fs (dir ++ d') f = Some e.
Proof.
  induction parts as [|seg rest IH]; intros dir corrected c Hne; [congruence|].
  cbn [Cover.correctCaseLoop].
  destruct (readdirSync fs dir) as [entries|] eqn:Hes; [|discriminate].
  destruct (orElse _ _) as [m|] eqn:Hm; [|discriminate].
  assert (Hin : In m entries).
  { unfold orElse in Hm.
    destruct (find (fun e => str_eqb (entryName e) seg) entries) eqn:E1.
    - injection Hm as <-. now apply find_some in E1.
    - now apply find_some in Hm. }
  destruct rest as [|r rest].
  - intros [= <-]. destruct (statSync_In fs dir entries m Hes Hin) as [e He].
    exists [], (entryName m), e. now rewrite app_nil_r.
  - destruct (isDirectory m); [|discriminate].
    intros H. apply IH in H as [d' [f [e [-> He]]]]; [|discriminate].
    exists (entryName m :: d'), f, e. split.
    + now rewrite <- app_assoc.
    + now rewrite <- app_assoc in He.
Qed.

Lemma correctCase_inside (fs : list entry) (parts c : list jsstring) :
  parts <> [] ->
  Cover.correctCaseUnderPortfolio fs parts = Some c ->
  insideCollection fs (Cover.slugToWebPath c).
Proof.
  intros Hne H. apply correctCaseLoop_sound in H as [d' [f [e [-> He]]]]; auto.
  now exists d', f, e.
Qed.

Lemma matchFile_In (files : list jsstring) (target wanted f : jsstring) :
  Cover.matchFile files target wanted = Some f ->
  In f files /\ (f = target \/ toLowerCase f = wanted).
Proof.
  unfold Cover.matchFile, orElse.
  destruct (find (fun f => str_eqb f target) files) as [g|] eqn:E1.
  - intros [= <-]. apply find_some in E1 as [Hin He].
    apply str_eqb_eq in He. auto.
  - intros H. apply find_some in H as [Hin He]. apply str_eqb_eq in He. auto.
Qed.

Lemma hitIn_sound (le : jsstring -> jsstring -> bool) (fs : list entry)
    (target : jsstring) (p r : list jsstring) :
  hitIn le fs target p = Some r ->
  exists es f e,
    r = p ++ [f] /\ readdirSync fs p = Some es
    /\ In e es /\ isFile e = true /\ entryName e = f
    /\ (f = target \/ toLowerCase f = toLowerCase target).
Proof.
  unfold hitIn. destruct (readdirSync fs p) as [es|]; [|discriminate].
  destruct (Cover.matchFile _ _ _) as [f|] eqn:Hm; [|discriminate].
  intros [= <-]. apply matchFile_In in Hm as [Hin Hf].
  unfold Cover.fileNames in Hin. apply In_sortBy in Hin.
  apply in_map_iff in Hin as [e [He Hin]]. apply filter_In in Hin as [Hin Hfile].
  exists es, f, e. repeat split; auto.
Qed.

Lemma firstHit_sound (le : jsstring -> jsstring -> bool) (fs : list entry)
    (target : jsstring) (dirs : list (list jsstring)) (r : list jsstring) :
  firstHit le fs target dirs = Some r ->
  exists p, In p dirs /\ hitIn le fs target p = Some r.
Proof.
  induction dirs as [|p dirs IH]; [discriminate|].
  cbn [firstHit]. destruct (hitIn le fs target p) as [r'|] eqn:Hp.
  - intros [= <-]. exists p. split; [now left | exact Hp].
  - cbn [orElse]. intros H. destruct (IH H) as [p' [Hin Hp']].
    exists p'. split; [now right | exact Hp'].
Qed.

Lemma levelOrderSearch_inside (le : jsstring -> jsstring -> bool)
    (fs : list entry) (start : list jsstring) (target : jsstring)
    (found : list jsstring) :
  levelOrderSearch le fs start target = Some found ->
  insideCollection fs (Cover.slugToWebPath found).
Proof.
  unfold levelOrderSearch. intros H.
  apply firstHit_sound in H as [p [_ H]].
  apply hitIn_sound in H as [es [f [e [-> [Hes [Hin [_ [<- _]]]]]]]].
  destruct (statSync_In fs p es e Hes Hin) as [e' He'].
  now exists p, (entryName e), e'.
Qed.


(** Every address that rule 1 returns names an entry of the collection. *)
Lemma resolveCoverRule1_inside (fs : list entry) (absPath relParts : list jsstring)
    (w : jsstring) :
  Cover.resolveCoverRule1 fs absPath relParts = Some w ->
  insideCollection fs w.
Proof.
  unfold Cover.resolveCoverRule1.
  destruct (Cover.readFirstLineIfExists fs absPath (js ".cover")) as [raw|];
    [|discriminate].
  destruct (negb (truthy raw)); [discriminate|].
  destruct (Cover.candidatePartsOf relParts raw) as [[|c0 cp]|];
    try discriminate.
  destruct (Cover.hasImageExt (last (c0 :: cp) [])).
  - destruct (Cover.correctCaseUnderPortfolio fs (c0 :: cp)) as [c|] eqn:Hc.
    + intros [= <-]. eapply correctCase_inside; [|exact Hc]. discriminate.
    + destruct (Cover.isLikelyRelative raw); [|discriminate].
      unfold Cover.findFileUnderPortfolioBFS. rewrite bfsFrom_levelOrder.
      destruct (Cover.correctCaseUnderPortfolio fs relParts) as [s|];
        [|discriminate].
      destruct (levelOrderSearch localeLe fs s (last (c0 :: cp) []))
        as [found|] eqn:Hf; [|discriminate].
      intros [= <-]. eapply levelOrderSearch_inside, Hf.
  - destruct (Cover.correctCaseUnderPortfolio fs (c0 :: cp)) as [c|];
      [|discriminate].
    destruct (readdirSync fs c) as [entries|] eqn:Hes; [|discriminate].
    destruct (find Cover.hasImageExt (map entryName (filter isFile entries)))
      as [img|] eqn:Hfind; [|discriminate].
    destruct (truthy img); [|discriminate].
    intros [= <-]. apply find_some in Hfind as [Hin _].
    apply in_map_iff in Hin as [e [<- Hin]]. apply filter_In in Hin as [Hin _].
    destruct (statSync_In fs c entries e Hes Hin) as [e' He'].
    now exists c, (entryName e), e'.
Qed.





Lemma dropLeadingSlashes_fixed (s : jsstring) :
  startsWith s (js "/") = false -> dropLeadingSlashes s = s.
Proof.
  destruct s as [|c s]; [reflexivity|].
  destruct (N.eqb_spec c 47) as [->|Hc]; [intros H; destruct s; vm_compute in H; discriminate H|].
  intros _. cbn [dropLeadingSlashes].
  now destruct (N.eqb_spec c 47).
Qed.



End Inside.



(** ** Alphabetical order *)

Section Alphabetical.
Variable le : jsstring -> jsstring -> bool.
Hypothesis le_total : forall a b, le a b = true \/ le b a = true.
Hypothesis le_trans : forall a b c, le a b = true -> le b c = true -> le a c = true.







End Alphabetical.



Section SearchRefinement.
Context {host : Host}.
Variable le : jsstring -> jsstring -> bool.
Variable arrange : list jsstring -> list jsstring.
Hypothesis arrange_sort : forall names, arrange names = sortBy le names.
Variable fs : list entry.








End SearchRefinement.

Section SubtreeSearch.
Context {host : Host}.


(** The order in which the search enters the sub-directories of a
    directory: its non-dot directories, rearranged by the comparator. *)
Lemma subdirNames_Permutation (le : jsstring -> jsstring -> bool)
    (es : list entry) :
  Permutation
    (map entryName
       (filter (fun e => isDirectory e && negb (startsWith (entryName e) (js ".")))
               es))
    (Cover.subdirNames le es).
Proof. apply Permutation_sortBy. Qed.


End SubtreeSearch.


(** ** scripts/generate-manifest.mjs: the listing files *)

Lemma find_filter_imp {A} (P Q : A -> bool) (l : list A) :
  (forall x, P x = true -> Q x = true) ->
  find P (filter Q l) = find P l.
Proof.
  intros H. induction l as [|x l IH]; simpl; [reflexivity|].
  destruct (Q x) eqn:Hq; simpl.
  - now rewrite IH.
  - destruct (P x) eqn:Hp; [|exact IH].
    apply H in Hp. congruence.
Qed.

Lemma lookup_dropped (n : jsstring) (es : list entry) :
  lookup (filter (fun e => negb (str_eqb (entryName e) n)) es) n = None.
Proof.
  unfold lookup. induction es as [|e es IH]; simpl; [reflexivity|].
  destruct (str_eqb (entryName e) n) eqn:E; simpl; [exact IH|].
  now rewrite E.
Qed.

Lemma lookup_dropFile_other (n n' : jsstring) (es es' : list entry) :
  dropFile n es = Some es' -> n' <> n -> lookup es' n' = lookup es n'.
Proof.
  unfold dropFile. destruct (lookup es n) as [[|]|]; try discriminate.
  intros [= <-] Hne. unfold lookup. apply find_filter_imp.
  intros x Hx. apply str_eqb_eq in Hx. apply negb_true_iff, str_eqb_neq.
  congruence.
Qed.

Lemma lookup_putFile_other (n c n' : jsstring) (es es' : list entry) :
  putFile n c es = Some es' -> n' <> n -> lookup es' n' = lookup es n'.
Proof.
  unfold lookup. revert es'. induction es as [|e es IH]; intros es'; simpl.
  - intros [= <-] Hne. simpl.
    assert (E : str_eqb n n' = false) by (apply str_eqb_neq; congruence).
    now rewrite E.
  - destruct (str_eqb (entryName e) n) eqn:E.
    + destruct e as [m c'|m sub]; [|discriminate].
      intros [= <-] Hne. simpl in *. apply str_eqb_eq in E. subst m.
      assert (E' : str_eqb n n' = false) by (apply str_eqb_neq; congruence).
      now rewrite E'.
    + destruct (putFile n c es) as [r|]; [|discriminate].
      intros [= <-] Hne. simpl. destruct (str_eqb (entryName e) n'); auto.
Qed.

Lemma lookup_changeFirst_kind (d : jsstring) (g : entry -> option entry)
    (es es' : list entry) (n : jsstring) :
  (forall e e', g e = Some e' ->
                entryName e' = entryName e /\ isFile e' = isFile e) ->
  changeFirst d g es = Some es' ->
  option_map isFile (lookup es' n) = option_map isFile (lookup es n).
Proof.
  intros Hg. unfold lookup. revert es'.
  induction es as [|e es IH]; intros es'; simpl; [discriminate|].
  destruct (str_eqb (entryName e) d).
  - destruct (g e) as [e'|] eqn:Hge; [|discriminate].
    intros [= <-]. simpl. destruct (Hg e e' Hge) as [-> Hf].
    destruct (str_eqb (entryName e) n); simpl; congruence.
  - destruct (changeFirst d g es) as [r|]; [|discriminate].
    intros [= <-]. simpl. destruct (str_eqb (entryName e) n); auto.
Qed.

Lemma rootImagesFile_kind (es es' : list entry) :
  option_map isFile (lookup es' (js ".images"))
  = option_map isFile (lookup es (js ".images")) ->
  rootImagesFile es' = rootImagesFile es.
Proof.
  unfold rootImagesFile.
  destruct (lookup es' (js ".images")) as [[|]|];
    destruct (lookup es (js ".images")) as [[|]|]; simpl; congruence.
Qed.

(** A change below the root, or to another file of the root, leaves the
    media-listing file of the root as it is. *)
Lemma updateAt_keeps (dir : list jsstring) (file : jsstring)
    (f : list entry -> option (list entry)) (es es' : list entry) :
  (forall l l', f l = Some l' ->
                lookup l' (js ".images") = lookup l (js ".images")) ->
  updateAt dir f es = Some es' ->
  rootImagesFile es' = rootImagesFile es.
Proof.
  intros Hf. destruct dir as [|d p]; simpl.
  - intros H. unfold rootImagesFile. now rewrite (Hf _ _ H).
  - intros H. apply rootImagesFile_kind.
    eapply lookup_changeFirst_kind; [|exact H].
    intros [m c|m sub] e'; [discriminate|].
    destruct (updateAt p f sub); [|discriminate]. now intros [= <-].
Qed.

Lemma updateAt_below_keeps (d : jsstring) (p : list jsstring)
    (f : list entry -> option (list entry)) (es es' : list entry) :
  updateAt (d :: p) f es = Some es' ->
  rootImagesFile es' = rootImagesFile es.
Proof.
  simpl. intros H. apply rootImagesFile_kind.
  eapply lookup_changeFirst_kind; [|exact H].
  intros [m c|m sub] e'; [discriminate|].
  destruct (updateAt p f sub); [|discriminate]. now intros [= <-].
Qed.

Section GeneratorFacts.
Context {host : Host}.

(** *** No write of the media-listing file of the root *)

Lemma quiet_ret {A} (a : A) : quiet (ret a).
Proof.
  intros st r st' [= <- <-]. exists []. now rewrite app_nil_r.
Qed.

Lemma quiet_getDisk : quiet getDisk.
Proof.
  intros st r st' [= <- <-]. exists []. now rewrite app_nil_r.
Qed.

Lemma quiet_bind {A B} (m : Gen A) (k : A -> Gen B) :
  quiet m -> (forall a, quiet (k a)) -> quiet (bind m k).
Proof.
  intros Hm Hk st r st'. unfold bind.
  destruct (m st) as [[a| |] st1] eqn:E1.
  - intros E2. destruct (Hm _ _ _ E1) as [n1 [T1 F1]].
    destruct (Hk a _ _ _ E2) as [n2 [T2 F2]].
    exists (n1 ++ n2). rewrite T2, T1, app_assoc. split; [reflexivity|].
    now apply Forall_app.
  - intros [= <- <-]. eapply Hm, E1.
  - intros [= <- <-]. eapply Hm, E1.
Qed.

Lemma quiet_mapGen {A B} (f : A -> Gen B) (l : list A) :
  (forall a, quiet (f a)) -> quiet (mapGen f l).
Proof.
  intros Hf. induction l as [|a l IH]; simpl; [apply quiet_ret|].
  apply quiet_bind; [apply Hf|]. intros b.
  apply quiet_bind; [exact IH|]. intros bs. apply quiet_ret.
Qed.

Lemma quiet_writeFileSync (dir : list jsstring) (file content : jsstring) :
  writesRootImages (Wrote dir file content) = false ->
  quiet (writeFileSync dir file content).
Proof.
  intros Hok st r st'. unfold writeFileSync.
  destruct (updateAt dir (putFile file content) (disk st)) as [d|].
  - intros [= <- <-]. simpl. eexists. split; [reflexivity|]. now constructor.
  - intros [= <- <-]. exists []. now rewrite app_nil_r.
Qed.

Lemma quiet_writeIfChanged (dir : list jsstring) (file content : jsstring) :
  writesRootImages (Wrote dir file content) = false ->
  quiet (Generator.writeIfChanged dir file content).
Proof.
  intros Hok. unfold Generator.writeIfChanged.
  apply quiet_bind; [apply quiet_getDisk|]. intros fs.
  destruct (readFileSync fs dir file) as [prev|].
  - destruct (str_eqb prev content); [apply quiet_ret|].
    apply quiet_bind; [now apply quiet_writeFileSync|].
    intros _. apply quiet_ret.
  - apply quiet_bind; [now apply quiet_writeFileSync|].
    intros _. apply quiet_ret.
Qed.

Lemma quiet_removeIfExists (dir : list jsstring) (file : jsstring) :
  quiet (Generator.removeIfExists dir file).
Proof.
  intros st r st'. unfold Generator.removeIfExists.
  destruct (existsSync (disk st) dir file).
  - destruct (updateAt dir (dropFile file) (disk st)) as [d|].
    + intros [= <- <-]. simpl. eexists. split; [reflexivity|]. now constructor.
    + intros [= <- <-]. exists []. now rewrite app_nil_r.
  - intros [= <- <-]. exists []. now rewrite app_nil_r.
Qed.

Lemma quiet_writeListings (relParts images folders : list jsstring) :
  quiet (Generator.writeListings relParts images folders).
Proof.
  unfold Generator.writeListings.
  apply quiet_bind.
  - destruct folders; [apply quiet_removeIfExists|].
    apply quiet_writeIfChanged. now destruct relParts.
  - intros _. apply quiet_bind; [|intros _; apply quiet_ret].
    destruct relParts as [|d p]; cbn [List.length Nat.eqb];
      [apply quiet_removeIfExists|].
    destruct images; [apply quiet_removeIfExists|].
    now apply quiet_writeIfChanged.
Qed.

Lemma buildNode_S_gen (fuel : nat) (absPath : jsstring)
    (relParts inheritedIgnore : list jsstring) (st : GenState) :
  Generator.buildNode (S fuel) absPath relParts inheritedIgnore st
  = bind getDisk (fun fs =>
      bind (Generator.writeListings relParts
              (snd (fst (Generator.listing fs relParts inheritedIgnore)))
              (snd (Generator.listing fs relParts inheritedIgnore)))
        (fun _ =>
           bind (mapGen
                   (fun child =>
                      Generator.buildNode fuel (pathJoin [absPath; child])
                        (relParts ++ [child])
                        (fst (fst (Generator.listing fs relParts
                                     inheritedIgnore))))
                   (snd (Generator.listing fs relParts inheritedIgnore)))
             (fun children =>
                bind getDisk (fun fs' =>
                  ret (Generator.finish fs' absPath relParts
                         (snd (fst (Generator.listing fs relParts
                                      inheritedIgnore)))
                         children))))) st.
Proof.
  cbn [Generator.buildNode]. unfold bind at 1 5. unfold getDisk at 1 3.
  destruct (Generator.listing (disk st) relParts inheritedIgnore) as [[a b] c].
  reflexivity.
Qed.

Lemma quiet_ext {A} (m m' : Gen A) :
  (forall st, m st = m' st) -> quiet m' -> quiet m.
Proof. intros E H st r st'. rewrite E. apply H. Qed.

Lemma quiet_buildNode (fuel : nat) :
  forall (absPath : jsstring) (relParts inheritedIgnore : list jsstring),
    quiet (Generator.buildNode fuel absPath relParts inheritedIgnore).
Proof.
  induction fuel as [|fuel IH]; intros absPath relParts inheritedIgnore.
  - intros st r st' [= <- <-]. exists []. now rewrite app_nil_r.
  - eapply quiet_ext; [apply buildNode_S_gen|].
    apply quiet_bind; [apply quiet_getDisk|]. intros fs.
    apply quiet_bind; [apply quiet_writeListings|]. intros _.
    apply quiet_bind; [apply quiet_mapGen; intros child; apply IH|].
    intros children.
    apply quiet_bind; [apply quiet_getDisk|]. intros fs'. apply quiet_ret.
Qed.

End GeneratorFacts.

Section GeneratorRoot.
Context {host : Host}.

(** *** The media-listing file of the root *)

Lemma keeps_ret {A} (a : A) : keepsRootImages (ret a).
Proof. now intros st r st' [= <- <-]. Qed.

Lemma keeps_getDisk : keepsRootImages getDisk.
Proof. now intros st r st' [= <- <-]. Qed.

Lemma keeps_bind {A B} (m : Gen A) (k : A -> Gen B) :
  keepsRootImages m -> (forall a, keepsRootImages (k a)) ->
  keepsRootImages (bind m k).
Proof.
  intros Hm Hk st r st'. unfold bind.
  destruct (m st) as [[a| |] st1] eqn:E1.
  - intros E2. rewrite (Hk a _ _ _ E2). eapply Hm, E1.
  - intros [= <- <-]. eapply Hm, E1.
  - intros [= <- <-]. eapply Hm, E1.
Qed.

Lemma keeps_mapGen {A B} (f : A -> Gen B) (l : list A) :
  (forall a, keepsRootImages (f a)) -> keepsRootImages (mapGen f l).
Proof.
  intros Hf. induction l as [|a l IH]; simpl; [apply keeps_ret|].
  apply keeps_bind; [apply Hf|]. intros b.
  apply keeps_bind; [exact IH|]. intros bs. apply keeps_ret.
Qed.

Lemma keeps_ext {A} (m m' : Gen A) :
  (forall st, m st = m' st) -> keepsRootImages m' -> keepsRootImages m.
Proof. intros E H st r st'. rewrite E. apply H. Qed.

Lemma keeps_writeFileSync (dir : list jsstring) (file content : jsstring) :
  dir <> [] \/ file <> js ".images" ->
  keepsRootImages (writeFileSync dir file content).
Proof.
  intros Hc st r st'. unfold writeFileSync.
  destruct (updateAt dir (putFile file content) (disk st)) as [d|] eqn:E;
    [|now intros [= <- <-]].
  intros [= <- <-]. simpl. destruct dir as [|d0 p].
  - simpl in E. unfold rootImagesFile.
    rewrite (lookup_putFile_other _ _ (js ".images") _ _ E); [reflexivity|].
    destruct Hc; congruence.
  - eapply updateAt_below_keeps, E.
Qed.

Lemma keeps_writeIfChanged (dir : list jsstring) (file content : jsstring) :
  dir <> [] \/ file <> js ".images" ->
  keepsRootImages (Generator.writeIfChanged dir file content).
Proof.
  intros Hc. unfold Generator.writeIfChanged.
  apply keeps_bind; [apply keeps_getDisk|]. intros fs.
  destruct (readFileSync fs dir file) as [prev|].
  - destruct (str_eqb prev content); [apply keeps_ret|].
    apply keeps_bind; [now apply keeps_writeFileSync|].
    intros _. apply keeps_ret.
  - apply keeps_bind; [now apply keeps_writeFileSync|].
    intros _. apply keeps_ret.
Qed.

Lemma keeps_removeIfExists (dir : list jsstring) (file : jsstring) :
  dir <> [] \/ file <> js ".images" ->
  keepsRootImages (Generator.removeIfExists dir file).
Proof.
  intros Hc st r st'. unfold Generator.removeIfExists.
  destruct (existsSync (disk st) dir file); [|now intros [= <- <-]].
  destruct (updateAt dir (dropFile file) (disk st)) as [d|] eqn:E;
    [|now intros [= <- <-]].
  intros [= <- <-]. simpl. destruct dir as [|d0 p].
  - simpl in E. unfold rootImagesFile.
    rewrite (lookup_dropFile_other _ (js ".images") _ _ E); [reflexivity|].
    destruct Hc; congruence.
  - eapply updateAt_below_keeps, E.
Qed.

Lemma keeps_writeListings (relParts images folders : list jsstring) :
  relParts <> [] ->
  keepsRootImages (Generator.writeListings relParts images folders).
Proof.
  intros Hne. unfold Generator.writeListings.
  apply keeps_bind.
  - destruct folders; [apply keeps_removeIfExists | apply keeps_writeIfChanged];
      now left.
  - intros _. apply keeps_bind; [|intros _; apply keeps_ret].
    destruct (Nat.eqb (List.length relParts) 0);
      [apply keeps_removeIfExists; now left|].
    destruct images; [apply keeps_removeIfExists | apply keeps_writeIfChanged];
      now left.
Qed.

Lemma keeps_buildNode (fuel : nat) :
  forall (absPath : jsstring) (relParts inheritedIgnore : list jsstring),
    relParts <> [] ->
    keepsRootImages (Generator.buildNode fuel absPath relParts inheritedIgnore).
Proof.
  induction fuel as [|fuel IH]; intros absPath relParts inheritedIgnore Hne.
  - now intros st r st' [= <- <-].
  - eapply keeps_ext; [apply buildNode_S_gen|].
    apply keeps_bind; [apply keeps_getDisk|]. intros fs.
    apply keeps_bind; [now apply keeps_writeListings|]. intros _.
    apply keeps_bind.
    + apply keeps_mapGen. intros child. apply IH.
      intros H. now apply app_eq_nil in H as [_ H].
    + intros children.
      apply keeps_bind; [apply keeps_getDisk|]. intros fs'. apply keeps_ret.
Qed.

Lemma bind_Finished {A B} (m : Gen A) (k : A -> Gen B) st b st' :
  bind m k st = (Finished b, st') ->
  exists a st1, m st = (Finished a, st1) /\ k a st1 = (Finished b, st').
Proof.
  unfold bind. destruct (m st) as [[a| |] st1]; try discriminate.
  intros H. now exists a, st1.
Qed.

(** After the removal at the root, no media-listing file is there. *)
Lemma removeIfExists_root_images st r st' :
  Generator.removeIfExists [] (js ".images") st = (r, st') ->
  rootImagesFile (disk st') = false.
Proof.
  unfold Generator.removeIfExists, existsSync, statSync. cbn [readdirSync updateAt].
  unfold rootImagesFile.
  destruct (lookup (disk st) (js ".images")) as [e|] eqn:El.
  - unfold dropFile. rewrite El. destruct e as [n c|n sub].
    + intros [= <- <-]. cbn [disk]. now rewrite lookup_dropped.
    + intros [= <- <-]. now rewrite El.
  - intros [= <- <-]. now rewrite El.
Qed.

Lemma writeListings_root (images folders : list jsstring) st u st' :
  Generator.writeListings [] images folders st = (Finished u, st') ->
  rootImagesFile (disk st') = false.
Proof.
  unfold Generator.writeListings. cbn [List.length Nat.eqb].
  intros H. apply bind_Finished in H as [a [st1 [_ H]]].
  apply bind_Finished in H as [b [st2 [H2 H3]]].
  injection H3 as _ <-. eapply removeIfExists_root_images, H2.
Qed.

(** A run from the collection root, with any fuel: no write of the
    media-listing file of the root, and none is there at the end. *)
Lemma buildNode_root_images
    (fuel : nat) (absPath : jsstring) (inheritedIgnore : list jsstring)
    (fs : list entry) :
  Forall (fun ev => writesRootImages ev = false)
    (trace (snd (Generator.buildNode fuel absPath [] inheritedIgnore
                   {| disk := fs; trace := [] |})))
  /\ (forall manifest,
        fst (Generator.buildNode fuel absPath [] inheritedIgnore
               {| disk := fs; trace := [] |}) = Finished manifest ->
        rootImagesFile
          (disk (snd (Generator.buildNode fuel absPath [] inheritedIgnore
                        {| disk := fs; trace := [] |}))) = false
        /\ readFileSync
             (disk (snd (Generator.buildNode fuel absPath [] inheritedIgnore
                           {| disk := fs; trace := [] |})))
             [] (js ".images") = None).
Proof.
  destruct (Generator.buildNode fuel absPath [] inheritedIgnore
              {| disk := fs; trace := [] |}) as [r st'] eqn:E.
  cbn [fst snd]. split.
  - destruct (quiet_buildNode fuel absPath [] inheritedIgnore _ _ _ E)
      as [new [T F]].
    rewrite T. exact F.
  - intros manifest ->.
    assert (R : rootImagesFile (disk st') = false).
    { destruct fuel as [|fuel]; [discriminate|].
      rewrite buildNode_S_gen in E.
      apply bind_Finished in E as [fs0 [st0 [E0 E]]].
      injection E0 as <- <-.
      apply bind_Finished in E as [u [st1 [E1 E]]].
      apply bind_Finished in E as [cs [st2 [E2 E]]].
      apply bind_Finished in E as [fs3 [st3 [E3 E]]].
      injection E3 as _ <-. injection E as _ <-.
      apply writeListings_root in E1.
      rewrite <- E1. eapply keeps_mapGen; [|exact E2].
      intros child. apply keeps_buildNode. discriminate. }
    split; [exact R|].
    unfold rootImagesFile in R. unfold readFileSync, statSync.
    cbn [readdirSync].
    destruct (lookup (disk st') (js ".images")) as [[|]|];
      congruence.
Qed.

End GeneratorRoot.

(** ** scripts/generate-manifest.mjs: the run ends *)

Lemma height_cons (e : entry) (es : list entry) :
  height (e :: es) = Nat.max (entryHeight e) (height es).
Proof. reflexivity. Qed.

Lemma height_putFile (n c : jsstring) (es es' : list entry) :
  putFile n c es = Some es' -> height es' <= height es.
Proof.
  revert es'. induction es as [|e es IH]; intros es'; simpl.
  - intros [= <-]. now cbn.
  - destruct (str_eqb (entryName e) n).
    + destruct e as [m c'|m sub]; [|discriminate].
      intros [= <-]. rewrite !height_cons. simpl. lia.
    + destruct (putFile n c es) as [r|]; [|discriminate].
      intros [= <-]. rewrite !height_cons. specialize (IH r eq_refl). lia.
Qed.

Lemma height_filter (P : entry -> bool) (es : list entry) :
  height (filter P es) <= height es.
Proof.
  induction es as [|e es IH]; simpl; [lia|].
  destruct (P e); rewrite !height_cons; lia.
Qed.

Lemma height_dropFile (n : jsstring) (es es' : list entry) :
  dropFile n es = Some es' -> height es' <= height es.
Proof.
  unfold dropFile. destruct (lookup es n) as [[|]|]; try discriminate.
  intros [= <-]. apply height_filter.
Qed.

Lemma height_changeFirst (d : jsstring) (g : entry -> option entry)
    (es es' : list entry) :
  (forall e e', g e = Some e' -> entryHeight e' <= entryHeight e) ->
  changeFirst d g es = Some es' -> height es' <= height es.
Proof.
  intros Hg. revert es'. induction es as [|e es IH]; intros es'; simpl;
    [discriminate|].
  destruct (str_eqb (entryName e) d).
  - destruct (g e) as [e'|] eqn:Hge; [|discriminate].
    intros [= <-]. rewrite !height_cons. specialize (Hg e e' Hge). lia.
  - destruct (changeFirst d g es) as [r|]; [|discriminate].
    intros [= <-]. rewrite !height_cons. specialize (IH r eq_refl). lia.
Qed.

Lemma height_updateAt (dir : list jsstring)
    (f : list entry -> option (list entry)) :
  (forall l l', f l = Some l' -> height l' <= height l) ->
  forall es es', updateAt dir f es = Some es' -> height es' <= height es.
Proof.
  intros Hf. induction dir as [|d p IH]; intros es es'; simpl; [apply Hf|].
  apply height_changeFirst.
  intros [m c|m sub] e'; [discriminate|].
  destruct (updateAt p f sub) as [sub'|] eqn:E; [|discriminate].
  intros [= <-]. simpl. fold (height sub') (height sub).
  specialize (IH _ _ E). lia.
Qed.

Lemma readdirSync_depth (p : list jsstring) :
  forall fs es, readdirSync fs p = Some es ->
                List.length p + height es <= height fs.
Proof.
  induction p as [|d p IH]; intros fs es; simpl.
  - intros [= <-]. lia.
  - destruct (lookup fs d) as [[|n sub]|] eqn:Hl; try discriminate.
    intros H. apply IH in H. apply lookup_Some in Hl as [Hin _].
    apply height_sub in Hin. lia.
Qed.

Section GeneratorEnds.
Context {host : Host}.

Lemma shrinks_ret {A} (a : A) : shrinks (ret a).
Proof. intros st r st' [= <- <-]. lia. Qed.

Lemma shrinks_getDisk : shrinks getDisk.
Proof. intros st r st' [= <- <-]. lia. Qed.

Lemma shrinks_bind {A B} (m : Gen A) (k : A -> Gen B) :
  shrinks m -> (forall a, shrinks (k a)) -> shrinks (bind m k).
Proof.
  intros Hm Hk st r st'. unfold bind.
  destruct (m st) as [[a| |] st1] eqn:E1.
  - intros E2. specialize (Hm _ _ _ E1). specialize (Hk a _ _ _ E2). lia.
  - intros [= <- <-]. eapply Hm, E1.
  - intros [= <- <-]. eapply Hm, E1.
Qed.

Lemma shrinks_mapGen {A B} (f : A -> Gen B) (l : list A) :
  (forall a, shrinks (f a)) -> shrinks (mapGen f l).
Proof.
  intros Hf. induction l as [|a l IH]; simpl; [apply shrinks_ret|].
  apply shrinks_bind; [apply Hf|]. intros b.
  apply shrinks_bind; [exact IH|]. intros bs. apply shrinks_ret.
Qed.

Lemma shrinks_ext {A} (m m' : Gen A) :
  (forall st, m st = m' st) -> shrinks m' -> shrinks m.
Proof. intros E H st r st'. rewrite E. apply H. Qed.

Lemma shrinks_writeFileSync (dir : list jsstring) (file content : jsstring) :
  shrinks (writeFileSync dir file content).
Proof.
  intros st r st'. unfold writeFileSync.
  destruct (updateAt dir (putFile file content) (disk st)) as [d|] eqn:E.
  - intros [= <- <-]. simpl. eapply height_updateAt; [|exact E].
    apply height_putFile.
  - intros [= <- <-]. lia.
Qed.

Lemma shrinks_writeIfChanged (dir : list jsstring) (file content : jsstring) :
  shrinks (Generator.writeIfChanged dir file content).
Proof.
  unfold Generator.writeIfChanged.
  apply shrinks_bind; [apply shrinks_getDisk|]. intros fs.
  destruct (readFileSync fs dir file) as [prev|].
  - destruct (str_eqb prev content); [apply shrinks_ret|].
    apply shrinks_bind; [apply shrinks_writeFileSync|].
    intros _. apply shrinks_ret.
  - apply shrinks_bind; [apply shrinks_writeFileSync|].
    intros _. apply shrinks_ret.
Qed.

Lemma shrinks_removeIfExists (dir : list jsstring) (file : jsstring) :
  shrinks (Generator.removeIfExists dir file).
Proof.
  intros st r st'. unfold Generator.removeIfExists.
  destruct (existsSync (disk st) dir file); [|intros [= <- <-]; lia].
  destruct (updateAt dir (dropFile file) (disk st)) as [d|] eqn:E;
    [|intros [= <- <-]; lia].
  intros [= <- <-]. simpl. eapply height_updateAt; [|exact E].
  apply height_dropFile.
Qed.

Lemma shrinks_writeListings (relParts images folders : list jsstring) :
  shrinks (Generator.writeListings relParts images folders).
Proof.
  unfold Generator.writeListings.
  apply shrinks_bind.
  - destruct folders; [apply shrinks_removeIfExists | apply shrinks_writeIfChanged].
  - intros _. apply shrinks_bind; [|intros _; apply shrinks_ret].
    destruct (Nat.eqb (List.length relParts) 0); [apply shrinks_removeIfExists|].
    destruct images; [apply shrinks_removeIfExists | apply shrinks_writeIfChanged].
Qed.

Lemma shrinks_buildNode (fuel : nat) :
  forall (absPath : jsstring) (relParts inheritedIgnore : list jsstring),
    shrinks (Generator.buildNode fuel absPath relParts inheritedIgnore).
Proof.
  induction fuel as [|fuel IH]; intros absPath relParts inheritedIgnore.
  - intros st r st' [= <- <-]. lia.
  - eapply shrinks_ext; [apply buildNode_S_gen|].
    apply shrinks_bind; [apply shrinks_getDisk|]. intros fs.
    apply shrinks_bind; [apply shrinks_writeListings|]. intros _.
    apply shrinks_bind; [apply shrinks_mapGen; intros child; apply IH|].
    intros children.
    apply shrinks_bind; [apply shrinks_getDisk|]. intros fs'.
    apply shrinks_ret.
Qed.

(** *** Fuel *)

Lemma fuelled_bind {A B} (h : nat) (m : Gen A) (k : A -> Gen B) :
  fuelled h m -> shrinks m -> (forall a, fuelled h (k a)) ->
  fuelled h (bind m k).
Proof.
  intros Hm Hs Hk st Hst. unfold bind.
  specialize (Hm st Hst).
  destruct (m st) as [[a| |] st1] eqn:E1; cbn [fst] in *;
    [|discriminate|congruence].
  apply Hk. specialize (Hs _ _ _ E1). lia.
Qed.

Lemma fuelled_mapGen {A B} (h : nat) (f : A -> Gen B) (l : list A) :
  (forall a, In a l -> fuelled h (f a)) ->
  (forall a, shrinks (f a)) ->
  fuelled h (mapGen f l).
Proof.
  intros Hf Hs. induction l as [|a l IH]; simpl; [now intros st _|].
  apply fuelled_bind; [apply Hf; now left | apply Hs |]. intros b.
  apply fuelled_bind.
  - apply IH. intros a' Ha'. apply Hf. now right.
  - now apply shrinks_mapGen.
  - now intros bs st _.
Qed.

Lemma writeFileSync_ends (dir : list jsstring) (file content : jsstring) st :
  fst (writeFileSync dir file content st) <> OutOfFuel.
Proof.
  unfold writeFileSync.
  now destruct (updateAt dir (putFile file content) (disk st)).
Qed.

Lemma writeIfChanged_ends (dir : list jsstring) (file content : jsstring) st :
  fst (Generator.writeIfChanged dir file content st) <> OutOfFuel.
Proof.
  unfold Generator.writeIfChanged, bind, getDisk.
  destruct (readFileSync (disk st) dir file) as [prev|].
  - destruct (str_eqb prev content); [discriminate|].
    pose proof (writeFileSync_ends dir file content st) as H.
    destruct (writeFileSync dir file content st) as [[u| |] st1];
      unfold ret in *; cbn [fst] in *; congruence.
  - pose proof (writeFileSync_ends dir file content st) as H.
    destruct (writeFileSync dir file content st) as [[u| |] st1];
      unfold ret in *; cbn [fst] in *; congruence.
Qed.

Lemma removeIfExists_ends (dir : list jsstring) (file : jsstring) st :
  fst (Generator.removeIfExists dir file st) <> OutOfFuel.
Proof.
  unfold Generator.removeIfExists.
  destruct (existsSync (disk st) dir file); [|discriminate].
  now destruct (updateAt dir (dropFile file) (disk st)).
Qed.

Lemma fuelled_writeListings (h : nat) (relParts images folders : list jsstring) :
  fuelled h (Generator.writeListings relParts images folders).
Proof.
  unfold Generator.writeListings.
  apply fuelled_bind.
  - intros st _. destruct folders;
      [apply removeIfExists_ends | apply writeIfChanged_ends].
  - destruct folders; [apply shrinks_removeIfExists | apply shrinks_writeIfChanged].
  - intros _. apply fuelled_bind.
    + intros st _. destruct (Nat.eqb (List.length relParts) 0);
        [apply removeIfExists_ends|].
      destruct images; [apply removeIfExists_ends | apply writeIfChanged_ends].
    + destruct (Nat.eqb (List.length relParts) 0); [apply shrinks_removeIfExists|].
      destruct images; [apply shrinks_removeIfExists | apply shrinks_writeIfChanged].
    + now intros _ st _.
Qed.

Lemma In_applyOrderList (items desired : list jsstring) (x : jsstring) :
  In x (Generator.applyOrderList items desired) -> In x items.
Proof.
  unfold Generator.applyOrderList. destruct desired as [|d ds]; [auto|].
  intros H. apply in_app_or in H as [H|H].
  - apply In_sortBy in H. now apply filter_In in H.
  - now apply filter_In in H.
Qed.

(** A folder of the listing is the name of a directory entry. *)
Lemma listing_folder (fs : list entry) (relParts inheritedIgnore : list jsstring)
    (c : jsstring) :
  In c (snd (Generator.listing fs relParts inheritedIgnore)) ->
  exists es n sub, readdirSync fs relParts = Some es /\ In (Dir n sub) es.
Proof.
  unfold Generator.listing, Generator.safeReaddirSync.
  destruct (Generator.readOrder fs relParts) as [|o os]; cbn [snd]; intros H.
  - apply In_sortBy in H. apply filter_In in H as [H _].
    apply in_map_iff in H as [e [_ H]]. apply filter_In in H as [H Hd].
    destruct (readdirSync fs relParts) as [es|]; [|easy].
    destruct e as [|n sub]; [discriminate|]. now exists es, n, sub.
  - apply In_applyOrderList in H. apply filter_In in H as [H _].
    apply in_map_iff in H as [e [_ H]]. apply filter_In in H as [H Hd].
    destruct (readdirSync fs relParts) as [es|]; [|easy].
    destruct e as [|n sub]; [discriminate|]. now exists es, n, sub.
Qed.

Lemma fuelled_buildNode (h : nat) (fuel : nat) :
  forall (absPath : jsstring) (relParts inheritedIgnore : list jsstring),
    List.length relParts <= h ->
    h + 1 <= fuel + List.length relParts ->
    fuelled h (Generator.buildNode fuel absPath relParts inheritedIgnore).
Proof.
  induction fuel as [|fuel IH]; intros absPath relParts inheritedIgnore Hlen Hfuel;
    [lia|].
  intros st Hst. rewrite buildNode_S_gen.
  unfold bind at 1. unfold getDisk at 1.
  refine (fuelled_bind h _ _ _ _ _ st Hst).
  - apply fuelled_writeListings.
  - apply shrinks_writeListings.
  - intros _. apply fuelled_bind.
    + apply fuelled_mapGen; [|intros child; apply shrinks_buildNode].
      intros child Hchild.
      apply listing_folder in Hchild as [es [n [sub [Hes Hin]]]].
      apply readdirSync_depth in Hes. apply height_sub in Hin.
      apply IH; rewrite length_app; simpl; lia.
    + apply shrinks_mapGen. intros child. apply shrinks_buildNode.
    + intros children. apply fuelled_bind.
      * now intros st' _.
      * apply shrinks_getDisk.
      * now intros fs' st' _.
Qed.

(** The script neither runs out of fuel nor loops: it finishes or it
    throws. *)
Lemma generate_ends (fs : list entry) :
  fst (Generator.generate fs) <> OutOfFuel.
Proof.
  unfold Generator.generate.
  apply (fuelled_buildNode (height fs)); simpl; lia.
Qed.

End GeneratorEnds.
(** C9.  A run of the generator over any collection never writes the
    media-listing file of the collection root; the run ends, and when it
    has finished the root holds no such file, whatever it held before
    and whatever media the root contains. *)
Theorem generator_never_writes_root_images {host : Host} (fs : list entry) :
  Forall (fun ev => writesRootImages ev = false)
    (trace (snd (Generator.generate fs)))
  /\ fst (Generator.generate fs) <> OutOfFuel
  /\ (forall manifest,
        fst (Generator.generate fs) = Finished manifest ->
        rootImagesFile (disk (snd (Generator.generate fs))) = false
        /\ readFileSync (disk (snd (Generator.generate fs))) []
             (js ".images") = None).
Proof.
  split; [|split].
  - apply (buildNode_root_images (S (height fs)) Build.ROOT [] fs).
  - apply generate_ends.
  - apply (buildNode_root_images (S (height fs)) Build.ROOT [] fs).
Qed.

(** The script on a root that holds a stale media-listing file, media of
    its own and one gallery: the file is unlinked, [.folders] is written
    at the root, [.images] in the gallery only. *)
Lemma generator_never_writes_root_images_witness :
  readFileSync fsStaleRoot [] (js ".images") = Some (js "old.jpg" ++ [10%N])
  /\ trace (snd (Generator.generate (host := asciiHost) fsStaleRoot))
     = [ Wrote [] (js ".folders") (js "G" ++ [10%N]);
         Unlinked [] (js ".images");
         Wrote [js "G"] (js ".images") (js "g.jpg" ++ [10%N]) ]
  /\ (exists manifest,
        fst (Generator.generate (host := asciiHost) fsStaleRoot)
        = Finished manifest)
  /\ readFileSync (disk (snd (Generator.generate (host := asciiHost) fsStaleRoot)))
       [] (js ".images") = None.
Proof.
  split; [reflexivity|].
  split; [vm_compute; reflexivity|].
  assert (F : exists manifest,
             fst (Generator.generate (host := asciiHost) fsStaleRoot)
             = Finished manifest)
    by (eexists; vm_compute; reflexivity).
  split; [exact F|].
  destruct F as [manifest F].
  exact (proj2 (proj2 (proj2 (@generator_never_writes_root_images asciiHost
                                fsStaleRoot)) manifest F)).
Defined.

(* ================================================================== *)
(** * Further properties of the engine *)
(* ================================================================== *)

(** ** lib/gallery/order.ts *)

Lemma includes_applyOrder (items desired : list jsstring) (x : jsstring) :
  includes (Order.applyOrder items desired) x = includes items x.
Proof.
  destruct (includes items x) eqn:E.
  - apply includes_In, In_applyOrder, includes_In, E.
  - apply includes_not_In. rewrite In_applyOrder. apply includes_not_In, E.
Qed.

Lemma filter_nothing {A} (P : A -> bool) (l : list A) :
  (forall x, In x l -> P x = false) -> filter P l = [].
Proof.
  induction l as [|a l IH]; intros H; simpl; [reflexivity|].
  rewrite (H a (or_introl eq_refl)). apply IH. intros x Hx. apply H. now right.
Qed.

Lemma filter_idem {A} (P : A -> bool) (l : list A) :
  filter P (filter P l) = filter P l.
Proof.
  induction l as [|a l IH]; simpl; [reflexivity|].
  destruct (P a) eqn:E; simpl; [rewrite E; f_equal|]; exact IH.
Qed.

(** X1.  Ordering an ordered list again by the same names changes nothing. *)
Theorem applyOrder_idempotent (items desired : list jsstring) :
  Order.applyOrder (Order.applyOrder items desired) desired
  = Order.applyOrder items desired.
Proof.
  rewrite (applyOrder_eq (Order.applyOrder items desired)).
  rewrite (filter_ext _ (fun n => includes items n)
             (fun n => includes_applyOrder items desired n)).
  rewrite (applyOrder_eq items desired) at 1.
  rewrite filter_app, filter_idem.
  rewrite (filter_nothing (fun n => negb (includes desired n))
             (filter (fun n => includes items n) desired)).
  - symmetry. apply applyOrder_eq.
  - intros x Hx. apply filter_In in Hx as [Hx _].
    apply includes_In in Hx. now rewrite Hx.
Qed.

Lemma count_occ_filter (P : jsstring -> bool) (l : list jsstring) (x : jsstring) :
  count_occ str_dec (filter P l) x = if P x then count_occ str_dec l x else 0.
Proof.
  induction l as [|a l IH]; simpl.
  - now destruct (P x).
  - destruct (P a) eqn:Ea; simpl; destruct (str_dec a x) as [->|Hne].
    + rewrite IH, Ea. reflexivity.
    + exact IH.
    + rewrite IH, Ea. reflexivity.
    + exact IH.
Qed.

Lemma count_occ_includes (l : list jsstring) (x : jsstring) :
  includes l x = false -> count_occ str_dec l x = 0.
Proof.
  intros H. apply count_occ_not_In. now apply includes_not_In.
Qed.

(** X2.  How often a name comes out of [applyOrder]: an item that the order
    list names comes out as often as the order list names it, whatever
    its number among the items; an item that it does not name keeps its
    number; a name that is no item never comes out. *)
Theorem applyOrder_multiplicity (items desired : list jsstring) (x : jsstring) :
  count_occ str_dec (Order.applyOrder items desired) x
  = if includes items x
    then if includes desired x
         then count_occ str_dec desired x
         else count_occ str_dec items x
    else 0.
Proof.
  rewrite applyOrder_eq, count_occ_app, !count_occ_filter.
  destruct (includes items x) eqn:Ei, (includes desired x) eqn:Ed; simpl; try lia.
  - now rewrite (count_occ_includes _ _ Ed).
  - now rewrite (count_occ_includes _ _ Ei).
Qed.
(** *** Characters of trimmed strings and of lines *)

Lemma In_trimStart (s : jsstring) (c : N) : In c (trimStart s) -> In c s.
Proof.
  destruct (trimStart_suffix s) as [pre H]. intros Hin.
  rewrite H. apply in_or_app. now right.
Qed.

Lemma In_trim (s : jsstring) (c : N) : In c (trim s) -> In c s.
Proof.
  unfold trim. intros H. apply in_rev in H.
  apply In_trimStart in H. apply in_rev in H. now apply In_trimStart.
Qed.

Lemma In_splitLines (s l : jsstring) (c : N) :
  In l (splitLines s) -> In c l -> In c s.
Proof.
  revert l. induction s as [|d s IH]; intros l Hl Hc.
  - simpl in Hl. destruct Hl as [<-|[]]. destruct Hc.
  - assert (Hcons : In l (match splitLines s with
                          | seg :: segs => (d :: seg) :: segs
                          | [] => [[d]]
                          end) -> In c (d :: s)).
    { destruct (splitLines s) as [|seg segs] eqn:E; simpl.
      - intros [<-|[]]. destruct Hc as [<-|[]]. now left.
      - intros [<-|H].
        + destruct Hc as [<-|Hc]; [now left|]. right.
          apply (IH seg); [now left | exact Hc].
        + right. apply (IH l); [now right | exact Hc]. }
    simpl in Hl. destruct (N.eqb d 10).
    + destruct Hl as [<-|Hl]; [destruct Hc|]. right. now apply (IH l).
    + destruct (N.eqb d 13); [|now apply Hcons].
      destruct s as [|e s']; [now apply Hcons|].
      destruct (N.eqb e 10); [|now apply Hcons].
      right. now apply (IH l).
Qed.

(** X3.  The lines of [.order]: no file, no names; otherwise every name is
    non-empty, has no white space at either end, is no comment of
    either kind and holds no byte-order mark. *)
Theorem readOrder_lines (fs : list entry) (absDir : list jsstring) :
  (readFileSync fs absDir (js ".order") = None -> Order.readOrder fs absDir = [])
  /\ Forall (fun l => l <> []
                      /\ trim l = l
                      /\ startsWith l (js "#") = false
                      /\ startsWith l (js "//") = false
                      /\ ~ In 65279%N l)
            (Order.readOrder fs absDir).
Proof.
  unfold Order.readOrder. split.
  - intros ->. now destruct (negb _).
  - destruct (negb _); [constructor|].
    destruct (readFileSync fs absDir (js ".order")) as [raw|]; [|constructor].
    apply Forall_forall. intros l Hl.
    apply filter_In in Hl as [Hl Hp].
    apply andb_true_iff in Hp as [Hp H2]. apply andb_true_iff in Hp as [H0 H1].
    apply negb_true_iff in H1, H2.
    apply in_map_iff in Hl as [l0 [<- Hl0]].
    repeat split; auto.
    + intros E. rewrite E in H0. discriminate.
    + apply trim_idempotent.
    + intros Hin. apply In_trim in Hin.
      apply (In_splitLines _ _ _ Hl0) in Hin.
      apply filter_In in Hin as [_ Hin]. discriminate.
Qed.

(** An [.order] file with a byte-order mark, a comment of each kind, a
    blank line and a padded name. *)
Lemma readOrder_lines_witness :
  Order.readOrder
    [File (js ".order")
       ([65279%N] ++ js "# first" ++ [13%N; 10%N] ++ js "// second" ++ [10%N]
        ++ [10%N] ++ js "  b.jpg  " ++ [10%N] ++ js "a.jpg")] []
  = [js "b.jpg"; js "a.jpg"]
  /\ Order.readOrder [File (js "x.jpg") []] [] = [].
Proof.
  split; [reflexivity|].
  apply (proj1 (readOrder_lines [File (js "x.jpg") []] [])). reflexivity.
Defined.

(** ** lib/gallery/paths.ts *)

Lemma joinWith_snoc (sep : jsstring) (l : list jsstring) (x : jsstring) :
  l <> [] -> joinWith sep (l ++ [x]) = joinWith sep l ++ sep ++ x.
Proof.
  induction l as [|a l IH]; intros Hne; [contradiction|].
  destruct l as [|b l]; [reflexivity|].
  change (a ++ sep ++ joinWith sep ((b :: l) ++ [x])
          = (a ++ sep ++ joinWith sep (b :: l)) ++ sep ++ x).
  rewrite IH by discriminate. now rewrite <- !app_assoc.
Qed.

Lemma slugToWebPath_snoc (p : list jsstring) (x : jsstring) :
  Cover.slugToWebPath (p ++ [x]) = Cover.slugToWebPath p ++ js "/" ++ x.
Proof.
  unfold Cover.slugToWebPath.
  change (js "Portfolio" :: p ++ [x]) with ((js "Portfolio" :: p) ++ [x]).
  rewrite joinWith_snoc by discriminate. now rewrite <- !app_assoc.
Qed.

Lemma find_split {A} (P : A -> bool) (l : list A) (x : A) :
  find P l = Some x ->
  exists pre post,
    l = pre ++ x :: post /\ P x = true /\ Forall (fun y => P y = false) pre.
Proof.
  induction l as [|a l IH]; simpl; [discriminate|].
  destruct (P a) eqn:E.
  - intros [= <-]. exists [], l. repeat split; auto.
  - intros H. destruct (IH H) as [pre [post [-> [Hx Hpre]]]].
    exists (a :: pre), post. repeat split; auto.
Qed.

Section FirstImage.
Context {host : Host}.

(** X4.  [firstImageInDir] yields the address of the first name of the
    listing that is a file with a media extension; it yields nothing
    exactly when the listing holds no such name (in particular when the
    directory cannot be read). *)
Theorem firstImageInDir_first (fs : list entry) (relParts : list jsstring) :
  match Paths.firstImageInDir fs relParts with
  | Some w =>
      exists pre e post,
        Paths.readDirSafe fs relParts = pre ++ e :: post
        /\ w = Cover.slugToWebPath (relParts ++ [e])
        /\ (exists n c, statSync fs relParts e = Some (File n c))
        /\ Paths.isImageFile e = true
        /\ Forall (fun x => (exists n c, statSync fs relParts x = Some (File n c)) ->
                            Paths.isImageFile x = false) pre
  | None =>
      forall e n c,
        In e (Paths.readDirSafe fs relParts) ->
        statSync fs relParts e = Some (File n c) ->
        Paths.isImageFile e = false
  end.
Proof.
  unfold Paths.firstImageInDir.
  destruct (find _ (Paths.readDirSafe fs relParts)) as [e|] eqn:E.
  - apply find_split in E as [pre [post [Hl [He Hpre]]]].
    exists pre, e, post. split; [exact Hl|].
    split; [symmetry; apply slugToWebPath_snoc|].
    destruct (statSync fs relParts e) as [[n c|n sub]|]; try discriminate.
    split; [now exists n, c|]. split; [exact He|].
    eapply Forall_impl; [|exact Hpre]. cbv beta.
    intros x Hx [n' [c' Hs]]. now rewrite Hs in Hx.
  - intros e n c Hin Hs.
    pose proof (find_none _ _ E e Hin) as H. cbv beta in H.
    now rewrite Hs in H.
Qed.

End FirstImage.

(** ** lib/gallery/cover.ts: path parts *)

Lemma plainSegment_keep (s : jsstring) :
  plainSegment s ->
  negb (truthy s) || str_eqb s (js ".") = false /\ str_eqb s (js "..") = false.
Proof.
  intros [H0 [H1 H2]]. split.
  - apply orb_false_iff. split.
    + destruct s; [contradiction | reflexivity].
    + now apply str_eqb_neq.
  - now apply str_eqb_neq.
Qed.

Lemma Forall_removelast {A} (P : A -> Prop) (l : list A) :
  Forall P l -> Forall P (removelast l).
Proof.
  induction l as [|a l IH]; intros H; simpl; [constructor|].
  inversion H; subst. destruct l; [constructor|].
  constructor; auto.
Qed.

Lemma length_removelast_le {A} (l : list A) :
  List.length (removelast l) <= List.length l.
Proof.
  induction l as [|a l IH]; simpl; [lia|].
  destruct l; simpl in *; lia.
Qed.

Lemma normalizeLoop_plain (parts out : list jsstring) :
  Forall plainSegment out -> Forall plainSegment (Cover.normalizeLoop out parts).
Proof.
  revert out. induction parts as [|p ps IH]; intros out Hout; simpl; [exact Hout|].
  destruct (negb (truthy p) || str_eqb p (js ".")) eqn:E1; [now apply IH|].
  destruct (str_eqb p (js "..")) eqn:E2.
  - apply IH. now apply Forall_removelast.
  - apply IH. apply Forall_app. split; [exact Hout|].
    constructor; [|constructor].
    apply orb_false_iff in E1 as [E0 E1].
    repeat split.
    + intros ->. discriminate.
    + now apply str_eqb_neq.
    + now apply str_eqb_neq.
Qed.

Lemma normalizeLoop_keeps (parts out : list jsstring) :
  Forall plainSegment parts -> Cover.normalizeLoop out parts = out ++ parts.
Proof.
  revert out. induction parts as [|p ps IH]; intros out H; simpl.
  - now rewrite app_nil_r.
  - inversion H as [|? ? Hp Hps]; subst.
    destruct (plainSegment_keep p Hp) as [-> ->].
    rewrite IH by assumption. now rewrite <- app_assoc.
Qed.

Lemma normalizeLoop_length (parts out : list jsstring) :
  List.length (Cover.normalizeLoop out parts)
  <= List.length out + List.length parts.
Proof.
  revert out. induction parts as [|p ps IH]; intros out; simpl; [lia|].
  destruct (negb (truthy p) || str_eqb p (js ".")).
  - specialize (IH out). lia.
  - destruct (str_eqb p (js "..")).
    + specialize (IH (removelast out)).
      pose proof (length_removelast_le out). lia.
    + specialize (IH (out ++ [p])). rewrite length_app in IH. simpl in IH. lia.
Qed.

Lemma normalizeParts_plain (parts : list jsstring) :
  Forall plainSegment (Cover.normalizeParts parts).
Proof.
  unfold Cover.normalizeParts. apply normalizeLoop_plain. constructor.
Qed.

(** X5.  [normalizeParts] yields plain segments only (none empty, none [.]
    or [..]), never more than it was given, leaves a list of plain
    segments as it is, and so does nothing when applied twice. *)
Theorem normalizeParts_normal (parts : list jsstring) :
  Forall plainSegment (Cover.normalizeParts parts)
  /\ List.length (Cover.normalizeParts parts) <= List.length parts
  /\ (Forall plainSegment parts -> Cover.normalizeParts parts = parts)
  /\ Cover.normalizeParts (Cover.normalizeParts parts) = Cover.normalizeParts parts.
Proof.
  unfold Cover.normalizeParts.
  assert (Hplain : Forall plainSegment (Cover.normalizeLoop [] parts))
    by (apply normalizeLoop_plain; constructor).
  split; [exact Hplain|].
  split; [apply (normalizeLoop_length parts [])|].
  split; [intros H; now apply (normalizeLoop_keeps parts [])|].
  now apply (normalizeLoop_keeps _ []).
Qed.

(** A path that climbs out of a sub-directory and above the root. *)
Lemma normalizeParts_normal_witness :
  Cover.normalizeParts [js "A"; []; js "."; js "B"; js ".."; js ".."; js "..";
                        js "C"; js "x.jpg"]
  = [js "C"; js "x.jpg"]
  /\ Cover.normalizeParts [js "C"; js "x.jpg"] = [js "C"; js "x.jpg"].
Proof.
  split; [reflexivity|].
  apply (proj1 (proj2 (proj2 (normalizeParts_normal [js "C"; js "x.jpg"])))).
  repeat constructor; discriminate.
Defined.

Section LineToParts.
Context {host : Host}.

(** X6.  What [resolveLineToSlugParts] rejects, and the shape of what it
    accepts: a line is rejected exactly when it is blank, a comment, or
    begins with a slash without naming a path under [Portfolio/]; the
    parts of an accepted line are plain segments. *)
Theorem resolveLineToSlugParts_accepts (rawLine : jsstring)
    (currentSlugParts : list jsstring) :
  (Cover.resolveLineToSlugParts rawLine currentSlugParts = None
   <-> blankOrComment rawLine
       \/ (testPortfolioPrefix
             (dropLeadingSlashes
                (backslashesToSlashes (trim (Cover.stripWeirdPrefix rawLine))))
           = false
           /\ startsWith rawLine (js "/") = true))
  /\ (forall parts,
        Cover.resolveLineToSlugParts rawLine currentSlugParts = Some parts ->
        Forall plainSegment parts).
Proof.
  unfold Cover.resolveLineToSlugParts, blankOrComment.
  set (line := trim (Cover.stripWeirdPrefix rawLine)).
  set (cleaned := dropLeadingSlashes (backslashesToSlashes line)).
  destruct (negb (truthy line) || startsWith line (js "#")) eqn:E.
  - split; [|discriminate]. split; [intros _; left|reflexivity].
    apply orb_true_iff in E as [E|E]; [left|now right].
    destruct line; [reflexivity|discriminate].
  - apply orb_false_iff in E as [E0 E1].
    assert (Hnb : ~ (line = [] \/ startsWith line (js "#") = true)).
    { intros [H|H]; [rewrite H in E0; discriminate | congruence]. }
    destruct (testPortfolioPrefix cleaned) eqn:Ep.
    + split.
      * split; [discriminate|]. intros [H|[H _]]; [contradiction|discriminate].
      * intros parts [= <-]. apply normalizeParts_plain.
    + destruct (startsWith rawLine (js "/")) eqn:Es.
      * split; [|discriminate]. split; [intros _; now right | reflexivity].
      * split.
        -- split; [discriminate|]. intros [H|[_ H]]; [contradiction|discriminate].
        -- intros parts [= <-]. apply normalizeParts_plain.
Qed.

End LineToParts.

(** An alias line that climbs out of the gallery [A/B]. *)
Lemma resolveLineToSlugParts_accepts_witness :
  Cover.resolveLineToSlugParts (host := asciiHost) (js "  ../C/./x.jpg ")
    [js "A"; js "B"] = Some [js "A"; js "C"; js "x.jpg"]
  /\ Forall plainSegment [js "A"; js "C"; js "x.jpg"].
Proof.
  split; [reflexivity|].
  apply (proj2 (@resolveLineToSlugParts_accepts asciiHost (js "  ../C/./x.jpg ")
                  [js "A"; js "B"])).
  reflexivity.
Defined.

(** ** lib/gallery/cover.ts: case correction and search *)

Lemma find_first {A} (P : A -> bool) (pre post : list A) (x : A) :
  Forall (fun y => P y = false) pre -> P x = true ->
  find P (pre ++ x :: post) = Some x.
Proof.
  induction pre as [|a pre IH]; intros Hpre Hx; simpl.
  - now rewrite Hx.
  - inversion Hpre; subst. rewrite H1. now apply IH.
Qed.

Section CaseCorrection.
Context {host : Host}.

(** The entry that a segment denotes in a listing: the one of that
    name, else the first that equals it up to case. *)
Lemma correctCase_match_again (entries : list entry) (seg : jsstring) (m : entry) :
  orElse (find (fun e => str_eqb (entryName e) seg) entries)
         (find (fun e => str_eqb (toLowerCase (entryName e)) (toLowerCase seg))
               entries) = Some m ->
  toLowerCase (entryName m) = toLowerCase seg
  /\ orElse (find (fun e => str_eqb (entryName e) (entryName m)) entries)
            (find (fun e => str_eqb (toLowerCase (entryName e))
                                    (toLowerCase (entryName m))) entries)
     = Some m.
Proof.
  destruct (find (fun e => str_eqb (entryName e) seg) entries) as [m0|] eqn:E1;
    simpl.
  - intros [= ->]. pose proof (find_some _ _ E1) as [_ He].
    apply str_eqb_eq in He. rewrite He. split; [reflexivity|].
    now rewrite E1.
  - intros E2. apply find_split in E2 as [pre [post [-> [He Hpre]]]].
    apply str_eqb_eq in He. split; [exact He|].
    rewrite (find_first (fun e => str_eqb (entryName e) (entryName m))).
    + reflexivity.
    + eapply Forall_impl; [|exact Hpre]. cbv beta. intros e Hlow.
      apply str_eqb_neq. intros Hn. apply str_eqb_neq in Hlow.
      apply Hlow. now rewrite Hn.
    + apply str_eqb_refl.
Qed.

Lemma correctCaseLoop_again (fs : list entry) (parts : list jsstring) :
  forall (dir corrected c : list jsstring),
    Cover.correctCaseLoop fs dir corrected parts = Some c ->
    exists c',
      c = corrected ++ c'
      /\ Forall2 (fun a b => toLowerCase a = toLowerCase b) c' parts
      /\ forall corrected',
           Cover.correctCaseLoop fs dir corrected' c' = Some (corrected' ++ c').
Proof.
  induction parts as [|seg rest IH]; intros dir corrected c; simpl.
  - intros [= <-]. exists []. rewrite app_nil_r. repeat split; [constructor|].
    intros corrected'. now rewrite app_nil_r.
  - destruct (readdirSync fs dir) as [entries|] eqn:Er; [|discriminate].
    destruct (orElse _ _) as [m|] eqn:Em; [|discriminate].
    apply correctCase_match_again in Em as [Hlow Hagain].
    destruct rest as [|seg' rest'].
    + intros [= <-]. exists [entryName m]. repeat split.
      * constructor; [exact Hlow | constructor].
      * intros corrected'. simpl. now rewrite Er, Hagain.
    + destruct (isDirectory m) eqn:Ed; [|discriminate].
      intros H. apply IH in H as [c' [-> [Hall Hfix]]].
      exists (entryName m :: c'). repeat split.
      * now rewrite <- app_assoc.
      * constructor; assumption.
      * intros corrected'. simpl. rewrite Er, Hagain.
        inversion Hall; subst. rewrite Ed, Hfix.
        now rewrite <- app_assoc.
Qed.

(** X7.  A corrected path has as many segments as the path given, differs
    from it in case only, and is corrected to itself. *)
Theorem correctCaseUnderPortfolio_fixed (fs : list entry)
    (parts corrected : list jsstring) :
  Cover.correctCaseUnderPortfolio fs parts = Some corrected ->
  Forall2 (fun a b => toLowerCase a = toLowerCase b) corrected parts
  /\ Cover.correctCaseUnderPortfolio fs corrected = Some corrected.
Proof.
  unfold Cover.correctCaseUnderPortfolio. intros H.
  apply correctCaseLoop_again in H as [c' [-> [Hall Hfix]]].
  simpl. split; [exact Hall|]. apply (Hfix []).
Qed.

End CaseCorrection.

(** A path written in the wrong case, and one that does not exist. *)
Lemma correctCaseUnderPortfolio_fixed_witness :
  Cover.correctCaseUnderPortfolio (host := asciiHost) fsDeep
    [js "d"; js "A"; js "M"; js "n"; js "sibling.jpg"]
  = Some [js "D"; js "a"; js "m"; js "n"; js "Sibling.JPG"]
  /\ Cover.correctCaseUnderPortfolio (host := asciiHost) fsDeep
       [js "D"; js "a"; js "m"; js "n"; js "Sibling.JPG"]
     = Some [js "D"; js "a"; js "m"; js "n"; js "Sibling.JPG"]
  /\ Cover.correctCaseUnderPortfolio (host := asciiHost) fsDeep
       [js "D"; js "a"; js "first.jpg"; js "n"] = None.
Proof.
  split; [reflexivity|]. split; [|reflexivity].
  apply (proj2 (@correctCaseUnderPortfolio_fixed asciiHost fsDeep
                  [js "d"; js "A"; js "M"; js "n"; js "sibling.jpg"] _ eq_refl)).
Defined.

Section SearchPath.
Context {host : Host}.
Variable le : jsstring -> jsstring -> bool.
Variable fs : list entry.

Lemma In_subdirsOf (p p' : list jsstring) :
  In p' (subdirsOf le fs p) ->
  exists d, p' = p ++ [d] /\ startsWith d (js ".") = false.
Proof.
  unfold subdirsOf. destruct (readdirSync fs p) as [es|]; [|intros []].
  intros H. apply in_map_iff in H as [d [<- Hd]]. exists d. split; [reflexivity|].
  apply (Permutation_in _ (Permutation_sym (subdirNames_Permutation le es))) in Hd.
  apply in_map_iff in Hd as [e [<- He]]. apply filter_In in He as [_ He].
  apply andb_true_iff in He as [_ He]. now apply negb_true_iff.
Qed.

Lemma In_levelsFrom (k : nat) :
  forall (q : list (list jsstring)) (p : list jsstring),
    In p (levelsFrom le fs k q) ->
    exists p0 mid,
      In p0 q /\ p = p0 ++ mid
      /\ Forall (fun d => startsWith d (js ".") = false) mid.
Proof.
  induction k as [|k IH]; intros q p; simpl; [intros []|].
  intros H. apply in_app_or in H as [H|H].
  - exists p, []. rewrite app_nil_r. repeat split; auto.
  - apply IH in H as [p1 [mid [H1 [-> Hmid]]]].
    apply in_flat_map in H1 as [p0 [H0 H1]].
    apply In_subdirsOf in H1 as [d [-> Hd]].
    exists p0, (d :: mid). repeat split; auto.
    now rewrite <- app_assoc.
Qed.

(** X8.  What the search finds lies below the start directory, on a way
    that enters no dot-directory, and is a file whose name is the
    target up to case. *)
Theorem search_stays_below (startSlugParts : list jsstring)
    (target : jsstring) (found : list jsstring) :
  Cover.bfsFrom le fs startSlugParts target = Some found ->
  exists start mid f es e,
    Cover.correctCaseUnderPortfolio fs startSlugParts = Some start
    /\ found = start ++ mid ++ [f]
    /\ Forall (fun d => startsWith d (js ".") = false) mid
    /\ readdirSync fs (start ++ mid) = Some es
    /\ In e es /\ isFile e = true /\ entryName e = f
    /\ (f = target \/ toLowerCase f = toLowerCase target).
Proof.
  rewrite bfsFrom_levelOrder.
  destruct (Cover.correctCaseUnderPortfolio fs startSlugParts) as [start|];
    [|discriminate].
  unfold levelOrderSearch. intros H.
  apply firstHit_sound in H as [p [Hp Hhit]].
  apply In_levelsFrom in Hp as [p0 [mid [[<-|[]] [-> Hmid]]]].
  apply hitIn_sound in Hhit as [es [f [e [-> [Hes [Hin [Hf [Hn Hc]]]]]]]].
  exists start, mid, f, es, e. rewrite <- app_assoc. repeat split; auto.
Qed.

End SearchPath.

(** The target lies in a dot-directory and, in another case, three
    levels down: the search yields the latter. *)
Lemma search_stays_below_witness :
  Cover.findFileUnderPortfolioBFS (host := asciiHost)
    [ Dir (js "D")
        [ Dir (js ".keep") [ File (js "sibling.jpg") [] ];
          Dir (js "a") [ Dir (js "m") [ File (js "Sibling.JPG") [] ] ] ] ]
    [js "d"] (js "sibling.jpg")
  = Some [js "D"; js "a"; js "m"; js "Sibling.JPG"]
  /\ exists start mid f es e,
       Cover.correctCaseUnderPortfolio (host := asciiHost)
         [ Dir (js "D")
             [ Dir (js ".keep") [ File (js "sibling.jpg") [] ];
               Dir (js "a") [ Dir (js "m") [ File (js "Sibling.JPG") [] ] ] ] ]
         [js "d"] = Some start
       /\ [js "D"; js "a"; js "m"; js "Sibling.JPG"] = start ++ mid ++ [f]
       /\ Forall (fun d => startsWith d (js ".") = false) mid
       /\ readdirSync
            [ Dir (js "D")
                [ Dir (js ".keep") [ File (js "sibling.jpg") [] ];
                  Dir (js "a") [ Dir (js "m") [ File (js "Sibling.JPG") [] ] ] ] ]
            (start ++ mid) = Some es
       /\ In e es /\ isFile e = true /\ entryName e = f
       /\ (f = js "sibling.jpg"
           \/ toLowerCase (Host := asciiHost) f
              = toLowerCase (Host := asciiHost) (js "sibling.jpg")).
Proof.
  split; [reflexivity|].
  apply (@search_stays_below asciiHost (@localeLe asciiHost) _ [js "d"]
           (js "sibling.jpg")).
  reflexivity.
Defined.

(** ** lib/gallery/build.ts: the live index shows what is on disk *)

Section LiveIndex.
Context {host : Host}.

Lemma scan_images_In (fs : list entry) (relParts : list jsstring) (img : jsstring) :
  In img (snd (Build.scan fs relParts)) ->
  Paths.isImageFile img = true
  /\ exists nm c, statSync fs relParts img = Some (File nm c).
Proof.
  unfold Build.scan. cbn [fst snd]. intros H.
  apply In_applyOrder in H. apply filter_In in H as [H Himg].
  split; [exact Himg|].
  apply filter_In in H as [_ H].
  destruct (statSync fs relParts img) as [[nm c|]|]; try discriminate.
  now exists nm, c.
Qed.

Lemma own_media_inside (fs : list entry) (relParts : list jsstring)
    (img : jsstring) (e : entry) :
  statSync fs relParts img = Some e ->
  insideCollection fs (Cover.slugToWebPath relParts ++ js "/" ++ img).
Proof.
  intros H. exists relParts, img, e. split; [|exact H].
  symmetry. apply slugToWebPath_snoc.
Qed.

Lemma resolveCoverRule3_inside (fs : list entry) (cs : list GalleryNode)
    (cv : jsstring) :
  Forall (showsDirectory fs) cs ->
  Cover.resolveCoverRule3 cs = Some cv -> insideCollection fs cv.
Proof.
  induction cs as [|c cs IH]; intros Hall; simpl; [discriminate|].
  inversion Hall as [|? ? Hc Hcs]; subst.
  destruct Hc as [p [es [Hw [Hes [Himgs Hcov]]]]].
  assert (Hcover : match coverWebPath c with
                   | Some cv0 => if truthy cv0 then Some cv0
                                 else Cover.resolveCoverRule3 cs
                   | None => Cover.resolveCoverRule3 cs
                   end = Some cv -> insideCollection fs cv).
  { destruct (coverWebPath c) as [cv0|]; [|now apply IH].
    destruct (truthy cv0); [|now apply IH].
    intros [= <-]. now apply Hcov. }
  destruct (images c) as [[|img l]|] eqn:Ei; try exact Hcover.
  destruct (truthy (webPath c)); [|exact Hcover].
  intros [= <-]. rewrite Hw.
  destruct (Himgs (img :: l) img eq_refl (or_introl eq_refl)) as [_ [nm [ct Hs]]].
  eapply own_media_inside, Hs.
Qed.

Lemma resolveCover_inside (fs : list entry) (relParts dotDirs imagesHere : list jsstring)
    (cs : list GalleryNode) (childDirs : list jsstring) (cv : jsstring) :
  (forall img, In img imagesHere -> exists e, statSync fs relParts img = Some e) ->
  Forall (showsDirectory fs) cs ->
  Cover.resolveCover fs relParts relParts dotDirs imagesHere
    (Cover.slugToWebPath relParts) cs childDirs = Some cv ->
  insideCollection fs cv.
Proof.
  intros Himgs Hcs. unfold Cover.resolveCover.
  destruct (Cover.resolveCoverRule1 fs relParts relParts) as [w|] eqn:E1.
  - intros [= <-]. eapply resolveCoverRule1_inside, E1.
  - destruct imagesHere as [|only [|second rest]];
      try (now apply resolveCoverRule3_inside).
    intros [= <-]. destruct (Himgs only (or_introl eq_refl)) as [e He].
    eapply own_media_inside, He.
Qed.

Lemma assemble_showsDirectory (fs : list entry) (absPath : jsstring)
    (relParts dotDirs imagesHere : list jsstring) (cs : list GalleryNode)
    (es : list entry) :
  readdirSync fs relParts = Some es ->
  (forall img, In img imagesHere ->
     Paths.isImageFile img = true
     /\ exists nm c, statSync fs relParts img = Some (File nm c)) ->
  Forall (showsDirectory fs) cs ->
  showsDirectory fs (Build.assemble fs absPath relParts dotDirs imagesHere cs).
Proof.
  intros Hes Himgs Hcs.
  assert (Hex : forall img, In img imagesHere ->
                            exists e, statSync fs relParts img = Some e).
  { intros img Hin. destruct (Himgs img Hin) as [_ [nm [c Hs]]]. eauto. }
  assert (Hfirst : forall img, In img imagesHere ->
            insideCollection fs (Cover.slugToWebPath relParts ++ js "/" ++ img)).
  { intros img Hin. destruct (Hex img Hin) as [e He].
    eapply own_media_inside, He. }
  assert (Hno : forall c alt cv,
            (forall cv0, c = Some cv0 -> insideCollection fs cv0) ->
            insideCollection fs alt ->
            Build.ifNoCover c alt = Some cv -> insideCollection fs cv).
  { intros c alt cv Hc Halt. unfold Build.ifNoCover.
    destruct c as [s|]; [destruct (truthy s)|]; intros [= <-]; auto. }
  exists relParts, es. unfold Build.assemble.
  fold (Cover.slugToWebPath relParts).
  set (cover := Cover.resolveCover fs relParts relParts dotDirs imagesHere
                  (Cover.slugToWebPath relParts) cs _).
  assert (Hcover : forall cv0, cover = Some cv0 -> insideCollection fs cv0).
  { intros cv0 H. eapply resolveCover_inside; [exact Hex | exact Hcs | exact H]. }
  clearbody cover.
  destruct cs as [|c cs']; [destruct imagesHere as [|i [|j l]]|];
    cbn [List.length Nat.eqb webPath images coverWebPath];
    (split; [reflexivity|]); (split; [exact Hes|]); split;
    try (intros l0 img [= <-] Hin; apply Himgs; exact Hin);
    try discriminate; try exact Hcover.
  - intros cv H. eapply Hno; [exact Hcover | | exact H].
    apply Hfirst. now left.
  - intros cv H. eapply Hno; [exact Hcover | | exact H].
    apply Hfirst. now left.
Qed.

Lemma buildNode_showsDirectory (fuel : nat) :
  forall (fs : list entry) (absPath : jsstring) (relParts : list jsstring)
         (siblings : nat) (es : list entry) (node : GalleryNode),
    readdirSync fs relParts = Some es ->
    Build.buildNode fuel fs absPath relParts siblings = Some node ->
    Forall (showsDirectory fs) (nodesOf node).
Proof.
  induction fuel as [|fuel IH];
    intros fs absPath relParts siblings es node Hes; [discriminate|].
  rewrite buildNode_S.
  destruct (mapM _ _) as [cs|] eqn:Hcs; [|discriminate].
  intros [= <-].
  assert (Hall : Forall (fun c => Forall (showsDirectory fs) (nodesOf c)) cs).
  { eapply mapM_Forall; [|exact Hcs]. intros d c Hd Hc.
    apply scan_normalDirs_In in Hd as [n [sub Hd]].
    apply readdirSync_child_height in Hd as [es' [_ [Hsub _]]].
    eapply IH; [exact Hsub | exact Hc]. }
  rewrite nodesOf_eq. constructor.
  - eapply assemble_showsDirectory; [exact Hes | apply scan_images_In |].
    eapply Forall_impl; [|exact Hall]. intros c Hc. cbv beta in Hc.
    rewrite nodesOf_eq in Hc. now inversion Hc.
  - destruct (children (Build.assemble _ _ _ _ _ cs)) as [l|] eqn:Hl; [|constructor].
    apply Forall_forall. intros n Hn. apply in_flat_map in Hn as [c [Hc Hn]].
    rewrite Forall_forall in Hall.
    specialize (Hall c (assemble_children_In _ _ _ _ _ _ _ _ Hl Hc)).
    rewrite Forall_forall in Hall. auto.
Qed.

(** X9.  Every node of the index of a live scan shows a directory of the
    collection: its address names a directory, its media are media
    files of that directory, and its cover names an existing entry. *)
Theorem live_index_shows_disk (w : Build.World) (fs : list entry)
    (index : GalleryNode) :
  opt_is (Build.env_GALLERY_USE_MANIFEST w) (js "true") = false ->
  Build.portfolio w = Some fs ->
  Build.getGalleryIndex w = Ok index ->
  Forall (showsDirectory fs) (nodesOf index).
Proof.
  intros Henv Hfs. unfold Build.getGalleryIndex. rewrite Henv, Hfs.
  destruct (Build.buildNode _ _ _ _ _) as [n|] eqn:Hn; [|discriminate].
  intros [= <-]. eapply buildNode_showsDirectory; [|exact Hn]. reflexivity.
Qed.

End LiveIndex.

(** The live index of [fsDeep]. *)
Lemma live_index_shows_disk_witness :
  exists index,
    Build.getGalleryIndex (host := asciiHost) (liveWorld fsDeep) = Ok index
    /\ Forall (showsDirectory (host := asciiHost) fsDeep) (nodesOf index).
Proof.
  eexists. split; [reflexivity|].
  apply (@live_index_shows_disk asciiHost (liveWorld fsDeep) fsDeep _
           eq_refl eq_refl eq_refl).
Defined.

(** ** lib/dev-limit.ts *)

Section DevLimitFacts.
Context {host : Host}.

(** [maybeLimit] cuts a list to a prefix and does nothing to the whole
    list outside a development run or without a limit; applied twice it
    cuts no further. *)
Lemma maybeLimit_prefix {T} (items : list T) :
  (exists k, DevLimit.maybeLimit items = firstn k items)
  /\ (DevLimit.isDevRuntime = false \/ devGalleryLimit = None ->
      DevLimit.maybeLimit items = items)
  /\ (opt_is env_NEXT_PUBLIC_DEV (js "0") = true -> DevLimit.maybeLimit items = items)
  /\ DevLimit.maybeLimit (DevLimit.maybeLimit items) = DevLimit.maybeLimit items.
Proof.
  unfold DevLimit.maybeLimit.
  split; [|split; [|split]].
  - destruct (negb DevLimit.isDevRuntime).
    + exists (List.length items). now rewrite firstn_all.
    + destruct devGalleryLimit as [k|]; [now exists k|].
      exists (List.length items). now rewrite firstn_all.
  - intros [-> | ->]; [reflexivity|]. now destruct (negb _).
  - intros H. unfold DevLimit.isDevRuntime. now rewrite H.
  - destruct (negb DevLimit.isDevRuntime); [reflexivity|].
    destruct devGalleryLimit as [k|]; [|reflexivity].
    rewrite firstn_firstn. now rewrite Nat.min_id.
Qed.

End DevLimitFacts.

(** ** lib/gallery/build.ts: children follow the display order *)

Lemma mapM_map {A B C} (f : A -> option B) (g : B -> C) (h : A -> C)
    (l : list A) (bs : list B) :
  (forall a b, In a l -> f a = Some b -> g b = h a) ->
  mapM f l = Some bs -> map g bs = map h l.
Proof.
  revert bs. induction l as [|a l IH]; intros bs H; simpl.
  - now intros [= <-].
  - destruct (f a) as [b|] eqn:Hb; [|discriminate].
    destruct (mapM f l) as [bs'|] eqn:Hbs; [|discriminate].
    intros [= <-]. simpl. f_equal.
    + eapply H; [now left | exact Hb].
    + apply IH; [|reflexivity]. intros a' b' Hin. apply H. now right.
Qed.

Section DisplayOrder.
Context {host : Host}.

Lemma assemble_webPath (fs : list entry) (absPath : jsstring)
    (relParts dotDirs imagesHere : list jsstring) (cs : list GalleryNode) :
  webPath (Build.assemble fs absPath relParts dotDirs imagesHere cs)
  = Cover.slugToWebPath relParts.
Proof.
  unfold Build.assemble.
  destruct cs as [|c cs']; [destruct imagesHere as [|i [|j l]]|]; reflexivity.
Qed.

Lemma assemble_children (fs : list entry) (absPath : jsstring)
    (relParts dotDirs imagesHere : list jsstring) (cs : list GalleryNode) :
  children (Build.assemble fs absPath relParts dotDirs imagesHere cs)
  = match cs with
    | [] => None
    | _ :: _ => Some (if Nat.eqb (List.length relParts) 0
                      then DevLimit.maybeLimit cs else cs)
    end.
Proof.
  unfold Build.assemble.
  destruct cs as [|c cs']; [destruct imagesHere as [|i [|j l]]|]; reflexivity.
Qed.

Lemma buildNode_webPath (fuel : nat) (fs : list entry) (absPath : jsstring)
    (relParts : list jsstring) (siblings : nat) (node : GalleryNode) :
  Build.buildNode fuel fs absPath relParts siblings = Some node ->
  webPath node = Cover.slugToWebPath relParts.
Proof.
  destruct fuel as [|fuel]; [discriminate|]. rewrite buildNode_S.
  destruct (mapM _ _); [|discriminate]. intros [= <-]. apply assemble_webPath.
Qed.

(** X10.  The children of a node of the live scan are its sub-directories in
    the order of display, one node each: all of them below the root,
    and at the root a prefix of them, which is all of them outside a
    development run or without a limit.  A node has no child list
    exactly when it has no sub-directory to display. *)
Theorem children_follow_display_order (fuel : nat) (fs : list entry)
    (absPath : jsstring) (relParts : list jsstring) (siblings : nat)
    (node : GalleryNode) :
  Build.buildNode fuel fs absPath relParts siblings = Some node ->
  match children node with
  | None => displayDirs fs relParts = []
  | Some cs =>
      displayDirs fs relParts <> []
      /\ (exists k,
            map webPath cs
            = firstn k (map (fun d => Cover.slugToWebPath (relParts ++ [d]))
                            (displayDirs fs relParts)))
      /\ (relParts <> [] \/ DevLimit.isDevRuntime = false
          \/ devGalleryLimit = None ->
          map webPath cs
          = map (fun d => Cover.slugToWebPath (relParts ++ [d]))
                (displayDirs fs relParts))
  end.
Proof.
  destruct fuel as [|fuel]; [discriminate|]. rewrite buildNode_S.
  fold (displayDirs fs relParts).
  destruct (mapM _ _) as [cs|] eqn:Hcs; [|discriminate]. intros [= <-].
  assert (Hmap : map webPath cs
                 = map (fun d => Cover.slugToWebPath (relParts ++ [d]))
                       (displayDirs fs relParts)).
  { eapply mapM_map; [|exact Hcs]. intros d c _ Hc. cbv beta.
    eapply buildNode_webPath, Hc. }
  rewrite assemble_children.
  destruct cs as [|c cs'].
  - destruct (displayDirs fs relParts); [reflexivity | discriminate].
  - split; [destruct (displayDirs fs relParts); discriminate|].
    destruct (Nat.eqb (List.length relParts) 0) eqn:Eroot.
    + split.
      * destruct (proj1 (maybeLimit_prefix (c :: cs'))) as [k ->].
        exists k. now rewrite <- firstn_map, Hmap.
      * intros [H|H].
        -- destruct relParts; [contradiction | discriminate].
        -- now rewrite (proj1 (proj2 (maybeLimit_prefix (c :: cs'))) H).
    + split; [|intros _; exact Hmap].
      exists (List.length (c :: cs')).
      rewrite <- Hmap, <- (length_map webPath). now rewrite firstn_all.
Qed.

End DisplayOrder.

(** [fsThree]: the root list in production and under the development
    limit of two, and the list of [b]. *)
Lemma children_follow_display_order_witness :
  (exists node cs,
     Build.buildNode (host := asciiHost) 3 fsThree (js "/srv/site/public/Portfolio")
       [] 0 = Some node
     /\ children node = Some cs
     /\ map webPath cs = [js "/Portfolio/c"; js "/Portfolio/a"; js "/Portfolio/b"])
  /\ (exists node cs,
        Build.buildNode (host := devHost) 3 fsThree (js "/srv/site/public/Portfolio")
          [] 0 = Some node
        /\ children node = Some cs
        /\ map webPath cs = [js "/Portfolio/c"; js "/Portfolio/a"])
  /\ match
       option_map children
         (Build.buildNode (host := asciiHost) 2 fsThree
            (js "/srv/site/public/Portfolio/c") [js "c"] 3)
     with
     | Some None => displayDirs (host := asciiHost) fsThree [js "c"] = []
     | _ => False
     end.
Proof.
  split; [do 2 eexists; repeat split; reflexivity|].
  split; [do 2 eexists; repeat split; reflexivity|].
  pose proof (@children_follow_display_order asciiHost 2 fsThree
                (js "/srv/site/public/Portfolio/c") [js "c"] 3 _ eq_refl) as H.
  exact H.
Defined.

(** ** lib/gallery/build.ts: lookup by address *)

Section LookupFacts.
Context {host : Host}.

Lemma descend_nodesOf (slugParts : list jsstring) :
  forall node m,
    Build.descend node slugParts = Ok (Some m) -> In m (nodesOf node).
Proof.
  induction slugParts as [|part rest IH]; intros node m; simpl.
  - intros [= <-]. rewrite nodesOf_eq. now left.
  - destruct (decodeURIComponent part) as [decoded|]; [|discriminate].
    destruct (find _ _) as [next|] eqn:E; [|discriminate].
    intros H. apply IH in H. apply find_some in E as [E _].
    rewrite nodesOf_eq. right.
    destruct (children node) as [cs|]; [|destruct E].
    apply in_flat_map. now exists next.
Qed.

(** X11.  Lookup goes by stages: looking up [p ++ q] is looking up [p] and,
    from the node found, [q]; a miss or a malformed segment in [p]
    decides the result whatever [q] is.  A node that is found is a node
    of the tree. *)
Theorem descend_by_stages (node : GalleryNode) (p q : list jsstring) :
  Build.descend node (p ++ q)
  = match Build.descend node p with
    | Ok (Some m) => Build.descend m q
    | Ok None => Ok None
    | Throw => Throw
    end
  /\ forall m, Build.descend node p = Ok (Some m) -> In m (nodesOf node).
Proof.
  split; [|intros m; apply descend_nodesOf].
  revert node. induction p as [|part rest IH]; intros node; simpl; [reflexivity|].
  destruct (decodeURIComponent part) as [decoded|]; [|reflexivity].
  destruct (find _ _) as [next|]; [apply IH | reflexivity].
Qed.

End LookupFacts.

(** In the live index of [fsDeep], [D/a/m] by stages. *)
Lemma descend_by_stages_witness :
  exists index m,
    Build.getGalleryIndex (host := asciiHost) (liveWorld fsDeep) = Ok index
    /\ Build.descend (host := asciiHost) index [js "D"; js "a"; js "m"] = Ok (Some m)
    /\ webPath m = js "/Portfolio/D/a/m"
    /\ In m (nodesOf index).
Proof.
  do 2 eexists. split; [reflexivity|]. split; [reflexivity|].
  split; [reflexivity|].
  apply (proj2 (@descend_by_stages asciiHost _ [js "D"; js "a"; js "m"] [])).
  reflexivity.
Defined.

(** ** lib/gallery/build.ts: breadcrumbs *)

Lemma joinWith_merge (sep a b : jsstring) (l : list jsstring) :
  joinWith sep ((a ++ sep ++ b) :: l) = joinWith sep (a :: b :: l).
Proof.
  destruct l as [|c l]; [reflexivity|].
  change (joinWith sep ((a ++ sep ++ b) :: c :: l))
    with ((a ++ sep ++ b) ++ sep ++ joinWith sep (c :: l)).
  change (joinWith sep (a :: b :: c :: l))
    with (a ++ sep ++ b ++ sep ++ joinWith sep (c :: l)).
  now rewrite <- !app_assoc.
Qed.

Section Breadcrumbs.
Context {host : Host}.

Lemma crumbs_loop (slugParts : list jsstring) :
  forall (href : jsstring) (items : list Crumbs.Crumb),
    Crumbs.loop href items slugParts
    = match mapM decodeURIComponent slugParts with
      | Some names =>
          Ok (items
              ++ map (fun i =>
                        {| Crumbs.name := nth i names [];
                           Crumbs.href :=
                             joinWith (js "/") (href :: firstn (S i) slugParts) |})
                     (seq 0 (List.length slugParts)))
      | None => Throw
      end.
Proof.
  induction slugParts as [|part rest IH]; intros href items.
  - simpl. now rewrite app_nil_r.
  - cbn [Crumbs.loop mapM].
    destruct (decodeURIComponent part) as [decoded|]; [|reflexivity].
    rewrite IH. destruct (mapM decodeURIComponent rest) as [names|]; [|reflexivity].
    rewrite <- app_assoc. do 2 f_equal.
    change (seq 0 (List.length (part :: rest)))
      with (0 :: seq 1 (List.length rest)).
    rewrite <- seq_shift. cbn [app map]. f_equal. rewrite map_map.
    apply map_ext. intros i.
    change (nth (S i) (decoded :: names) []) with (nth i names []).
    change (firstn (S (S i)) (part :: rest)) with (part :: firstn (S i) rest).
    f_equal. apply joinWith_merge.
Qed.

(** X12.  The trail of an address: the crumb of the portfolio, then one crumb
    for each segment, named by the decoded segment and linked to the
    address up to that segment; a malformed segment makes the whole
    call throw. *)
Theorem getBreadcrumbs_trail (slugParts : list jsstring) :
  Crumbs.getBreadcrumbs slugParts
  = match mapM decodeURIComponent slugParts with
    | Some names =>
        Ok ({| Crumbs.name := js "Portfolio"; Crumbs.href := js "/portfolio" |}
            :: map (fun i =>
                      {| Crumbs.name := nth i names [];
                         Crumbs.href :=
                           joinWith (js "/")
                             (js "/portfolio" :: firstn (S i) slugParts) |})
                   (seq 0 (List.length slugParts)))
    | None => Throw
    end.
Proof.
  unfold Crumbs.getBreadcrumbs. rewrite crumbs_loop.
  now destruct (mapM decodeURIComponent slugParts).
Qed.

End Breadcrumbs.

(** ** lib/gallery/build.ts: the manifest *)

Lemma afterLastSlash_none (s : jsstring) :
  afterLastSlash s = None -> ~ In 47%N s.
Proof.
  induction s as [|c s IH]; simpl; [auto|].
  destruct (afterLastSlash s); [discriminate|].
  destruct (N.eqb c 47) eqn:E; [discriminate|].
  intros _ [H|H]; [subst; discriminate | now apply IH].
Qed.

Lemma afterLastSlash_some (s r : jsstring) :
  afterLastSlash s = Some r ->
  ~ In 47%N r /\ exists d, s = d ++ 47%N :: r.
Proof.
  revert r. induction s as [|c s IH]; intros r; simpl; [discriminate|].
  destruct (afterLastSlash s) as [r'|] eqn:E.
  - intros [= <-]. destruct (IH r' eq_refl) as [Hno [d ->]].
    split; [exact Hno|]. now exists (c :: d).
  - destruct (N.eqb c 47) eqn:Ec; [|discriminate].
    intros [= <-]. apply N.eqb_eq in Ec. subst.
    split; [now apply afterLastSlash_none|]. now exists [].
Qed.

Lemma afterLastSlash_app (d f : jsstring) :
  ~ In 47%N f -> afterLastSlash (d ++ 47%N :: f) = Some f.
Proof.
  intros Hf.
  assert (Hnone : afterLastSlash f = None).
  { destruct (afterLastSlash f) as [r|] eqn:E; [|reflexivity].
    apply afterLastSlash_some in E as [_ [d' ->]].
    exfalso. apply Hf. apply in_or_app. right. now left. }
  induction d as [|c d IH]; simpl.
  - now rewrite Hnone.
  - now rewrite IH.
Qed.

Section Manifest.
Context {host : Host}.

(** X13.  [filenameFromWebPath] gives back the file name that an address was
    made with, yields a name without a slash, and yields nothing for a
    missing or empty address only. *)
Theorem filenameFromWebPath_name :
  (forall dir f, ~ In 47%N f ->
     Build.filenameFromWebPath (Some (dir ++ js "/" ++ f)) = Some f)
  /\ (forall p r, Build.filenameFromWebPath p = Some r -> ~ In 47%N r)
  /\ (forall p, Build.filenameFromWebPath p = None <-> p = None \/ p = Some []).
Proof.
  split; [|split].
  - intros dir f Hf. unfold Build.filenameFromWebPath.
    change (dir ++ js "/" ++ f) with (dir ++ 47%N :: f).
    rewrite afterLastSlash_app by exact Hf.
    now destruct (dir ++ 47%N :: f) eqn:E; [destruct dir; discriminate|].
  - intros [[|c s]|] r; simpl; try discriminate.
    destruct (afterLastSlash s) as [r'|] eqn:E.
    + intros [= <-]. now apply afterLastSlash_some in E.
    + destruct (N.eqb c 47) eqn:Ec.
      * intros [= <-]. now apply afterLastSlash_none.
      * intros [= <-] [H|H]; [subst; discriminate|].
        now apply afterLastSlash_none in E.
  - intros p. split.
    + destruct p as [[|c s]|]; simpl; auto.
      destruct (afterLastSlash s); [discriminate|].
      destruct (N.eqb c 47); discriminate.
    + intros [-> | ->]; reflexivity.
Qed.

End Manifest.

(** The media file of a gallery, taken out of its cover address. *)
Lemma filenameFromWebPath_name_witness :
  Build.filenameFromWebPath (Some (js "/Portfolio/A B" ++ js "/" ++ js "x.jpg"))
  = Some (js "x.jpg").
Proof.
  apply (proj1 filenameFromWebPath_name (js "/Portfolio/A B") (js "x.jpg")).
  simpl. intuition discriminate.
Defined.

Lemma RawNode_nested_ind (P : RawNode -> Prop) :
  (forall n, (forall cs, raw_children n = Some cs -> Forall P cs) -> P n) ->
  forall n, P n.
Proof.
  intros H. fix IH 1. intros [a b c d e f g ch]. apply H. simpl.
  destruct ch as [cs0|]; [|discriminate].
  intros cs [= <-]. induction cs0 as [|x xs IHxs]; constructor;
    [apply IH | exact IHxs].
Qed.

Section ManifestShape.
Context {host : Host}.

Lemma normalizeManifest_children (node : RawNode) :
  children (Build.normalizeManifest node)
  = match raw_children node with
    | Some ((_ :: _) as cs) => Some (map Build.normalizeManifest cs)
    | _ => None
    end.
Proof. destruct node as [a b c d e f g [[|x xs]|]]; reflexivity. Qed.

Lemma normalizeManifest_top (node : RawNode) :
  wellShaped (Build.normalizeManifest node).
Proof.
  destruct node as [a b c d e cov imgs ch]. unfold wellShaped.
  cbn [Build.normalizeManifest children images coverWebPath raw_children
       raw_images raw_coverWebPath].
  split; [|split].
  - destruct ch as [[|x xs]|]; discriminate.
  - destruct ch as [[|x xs]|], imgs as [[|i l]|]; try discriminate;
      destruct (Build.filenameFromWebPath cov) as [fn|]; try discriminate;
      destruct (truthy fn); discriminate.
  - destruct ch as [[|x xs]|], imgs as [[|i l]|]; try discriminate;
      intros _; destruct (Build.filenameFromWebPath cov) as [fn|];
      try reflexivity; simpl; destruct (truthy fn); try discriminate;
      reflexivity.
Qed.

(** X14.  Every node of a normalized manifest is well shaped: no empty child
    list, no empty media list, and a leaf that the manifest gave no
    media has media as soon as its cover has a file name. *)
Theorem normalizeManifest_shape (node : RawNode) :
  Forall wellShaped (nodesOf (Build.normalizeManifest node)).
Proof.
  induction node as [node IH] using RawNode_nested_ind.
  rewrite nodesOf_eq. constructor; [apply normalizeManifest_top|].
  rewrite normalizeManifest_children.
  destruct (raw_children node) as [[|x xs]|]; try constructor.
  specialize (IH (x :: xs) eq_refl).
  apply Forall_forall. intros n Hn.
  apply in_flat_map in Hn as [c [Hc Hn]].
  apply in_map_iff in Hc as [r [<- Hr]].
  rewrite Forall_forall in IH. specialize (IH r Hr).
  rewrite Forall_forall in IH. now apply IH.
Qed.

End ManifestShape.

(** The manifest [rawLoose], normalized: the empty lists are gone and
    the leaf [A] holds the file of its cover. *)
Lemma normalizeManifest_shape_witness :
  (exists a,
     children (Build.normalizeManifest (host := asciiHost) rawLoose) = Some [a]
     /\ children a = None /\ images a = Some [js "x.jpg"])
  /\ Forall wellShaped
       (nodesOf (Build.normalizeManifest (host := asciiHost) rawLoose)).
Proof.
  split; [eexists; repeat split; reflexivity|].
  apply (@normalizeManifest_shape asciiHost rawLoose).
Defined.

Section IndexSource.
Context {host : Host}.

(** X15.  Unless [GALLERY_USE_MANIFEST] is exactly [true] and the manifest
    file exists, the manifest plays no part: the index is that of the
    live scan, it is always produced, and it is the node of
    [/Portfolio]. *)
Theorem index_without_manifest (w : Build.World) :
  opt_is (Build.env_GALLERY_USE_MANIFEST w) (js "true") = false
  \/ Build.manifestFile w = None ->
  Build.getGalleryIndex w
  = Build.getGalleryIndex
      {| Build.env_GALLERY_USE_MANIFEST := None;
         Build.manifestFile := None;
         Build.portfolio := Build.portfolio w |}
  /\ exists index,
       Build.getGalleryIndex w = Ok index /\ webPath index = js "/Portfolio".
Proof.
  intros H.
  assert (E : (if opt_is (Build.env_GALLERY_USE_MANIFEST w) (js "true")
               then Build.manifestFile w else None) = None).
  { destruct H as [-> | ->]; [reflexivity | now destruct (opt_is _ _)]. }
  unfold Build.getGalleryIndex. rewrite E. cbn [opt_is Build.portfolio].
  split; [reflexivity|].
  destruct (Build.portfolio w) as [fs|]; [|eexists; split; reflexivity].
  destruct (buildNode_total (S (height fs)) fs Build.ROOT [] 0 fs eq_refl
              (Nat.lt_succ_diag_r _)) as [node Hnode].
  rewrite Hnode. exists node. split; [reflexivity|].
  apply buildNode_webPath in Hnode. exact Hnode.
Qed.

End IndexSource.

(** The flag is set, but to [1]; a manifest is there. *)
Lemma index_without_manifest_witness :
  exists index,
    Build.getGalleryIndex (host := asciiHost)
      {| Build.env_GALLERY_USE_MANIFEST := Some (js "1");
         Build.manifestFile := Some (Some rawLoose);
         Build.portfolio := Some fsThree |} = Ok index
    /\ webPath index = js "/Portfolio".
Proof.
  apply (proj2 (@index_without_manifest asciiHost
                  {| Build.env_GALLERY_USE_MANIFEST := Some (js "1");
                     Build.manifestFile := Some (Some rawLoose);
                     Build.portfolio := Some fsThree |}
                  (or_introl eq_refl))).
Defined.

(** ** Writing and removing files *)

Lemma lookup_putFile_same (n c : jsstring) (es es' : list entry) :
  putFile n c es = Some es' -> lookup es' n = Some (File n c).
Proof.
  unfold lookup. revert es'. induction es as [|e es IH]; intros es'; simpl.
  - intros [= <-]. simpl. now rewrite str_eqb_refl.
  - destruct (str_eqb (entryName e) n) eqn:E.
    + destruct e as [m c'|m sub]; [|discriminate].
      intros [= <-]. simpl. now rewrite str_eqb_refl.
    + destruct (putFile n c es) as [r|]; [|discriminate].
      intros [= <-]. simpl. rewrite E. now apply IH.
Qed.

Lemma lookup_putFile_before (n c : jsstring) (es es' : list entry)
    (m : jsstring) (sub : list entry) :
  putFile n c es = Some es' -> lookup es n <> Some (Dir m sub).
Proof.
  unfold lookup. revert es'. induction es as [|e es IH]; intros es'; simpl.
  - discriminate.
  - destruct (str_eqb (entryName e) n) eqn:E.
    + destruct e as [m' c'|m' sub']; discriminate.
    + destruct (putFile n c es) as [r|]; [|discriminate].
      intros _. now apply (IH r).
Qed.

Lemma touchesOnly_putFile (f c : jsstring) : touchesOnly f (putFile f c).
Proof.
  intros es es' H. split; [|split].
  - intros n Hn. eapply lookup_putFile_other; eauto.
  - intros n sub. eapply lookup_putFile_before, H.
  - intros n sub. rewrite (lookup_putFile_same _ _ _ _ H). discriminate.
Qed.

Lemma touchesOnly_dropFile (f : jsstring) : touchesOnly f (dropFile f).
Proof.
  intros es es' H. split; [|split].
  - intros n Hn. eapply lookup_dropFile_other; eauto.
  - intros n sub. unfold dropFile in H.
    destruct (lookup es f) as [[|]|]; discriminate.
  - intros n sub. unfold dropFile in H.
    destruct (lookup es f) as [[|]|]; try discriminate.
    injection H as <-. rewrite lookup_dropped. discriminate.
Qed.

Lemma lookup_changeFirst (d : jsstring) (h : entry -> option entry)
    (es es' : list entry) :
  changeFirst d h es = Some es' ->
  exists e e',
    lookup es d = Some e /\ h e = Some e'
    /\ (forall n, n <> d -> entryName e' = entryName e ->
                  lookup es' n = lookup es n)
    /\ (entryName e' = entryName e -> lookup es' d = Some e').
Proof.
  unfold lookup. revert es'. induction es as [|e es IH]; intros es'; simpl;
    [discriminate|].
  destruct (str_eqb (entryName e) d) eqn:E.
  - destruct (h e) as [e'|] eqn:He; [|discriminate].
    intros [= <-]. exists e, e'.
    split; [reflexivity|]. split; [exact He|]. split.
    + intros n Hn Hname. simpl. rewrite Hname.
      apply str_eqb_eq in E.
      assert (En : str_eqb (entryName e) n = false)
        by (apply str_eqb_neq; congruence).
      now rewrite En.
    + intros Hname. simpl. now rewrite Hname, E.
  - destruct (changeFirst d h es) as [r|]; [|discriminate].
    intros [= <-]. destruct (IH r eq_refl) as [e0 [e' [H1 [H2 [H3 H4]]]]].
    exists e0, e'.
    split; [exact H1|]. split; [exact H2|]. split.
    + intros n Hn Hname. simpl. destruct (str_eqb (entryName e) n); auto.
    + intros Hname. simpl. rewrite E. auto.
Qed.

(** What [updateAt] does to a directory below which it changes a
    listing: the entry of the first segment is a directory before and
    after, and the other names denote what they did. *)
Lemma updateAt_step (d : jsstring) (p : list jsstring)
    (g : list entry -> option (list entry)) (es es' : list entry) :
  updateAt (d :: p) g es = Some es' ->
  exists n sub sub',
    lookup es d = Some (Dir n sub)
    /\ updateAt p g sub = Some sub'
    /\ lookup es' d = Some (Dir n sub')
    /\ forall m, m <> d -> lookup es' m = lookup es m.
Proof.
  simpl. intros H. apply lookup_changeFirst in H as [e [e' [H1 [H2 [H3 H4]]]]].
  destruct e as [n c|n sub]; [discriminate|].
  destruct (updateAt p g sub) as [sub'|] eqn:Hsub; [|discriminate].
  injection H2 as <-. exists n, sub, sub'.
  split; [exact H1|]. split; [exact Hsub|].
  split; [now apply H4|]. intros m Hm. now apply H3.
Qed.

Lemma readdirSync_updateAt (dir : list jsstring)
    (g : list entry -> option (list entry)) :
  forall es es',
    updateAt dir g es = Some es' ->
    exists l l',
      readdirSync es dir = Some l /\ g l = Some l'
      /\ readdirSync es' dir = Some l'.
Proof.
  induction dir as [|d p IH]; intros es es' H.
  - exists es, es'. auto.
  - apply updateAt_step in H as [n [sub [sub' [H1 [H2 [H3 _]]]]]].
    destruct (IH _ _ H2) as [l [l' [Hl [Hg Hl']]]].
    exists l, l'. simpl. rewrite H1, H3. auto.
Qed.

(** The frame of a change: every file but the one touched reads as
    before. *)
Lemma readFileSync_updateAt_other (f : jsstring)
    (g : list entry -> option (list entry)) (dir : list jsstring) :
  touchesOnly f g ->
  forall es es' dir' f',
    updateAt dir g es = Some es' ->
    dir' <> dir \/ f' <> f ->
    readFileSync es' dir' f' = readFileSync es dir' f'.
Proof.
  intros Hg. induction dir as [|d p IH]; intros es es' dir' f' H Hne.
  - simpl in H. destruct (Hg es es' H) as [Hother [Hbefore Hafter]].
    destruct dir' as [|d' p'].
    + unfold readFileSync, statSync. simpl.
      rewrite Hother; [reflexivity|]. destruct Hne; congruence.
    + unfold readFileSync, statSync. simpl.
      destruct (str_dec d' f) as [->|Hd].
      * destruct (lookup es f) as [[|n sub]|] eqn:E1;
          destruct (lookup es' f) as [[|n' sub']|] eqn:E2; try reflexivity;
          solve [exfalso; eapply Hbefore; eauto
                | exfalso; eapply Hafter; eauto].
      * now rewrite (Hother d' Hd).
  - apply updateAt_step in H as [n [sub [sub' [H1 [H2 [H3 H4]]]]]].
    destruct dir' as [|d' p'].
    + unfold readFileSync, statSync. simpl.
      destruct (str_dec f' d) as [->|Hd].
      * now rewrite H1, H3.
      * now rewrite (H4 f' Hd).
    + destruct (str_dec d' d) as [->|Hd].
      * assert (Hrec : readFileSync sub' p' f' = readFileSync sub p' f').
        { apply IH; [exact H2|]. destruct Hne as [Hne|Hne]; [left|now right].
          congruence. }
        unfold readFileSync, statSync in *. simpl. now rewrite H1, H3.
      * unfold readFileSync, statSync. simpl. now rewrite (H4 d' Hd).
Qed.

Lemma readFileSync_written (dir : list jsstring) (f c : jsstring)
    (es es' : list entry) :
  updateAt dir (putFile f c) es = Some es' -> readFileSync es' dir f = Some c.
Proof.
  intros H. apply readdirSync_updateAt in H as [l [l' [_ [Hg Hl']]]].
  unfold readFileSync, statSync. rewrite Hl'.
  now rewrite (lookup_putFile_same _ _ _ _ Hg).
Qed.

Lemma existsSync_removed (dir : list jsstring) (f : jsstring)
    (es es' : list entry) :
  updateAt dir (dropFile f) es = Some es' -> existsSync es' dir f = false.
Proof.
  intros H. apply readdirSync_updateAt in H as [l [l' [_ [Hg Hl']]]].
  unfold existsSync, statSync. rewrite Hl'. unfold dropFile in Hg.
  destruct (lookup l f) as [[|]|]; try discriminate.
  injection Hg as <-. now rewrite lookup_dropped.
Qed.

(** ** scripts/generate-manifest.mjs: the two file operations *)

Lemma writeFileSync_spec (dir : list jsstring) (file content : jsstring)
    (st : GenState) (r : run unit) (st' : GenState) :
  writeFileSync dir file content st = (r, st') ->
  (r = Threw /\ st' = st)
  \/ (r = Finished tt
      /\ readFileSync (disk st') dir file = Some content
      /\ (forall dir' f', dir' <> dir \/ f' <> file ->
            readFileSync (disk st') dir' f' = readFileSync (disk st) dir' f')
      /\ trace st' = trace st ++ [Wrote dir file content]).
Proof.
  unfold writeFileSync.
  destruct (updateAt dir (putFile file content) (disk st)) as [d|] eqn:Hd.
  - intros [= <- <-]. right. cbn [disk trace].
    split; [reflexivity|]. split; [eapply readFileSync_written, Hd|].
    split; [|reflexivity]. intros dir' f' Hne.
    eapply readFileSync_updateAt_other;
      [apply touchesOnly_putFile | exact Hd | exact Hne].
  - intros [= <- <-]. now left.
Qed.

Lemma writeIfChanged_again (dir : list jsstring) (file content : jsstring)
    (st : GenState) :
  readFileSync (disk st) dir file = Some content ->
  Generator.writeIfChanged dir file content st = (Finished false, st).
Proof.
  intros Hs. unfold Generator.writeIfChanged, bind, getDisk.
  rewrite Hs, str_eqb_refl. reflexivity.
Qed.

Lemma writeIfChanged_spec (dir : list jsstring) (file content : jsstring)
    (st : GenState) (r : run bool) (st' : GenState) :
  Generator.writeIfChanged dir file content st = (r, st') ->
  (r = Threw /\ st' = st)
  \/ exists b,
       r = Finished b
       /\ readFileSync (disk st') dir file = Some content
       /\ (forall dir' f', dir' <> dir \/ f' <> file ->
             readFileSync (disk st') dir' f' = readFileSync (disk st) dir' f')
       /\ (b = false -> st' = st)
       /\ (b = true ->
           trace st' = trace st ++ [Wrote dir file content]
           /\ readFileSync (disk st) dir file <> Some content).
Proof.
  assert (Hwritten : forall ru st1,
            writeFileSync dir file content st = (ru, st1) ->
            readFileSync (disk st) dir file <> Some content ->
            (match ru with
             | Finished _ => ret true st1
             | Threw => (Threw, st1)
             | OutOfFuel => (OutOfFuel, st1)
             end) = (r, st') ->
            (r = Threw /\ st' = st)
            \/ exists b,
                 r = Finished b
                 /\ readFileSync (disk st') dir file = Some content
                 /\ (forall dir' f', dir' <> dir \/ f' <> file ->
                       readFileSync (disk st') dir' f'
                       = readFileSync (disk st) dir' f')
                 /\ (b = false -> st' = st)
                 /\ (b = true ->
                     trace st' = trace st ++ [Wrote dir file content]
                     /\ readFileSync (disk st) dir file <> Some content)).
  { intros ru st1 Hw Hold.
    apply writeFileSync_spec in Hw as [[-> ->]|[-> [Hnew [Hframe Htrace]]]].
    - intros [= <- <-]. now left.
    - unfold ret. intros [= <- <-]. right. exists true.
      split; [reflexivity|]. split; [exact Hnew|]. split; [exact Hframe|].
      split; [discriminate|]. auto. }
  unfold Generator.writeIfChanged, bind, getDisk.
  destruct (readFileSync (disk st) dir file) as [prev|] eqn:Hprev.
  - destruct (str_eqb prev content) eqn:Heq.
    + apply str_eqb_eq in Heq. subst prev. unfold ret. intros [= <- <-].
      right. exists false.
      split; [reflexivity|]. split; [exact Hprev|]. split; [reflexivity|].
      split; [reflexivity|]. discriminate.
    + apply str_eqb_neq in Heq.
      destruct (writeFileSync dir file content st) as [ru st1] eqn:Hw.
      intros H. eapply Hwritten; [reflexivity| |].
      * intros [= E]. congruence.
      * destruct ru as [[]| |]; exact H.
  - destruct (writeFileSync dir file content st) as [ru st1] eqn:Hw.
    intros H. eapply Hwritten; [reflexivity|discriminate|].
    destruct ru as [[]| |]; exact H.
Qed.

(** X16.  [writeIfChanged] either throws and changes nothing, or leaves the
    file with the content given and every other file as it was; it
    writes, and says so, exactly when the file did not hold the content
    already, and a second call writes nothing. *)
Theorem writeIfChanged_round_trip (dir : list jsstring) (file content : jsstring)
    (st : GenState) (r : run bool) (st' : GenState) :
  Generator.writeIfChanged dir file content st = (r, st') ->
  (r = Threw /\ st' = st)
  \/ exists b,
       r = Finished b
       /\ readFileSync (disk st') dir file = Some content
       /\ (forall dir' f', dir' <> dir \/ f' <> file ->
             readFileSync (disk st') dir' f' = readFileSync (disk st) dir' f')
       /\ (b = true <-> readFileSync (disk st) dir file <> Some content)
       /\ trace st'
          = trace st ++ (if b then [Wrote dir file content] else [])
       /\ Generator.writeIfChanged dir file content st' = (Finished false, st').
Proof.
  intros H.
  apply writeIfChanged_spec in H
    as [H|[b [Hr [Hnew [Hframe [Hsame Hwrote]]]]]]; [now left|].
  right. exists b.
  split; [exact Hr|]. split; [exact Hnew|]. split; [exact Hframe|].
  split; [|split].
  - split; [intros Hb; now apply Hwrote|].
    intros Hold. destruct b; [reflexivity|].
    rewrite (Hsame eq_refl) in Hnew. contradiction.
  - destruct b.
    + now apply Hwrote.
    + rewrite (Hsame eq_refl). now rewrite app_nil_r.
  - now apply writeIfChanged_again.
Qed.

(** The root of [fsStaleRoot] gets a [.folders] file. *)
Lemma writeIfChanged_round_trip_witness :
  exists st',
    Generator.writeIfChanged [] (js ".folders") (js "G" ++ [10%N])
      {| disk := fsStaleRoot; trace := [] |} = (Finished true, st')
    /\ readFileSync (disk st') [] (js ".folders") = Some (js "G" ++ [10%N])
    /\ readFileSync (disk st') [] (js ".images") = Some (js "old.jpg" ++ [10%N])
    /\ Generator.writeIfChanged [] (js ".folders") (js "G" ++ [10%N]) st'
       = (Finished false, st').
Proof.
  eexists. split; [reflexivity|].
  match goal with
  | |- readFileSync (disk ?st') _ _ = _ /\ _ =>
      destruct (writeIfChanged_round_trip [] (js ".folders") (js "G" ++ [10%N])
                  {| disk := fsStaleRoot; trace := [] |} (Finished true) st'
                  eq_refl)
        as [[Hthrew _]|[b [_ [Hnew [Hframe [_ [_ Hagain]]]]]]]
  end.
  - discriminate Hthrew.
  - split; [exact Hnew|]. split; [|exact Hagain].
    rewrite Hframe; [reflexivity | right; discriminate].
Defined.

Lemma removeIfExists_spec (dir : list jsstring) (file : jsstring)
    (st : GenState) (r : run bool) (st' : GenState) :
  Generator.removeIfExists dir file st = (r, st') ->
  exists b,
    r = Finished b
    /\ (forall dir' f', dir' <> dir \/ f' <> file ->
          readFileSync (disk st') dir' f' = readFileSync (disk st) dir' f')
    /\ readFileSync (disk st') dir file = None
    /\ (b = false -> st' = st)
    /\ (b = true ->
        existsSync (disk st') dir file = false
        /\ trace st' = trace st ++ [Unlinked dir file]).
Proof.
  unfold Generator.removeIfExists.
  assert (Hstay : readFileSync (disk st) dir file = None ->
            (Finished false, st) = (r, st') ->
            exists b,
              r = Finished b
              /\ (forall dir' f', dir' <> dir \/ f' <> file ->
                    readFileSync (disk st') dir' f'
                    = readFileSync (disk st) dir' f')
              /\ readFileSync (disk st') dir file = None
              /\ (b = false -> st' = st)
              /\ (b = true ->
                  existsSync (disk st') dir file = false
                  /\ trace st' = trace st ++ [Unlinked dir file])).
  { intros Hnone [= <- <-]. exists false. repeat split; auto; discriminate. }
  destruct (existsSync (disk st) dir file) eqn:Hex.
  - destruct (updateAt dir (dropFile file) (disk st)) as [d|] eqn:Hd.
    + intros [= <- <-]. exists true. cbn [disk trace].
      pose proof (existsSync_removed _ _ _ _ Hd) as Hgone.
      split; [reflexivity|]. split.
      * intros dir' f' Hne. eapply readFileSync_updateAt_other;
          [apply touchesOnly_dropFile | exact Hd | exact Hne].
      * split.
        -- unfold existsSync in Hgone. unfold readFileSync.
           now destruct (statSync d dir file).
        -- split; [discriminate | auto].
    + apply Hstay.
      destruct (readFileSync (disk st) dir file) as [c|] eqn:Hc; [|reflexivity].
      exfalso. unfold readFileSync, statSync in Hc.
      destruct (readdirSync (disk st) dir) as [l|] eqn:Hl; [|discriminate].
      destruct (lookup l file) as [[n c'|]|] eqn:Hlook; try discriminate.
      clear Hc Hstay Hex. revert Hd Hl. generalize (disk st). 
      induction dir as [|x p IH]; intros es Hd Hl.
      * simpl in *. injection Hl as ->. unfold dropFile in Hd.
        now rewrite Hlook in Hd.
      * simpl in *. destruct (lookup es x) as [[|m sub]|] eqn:Hx;
          try discriminate.
        unfold lookup in Hx.
        assert (Hch : forall l0, find (fun e => str_eqb (entryName e) x) l0
                                 = Some (Dir m sub) ->
                  changeFirst x
                    (fun e => match e with
                              | File _ _ => None
                              | Dir n sub0 =>
                                  match updateAt p (dropFile file) sub0 with
                                  | Some sub' => Some (Dir n sub')
                                  | None => None
                                  end
                              end) l0 = None ->
                  updateAt p (dropFile file) sub = None).
        { induction l0 as [|e l0 IHl]; simpl; [discriminate|].
          destruct (str_eqb (entryName e) x).
          - intros [= ->]. now destruct (updateAt p (dropFile file) sub).
          - intros Hf. destruct (changeFirst x _ l0); [discriminate|].
            intros _. now apply IHl. }
        eapply IH; [eapply Hch; eauto | exact Hl].
  - apply Hstay. unfold existsSync in Hex. unfold readFileSync.
    now destruct (statSync (disk st) dir file).
Qed.

(** X17.  [removeIfExists] never throws; it says whether it removed the file,
    after which no file of the name is left, and leaves every other
    file as it was; it removes, and says so, exactly when the name was
    there, and a second call removes nothing. *)
Theorem removeIfExists_removes (dir : list jsstring) (file : jsstring)
    (st : GenState) (r : run bool) (st' : GenState) :
  Generator.removeIfExists dir file st = (r, st') ->
  exists b,
    r = Finished b
    /\ readFileSync (disk st') dir file = None
    /\ (forall dir' f', dir' <> dir \/ f' <> file ->
          readFileSync (disk st') dir' f' = readFileSync (disk st) dir' f')
    /\ (b = true -> existsSync (disk st) dir file = true
                    /\ existsSync (disk st') dir file = false)
    /\ trace st' = trace st ++ (if b then [Unlinked dir file] else [])
    /\ Generator.removeIfExists dir file st' = (Finished false, st').
Proof.
  intros H. pose proof H as Hspec.
  apply removeIfExists_spec in Hspec
    as [b [Hr [Hframe [Hnone [Hsame Hgone]]]]].
  exists b. split; [exact Hr|]. split; [exact Hnone|]. split; [exact Hframe|].
  destruct b.
  - destruct (Hgone eq_refl) as [Hex Htrace].
    split; [|split; [exact Htrace|]].
    + intros _. split; [|exact Hex].
      unfold Generator.removeIfExists in H.
      destruct (existsSync (disk st) dir file); [reflexivity|].
      injection H as Hr' _. subst r. discriminate.
    + unfold Generator.removeIfExists. now rewrite Hex.
  - rewrite (Hsame eq_refl) in *.
    split; [discriminate|]. split; [now rewrite app_nil_r|].
    rewrite H. now rewrite Hr.
Qed.

(** The stale [.images] file of the root of [fsStaleRoot] goes. *)
Lemma removeIfExists_removes_witness :
  exists st',
    Generator.removeIfExists [] (js ".images")
      {| disk := fsStaleRoot; trace := [] |} = (Finished true, st')
    /\ readFileSync (disk st') [] (js ".images") = None
    /\ readFileSync (disk st') [js "G"] (js "g.jpg") = Some []
    /\ trace st' = [Unlinked [] (js ".images")].
Proof.
  eexists. split; [reflexivity|].
  match goal with
  | |- readFileSync (disk ?st') _ _ = _ /\ _ =>
      destruct (removeIfExists_removes [] (js ".images")
                  {| disk := fsStaleRoot; trace := [] |} (Finished true) st'
                  eq_refl)
        as [b [Hr [Hnone [Hframe [_ [Htrace _]]]]]]
  end.
  split; [exact Hnone|]. split.
  - rewrite Hframe; [reflexivity | left; discriminate].
  - injection Hr as <-. exact Htrace.
Defined.

(** ** scripts/generate-manifest.mjs: what a run leaves on disk *)

Section Relates.
Variable R : list entry -> list entry -> Prop.
Hypothesis R_refl : forall fs, R fs fs.
Hypothesis R_trans : forall a b c, R a b -> R b c -> R a c.

Lemma relates_ret {A} (a : A) : relates R (ret a).
Proof. intros st r st' [= <- <-]. apply R_refl. Qed.

Lemma relates_getDisk : relates R getDisk.
Proof. intros st r st' [= <- <-]. apply R_refl. Qed.

Lemma relates_bind {A B} (m : Gen A) (k : A -> Gen B) :
  relates R m -> (forall a, relates R (k a)) -> relates R (bind m k).
Proof.
  intros Hm Hk st r st'. unfold bind.
  destruct (m st) as [[a| |] st1] eqn:E1.
  - intros E2. eapply R_trans; [eapply Hm, E1 | eapply Hk, E2].
  - intros [= <- <-]. eapply Hm, E1.
  - intros [= <- <-]. eapply Hm, E1.
Qed.

Lemma relates_mapGen {A B} (f : A -> Gen B) (l : list A) :
  (forall a, relates R (f a)) -> relates R (mapGen f l).
Proof.
  intros Hf. induction l as [|a l IH]; simpl; [apply relates_ret|].
  apply relates_bind; [apply Hf|]. intros b.
  apply relates_bind; [exact IH|]. intros bs. apply relates_ret.
Qed.

Lemma relates_ext {A} (m m' : Gen A) :
  (forall st, m st = m' st) -> relates R m' -> relates R m.
Proof. intros E H st r st'. rewrite E. apply H. Qed.

End Relates.

Section Frames.
Variable touched : list jsstring -> jsstring -> Prop.

Lemma sameFilesBut_refl (fs : list entry) : sameFilesBut touched fs fs.
Proof. intros dir f _. reflexivity. Qed.

Lemma sameFilesBut_trans (a b c : list entry) :
  sameFilesBut touched a b -> sameFilesBut touched b c ->
  sameFilesBut touched a c.
Proof.
  intros Hab Hbc dir f Hn. now rewrite (Hbc dir f Hn), (Hab dir f Hn).
Qed.

Lemma frame_writeIfChanged (dir : list jsstring) (file content : jsstring) :
  touched dir file ->
  relates (sameFilesBut touched) (Generator.writeIfChanged dir file content).
Proof.
  intros Ht st r st' H dir' f' Hn.
  apply writeIfChanged_spec in H as [[_ ->]|[b [_ [_ [Hframe _]]]]];
    [reflexivity|].
  apply Hframe. destruct (list_eq_dec str_dec dir' dir) as [->|Hd]; [|now left].
  right. intros ->. contradiction.
Qed.

Lemma frame_removeIfExists (dir : list jsstring) (file : jsstring) :
  touched dir file ->
  relates (sameFilesBut touched) (Generator.removeIfExists dir file).
Proof.
  intros Ht st r st' H dir' f' Hn.
  apply removeIfExists_spec in H as [b [_ [Hframe _]]].
  apply Hframe. destruct (list_eq_dec str_dec dir' dir) as [->|Hd]; [|now left].
  right. intros ->. contradiction.
Qed.

Lemma frame_writeListings (relParts images folders : list jsstring) :
  touched relParts (js ".folders") -> touched relParts (js ".images") ->
  relates (sameFilesBut touched)
    (Generator.writeListings relParts images folders).
Proof.
  intros Hf Hi. unfold Generator.writeListings.
  apply relates_bind; [apply sameFilesBut_trans | |].
  - destruct folders; [now apply frame_removeIfExists|].
    now apply frame_writeIfChanged.
  - intros _. apply relates_bind; [apply sameFilesBut_trans | |].
    + destruct (Nat.eqb (List.length relParts) 0);
        [now apply frame_removeIfExists|].
      destruct images; [now apply frame_removeIfExists|].
      now apply frame_writeIfChanged.
    + intros _. apply relates_ret, sameFilesBut_refl.
Qed.

End Frames.

Section GeneratorFrame.
Context {host : Host}.

Lemma frame_buildNode (touched : list jsstring -> jsstring -> Prop)
    (inside : list jsstring -> Prop) (fuel : nat) :
  (forall p, inside p ->
     touched p (js ".folders") /\ touched p (js ".images")
     /\ forall c, inside (p ++ [c])) ->
  forall (absPath : jsstring) (relParts inheritedIgnore : list jsstring),
    inside relParts ->
    relates (sameFilesBut touched)
      (Generator.buildNode fuel absPath relParts inheritedIgnore).
Proof.
  intros Hin. induction fuel as [|fuel IH];
    intros absPath relParts inheritedIgnore Hrel.
  - intros st r st' [= <- <-]. apply sameFilesBut_refl.
  - destruct (Hin relParts Hrel) as [Hf [Hi Hc]].
    eapply relates_ext; [apply buildNode_S_gen|].
    apply relates_bind;
      [apply sameFilesBut_trans | apply relates_getDisk, sameFilesBut_refl |].
    intros fs.
    apply relates_bind;
      [apply sameFilesBut_trans | now apply frame_writeListings |].
    intros _.
    apply relates_bind; [apply sameFilesBut_trans | |].
    + apply relates_mapGen;
        [apply sameFilesBut_refl | apply sameFilesBut_trans|].
      intros child. apply IH, Hc.
    + intros children.
      apply relates_bind;
        [apply sameFilesBut_trans | apply relates_getDisk, sameFilesBut_refl |].
      intros fs'. apply relates_ret, sameFilesBut_refl.
Qed.

(** X18.  A run of the generator creates, changes and removes no file of the
    collection other than the [.folders] and [.images] files. *)
Theorem generator_touches_listings_only (fs : list entry) :
  sameFilesBut listingFile fs (disk (snd (Generator.generate fs))).
Proof.
  unfold Generator.generate.
  destruct (Generator.buildNode _ _ _ _ _) as [r st'] eqn:E.
  apply (frame_buildNode listingFile (fun _ => True) (S (height fs))) in E;
    [exact E | | exact I].
  intros p _. unfold listingFile. auto.
Qed.

End GeneratorFrame.

Section RootFolders.
Context {host : Host}.

Lemma writeListings_folders (relParts images folders : list jsstring)
    (st : GenState) (u : unit) (st' : GenState) :
  Generator.writeListings relParts images folders st = (Finished u, st') ->
  readFileSync (disk st') relParts (js ".folders")
  = match folders with
    | [] => None
    | _ :: _ => Some (joinWith [10%N] folders ++ [10%N])
    end.
Proof.
  unfold Generator.writeListings. intros H.
  apply bind_Finished in H as [b1 [st1 [H1 H2]]].
  apply bind_Finished in H2 as [b2 [st2 [H2 H3]]].
  injection H3 as _ <-.
  assert (Hkeep : readFileSync (disk st2) relParts (js ".folders")
                  = readFileSync (disk st1) relParts (js ".folders")).
  { assert (Hne : relParts <> relParts \/ js ".folders" <> js ".images")
      by (right; discriminate).
    destruct (Nat.eqb (List.length relParts) 0); [|destruct images].
    - apply removeIfExists_spec in H2 as [b [_ [Hframe _]]]. now apply Hframe.
    - apply removeIfExists_spec in H2 as [b [_ [Hframe _]]]. now apply Hframe.
    - apply writeIfChanged_spec in H2
        as [[Hr _]|[b [_ [_ [Hframe _]]]]]; [discriminate|].
      now apply Hframe. }
  rewrite Hkeep. destruct folders as [|f fs'].
  - now apply removeIfExists_spec in H1 as [b [_ [_ [Hnone _]]]].
  - now apply writeIfChanged_spec in H1
      as [[Hr _]|[b [_ [Hnew _]]]]; [discriminate|].
Qed.

(** X19.  After a run that finishes, the [.folders] file of the root lists
    the sub-directories that the generator shows there, one to a line
    in the order of display; when it shows none, the root has no such
    file. *)
Theorem generate_root_folders (fs : list entry) (manifest : RawNode)
    (st' : GenState) :
  Generator.generate fs = (Finished manifest, st') ->
  readFileSync (disk st') [] (js ".folders")
  = match snd (Generator.listing fs [] []) with
    | [] => None
    | _ :: _ =>
        Some (joinWith [10%N] (snd (Generator.listing fs [] [])) ++ [10%N])
    end.
Proof.
  unfold Generator.generate. rewrite buildNode_S_gen. intros H.
  apply bind_Finished in H as [fs0 [st0 [H0 H]]].
  injection H0 as <- <-. cbn [disk] in H.
  apply bind_Finished in H as [u [st1 [H1 H]]].
  apply bind_Finished in H as [children [st2 [H2 H]]].
  apply bind_Finished in H as [fs2 [st3 [H3 H]]].
  injection H3 as _ <-. injection H as _ <-.
  apply writeListings_folders in H1. rewrite <- H1.
  apply (relates_mapGen (sameFilesBut belowRoot)
           (sameFilesBut_refl _) (sameFilesBut_trans _)) in H2.
  - apply H2. intros Hb. now apply Hb.
  - intros child.
    apply (frame_buildNode belowRoot (fun p => p <> [])); [|simpl; discriminate].
    intros p Hp. unfold belowRoot. repeat split; auto.
    intros c. now destruct p.
Qed.

End RootFolders.

(** The root of [fsStaleRoot] shows the one gallery [G]. *)
Lemma generate_root_folders_witness :
  exists manifest st',
    Generator.generate (host := asciiHost) fsStaleRoot = (Finished manifest, st')
    /\ readFileSync (disk st') [] (js ".folders") = Some (js "G" ++ [10%N]).
Proof.
  do 2 eexists. split; [reflexivity|].
  match goal with
  | |- readFileSync (disk ?st') _ _ = _ =>
      exact (@generate_root_folders asciiHost fsStaleRoot _ st' eq_refl)
  end.
Defined.

(** ** The list files, written and read back *)

Lemma splitLines_line (n rest : jsstring) :
  ~ In 10%N n ->
  (forall c r, rev n = c :: r -> c <> 13%N) ->
  splitLines (n ++ 10%N :: rest) = n :: splitLines rest.
Proof.
  induction n as [|c n IH]; intros Hno Hlast.
  - reflexivity.
  - assert (Hc : N.eqb c 10 = false).
    { apply N.eqb_neq. intros ->. apply Hno. now left. }
    assert (IH' : splitLines (n ++ 10%N :: rest) = n :: splitLines rest).
    { apply IH.
      - intros H. apply Hno. now right.
      - intros c' r Hr. apply (Hlast c' (r ++ [c])). simpl. now rewrite Hr. }
    change ((c :: n) ++ 10%N :: rest) with (c :: (n ++ 10%N :: rest)).
    cbn [splitLines]. rewrite Hc.
    destruct (N.eqb c 13) eqn:Hcr.
    + apply N.eqb_eq in Hcr. subst c.
      destruct n as [|d n'].
      * exfalso. now apply (Hlast 13%N []).
      * change ((d :: n') ++ 10%N :: rest) with (d :: (n' ++ 10%N :: rest)).
        change ((d :: n') ++ 10%N :: rest) with (d :: (n' ++ 10%N :: rest)) in IH'.
        assert (Hd : N.eqb d 10 = false).
        { apply N.eqb_neq. intros ->. apply Hno. right. now left. }
        lazy beta iota. rewrite Hd, IH'. reflexivity.
    + rewrite IH'. reflexivity.
Qed.

Lemma listable_last (n : jsstring) (c : N) (r : jsstring) :
  listable n -> rev n = c :: r -> c <> 13%N.
Proof.
  intros [_ [Ht _]] Hr. rewrite <- Ht in Hr.
  apply trim_last in Hr. intros ->. discriminate.
Qed.

Lemma lines_read_back (names : list jsstring) :
  Forall listable names ->
  filter truthy (map trim (splitLines (joinWith [10%N] names ++ [10%N]))) = names.
Proof.
  intros Hall.
  assert (Hcat : forall l rest,
            Forall listable l ->
            filter truthy
              (map trim (splitLines (List.concat (map (fun n => n ++ [10%N]) l) ++ rest)))
            = l ++ filter truthy (map trim (splitLines rest))).
  { induction l as [|n l IH]; intros rest Hl; [reflexivity|].
    inversion Hl as [|? ? Hn Hl']; subst.
    cbn [map List.concat]. rewrite <- !app_assoc.
    change ([10%N] ++ List.concat (map (fun n0 => n0 ++ [10%N]) l) ++ rest)
      with (10%N :: (List.concat (map (fun n0 => n0 ++ [10%N]) l) ++ rest)).
    rewrite splitLines_line;
      [| apply Hn | intros c r; now apply listable_last].
    cbn [map filter]. destruct Hn as [Hne [Ht _]]. rewrite Ht.
    destruct n; [contradiction|]. cbn [truthy app]. f_equal. now apply IH. }
  assert (Hjoin : forall l, l <> [] ->
            joinWith [10%N] l ++ [10%N]
            = List.concat (map (fun n => n ++ [10%N]) l) ++ []).
  { induction l as [|a l IH]; intros Hne; [contradiction|].
    destruct l as [|b l].
    - simpl. now rewrite !app_nil_r.
    - change (joinWith [10%N] (a :: b :: l))
        with (a ++ [10%N] ++ joinWith [10%N] (b :: l)).
      rewrite <- !app_assoc, IH by discriminate.
      cbn [map List.concat]. now rewrite <- !app_assoc. }
  destruct names as [|a l]; [reflexivity|].
  rewrite Hjoin by discriminate. rewrite Hcat by exact Hall.
  simpl. now rewrite app_nil_r.
Qed.

(** X20.  A list file that the generator wrote is read back by the library
    as the list written, when the names can stand on a line of their
    own. *)
Theorem listing_file_round_trip (dir : list jsstring) (file : jsstring)
    (names : list jsstring) (st : GenState) (b : bool) (st' : GenState) :
  Forall listable names ->
  Generator.writeIfChanged dir file (joinWith [10%N] names ++ [10%N]) st
  = (Finished b, st') ->
  Order.readListFile (disk st') dir file = names.
Proof.
  intros Hall H.
  apply writeIfChanged_spec in H as [[Hr _]|[b' [_ [Hnew _]]]];
    [discriminate|].
  unfold Order.readListFile, existsSync. rewrite Hnew.
  unfold readFileSync in Hnew.
  destruct (statSync (disk st') dir file); [|discriminate].
  now apply lines_read_back.
Qed.

(** The folders [b 2] and [a] written to the [.folders] file of [L] in
    [fsSingle], and read back. *)
Lemma listing_file_round_trip_witness :
  exists st',
    Generator.writeIfChanged [js "L"] (js ".folders")
      (joinWith [10%N] [js "b 2"; js "a"] ++ [10%N])
      {| disk := fsSingle; trace := [] |} = (Finished true, st')
    /\ Order.readListFile (disk st') [js "L"] (js ".folders")
       = [js "b 2"; js "a"].
Proof.
  eexists. split; [reflexivity|].
  eapply (listing_file_round_trip [js "L"] (js ".folders") [js "b 2"; js "a"]
            {| disk := fsSingle; trace := [] |} true).
  - repeat constructor; try discriminate; simpl; intuition discriminate.
  - reflexivity.
Defined.

(** ** scripts/generate-manifest.mjs: [applyOrderList] *)

Lemma Permutation_filter_split {A} (p : A -> bool) (l : list A) :
  Permutation l (filter p l ++ filter (fun x => negb (p x)) l).
Proof.
  induction l as [|a l IH]; simpl; [constructor|].
  destruct (p a); simpl.
  - now constructor.
  - now apply Permutation_cons_app.
Qed.

Lemma posOf_None (l : list jsstring) (i : nat) (n : jsstring) :
  Generator.posOf l i n = None <-> ~ In n l.
Proof.
  revert i. induction l as [|d ds IH]; intros i; simpl; [tauto|].
  destruct (Generator.posOf ds (S i) n) as [j|] eqn:E.
  - split; [discriminate|]. intros H. exfalso. apply H. right.
    destruct (in_dec str_dec n ds) as [Hin|Hn]; [exact Hin|].
    apply (IH (S i)) in Hn. congruence.
  - apply (IH (S i)) in E. destruct (str_eqb d n) eqn:Ed.
    + apply str_eqb_eq in Ed. split; [discriminate|].
      intros H. exfalso. apply H. now left.
    + apply str_eqb_neq in Ed. split; [|reflexivity]. intros _ [H|H]; auto.
Qed.

Lemma posOf_has (desired : list jsstring) (n : jsstring) :
  match Generator.posOf desired 0 n with Some _ => true | None => false end
  = includes desired n.
Proof.
  destruct (Generator.posOf desired 0 n) as [j|] eqn:E.
  - symmetry. apply includes_In.
    destruct (in_dec str_dec n desired) as [H|H]; [exact H|].
    apply (posOf_None desired 0) in H. congruence.
  - symmetry. apply includes_not_In. now apply (posOf_None desired 0).
Qed.

(** X21.  The generator's ordering never loses or repeats an item, whatever
    the order list holds: the result is a permutation of the items. *)
Theorem applyOrderList_permutation (items desired : list jsstring) :
  Permutation items (Generator.applyOrderList items desired).
Proof.
  unfold Generator.applyOrderList. destruct desired as [|d ds]; [reflexivity|].
  etransitivity; [apply (Permutation_filter_split
                           (fun n => match Generator.posOf (d :: ds) 0 n with
                                     | Some _ => true
                                     | None => false
                                     end))|].
  apply Permutation_app; [apply Permutation_sortBy | reflexivity].
Qed.

Lemma posOf_nth (l : list jsstring) (i j : nat) (n : jsstring) :
  Generator.posOf l i n = Some j -> i <= j /\ nth_error l (j - i) = Some n.
Proof.
  revert i. induction l as [|d ds IH]; intros i; simpl; [discriminate|].
  destruct (Generator.posOf ds (S i) n) as [j'|] eqn:E.
  - intros [= ->]. apply IH in E as [Hle Hn]. split; [lia|].
    replace (j - i) with (S (j - S i)) by lia. exact Hn.
  - destruct (str_eqb d n) eqn:Ed; [|discriminate].
    intros [= <-]. apply str_eqb_eq in Ed. subst.
    split; [lia|]. now rewrite Nat.sub_diag.
Qed.

Lemma posOf_NoDup (l : list jsstring) (i k : nat) (n : jsstring) :
  NoDup l -> nth_error l k = Some n -> Generator.posOf l i n = Some (i + k).
Proof.
  revert i k. induction l as [|d ds IH]; intros i k Hnd Hk.
  - destruct k; discriminate.
  - inversion Hnd as [|? ? Hd Hds]; subst. simpl.
    destruct k as [|k]; simpl in Hk.
    + injection Hk as ->. apply (posOf_None ds (S i)) in Hd. rewrite Hd.
      now rewrite str_eqb_refl, Nat.add_0_r.
    + rewrite (IH (S i) k Hds Hk). f_equal. lia.
Qed.

Lemma StronglySorted_by_index {A} (lt : A -> A -> Prop) (l : list A) :
  (forall p q a b, p < q -> nth_error l p = Some a -> nth_error l q = Some b ->
                   lt a b) ->
  StronglySorted lt l.
Proof.
  induction l as [|x l IH]; intros H; constructor.
  - apply IH. intros p q a b Hpq Ha Hb. apply (H (S p) (S q)); auto. lia.
  - apply Forall_forall. intros b Hb. apply In_nth_error in Hb as [q Hq].
    apply (H 0 (S q)); auto. lia.
Qed.

Lemma StronglySorted_filter {A} (lt : A -> A -> Prop) (p : A -> bool)
    (l : list A) :
  StronglySorted lt l -> StronglySorted lt (filter p l).
Proof.
  induction 1 as [|a l Hs IH Ha]; simpl; [constructor|].
  destruct (p a); [|exact IH]. constructor; [exact IH|].
  apply Forall_forall. intros x Hx. apply filter_In in Hx as [Hx _].
  rewrite Forall_forall in Ha. auto.
Qed.

Lemma sorted_permutation_unique {A} (lt : A -> A -> Prop) :
  (forall a, ~ lt a a) ->
  (forall a b c, lt a b -> lt b c -> lt a c) ->
  forall l1 l2,
    StronglySorted lt l1 -> StronglySorted lt l2 -> Permutation l1 l2 ->
    l1 = l2.
Proof.
  intros Hirr Htr. induction l1 as [|a l1 IH]; intros l2 H1 H2 Hp.
  - apply Permutation_nil in Hp. now subst.
  - destruct l2 as [|b l2].
    + apply Permutation_sym, Permutation_nil in Hp. discriminate.
    + inversion H1 as [|? ? H1' Ha]; subst.
      inversion H2 as [|? ? H2' Hb]; subst.
      rewrite Forall_forall in Ha, Hb.
      assert (E : a = b).
      { assert (Hin : In a (b :: l2))
          by (eapply Permutation_in; [exact Hp | now left]).
        destruct Hin as [->|Hin]; [reflexivity|].
        assert (Hin' : In b (a :: l1))
          by (eapply Permutation_in; [symmetry; exact Hp | now left]).
        destruct Hin' as [->|Hin']; [reflexivity|].
        exfalso. apply (Hirr a). eapply Htr; [apply Ha, Hin' | apply Hb, Hin]. }
      subst b. f_equal. apply IH; auto.
      eapply Permutation_cons_inv, Hp.
Qed.

(** X22.  On an order list without repeats and items without repeats, the
    generator's ordering is the library's [applyOrder]. *)
Theorem applyOrderList_is_applyOrder (items desired : list jsstring) :
  NoDup items -> NoDup desired ->
  Generator.applyOrderList items desired = Order.applyOrder items desired.
Proof.
  intros Hi Hd. rewrite applyOrder_eq. unfold Generator.applyOrderList.
  destruct desired as [|d0 ds0] eqn:Edes.
  { simpl. symmetry. apply forallb_filter_id. now apply forallb_forall. }
  rewrite <- Edes in *. clear Edes d0 ds0.
  set (key := fun n => match Generator.posOf desired 0 n with
                       | Some i => i
                       | None => 0
                       end).
  rewrite (filter_ext _ _ (posOf_has desired)).
  rewrite (filter_ext (fun n => negb match Generator.posOf desired 0 n with
                                     | Some _ => true
                                     | None => false
                                     end)
             (fun n => negb (includes desired n))).
  2:{ intros n. now rewrite posOf_has. }
  f_equal.
  set (named := filter (fun n => includes desired n) items).
  change (sortBy (fun a b => Nat.leb (key a) (key b)) named
          = filter (fun n => includes items n) desired).
  assert (Hkey : forall k n, nth_error desired k = Some n -> key n = k).
  { intros k n Hn. unfold key. now rewrite (posOf_NoDup desired 0 k n Hd Hn). }
  assert (Hinj : forall a b, In a desired -> In b desired -> key a = key b -> a = b).
  { intros a b Ha Hb E. apply In_nth_error in Ha as [p Hp].
    apply In_nth_error in Hb as [q Hq].
    rewrite (Hkey _ _ Hp), (Hkey _ _ Hq) in E. subst q. congruence. }
  apply (sorted_permutation_unique (fun a b => key a < key b)).
  - intros a. lia.
  - intros a b c. lia.
  - assert (Hs : StronglySorted (fun a b => Nat.leb (key a) (key b) = true)
                   (sortBy (fun a b => Nat.leb (key a) (key b)) named)).
    { apply sortBy_sorted.
      - intros a b. destruct (Nat.leb (key a) (key b)) eqn:E; [now left|].
        right. apply Nat.leb_le. apply Nat.leb_gt in E. lia.
      - intros a b c H1 H2. apply Nat.leb_le in H1, H2. apply Nat.leb_le. lia. }
    assert (Hnd : NoDup (sortBy (fun a b => Nat.leb (key a) (key b)) named)).
    { eapply Permutation_NoDup; [apply Permutation_sortBy|].
      now apply NoDup_filter. }
    assert (Hin : forall x, In x (sortBy (fun a b => Nat.leb (key a) (key b)) named)
                            -> In x desired).
    { intros x Hx. apply In_sortBy in Hx. apply filter_In in Hx as [_ Hx].
      now apply includes_In. }
    revert Hs Hnd Hin.
    generalize (sortBy (fun a b => Nat.leb (key a) (key b)) named).
    induction l as [|a l IH]; intros Hs Hnd Hin; constructor.
    + inversion Hs; inversion Hnd; subst. apply IH; auto.
      intros x Hx. apply Hin. now right.
    + inversion Hs as [|? ? _ Ha]; inversion Hnd as [|? ? Hna _]; subst.
      apply Forall_forall. intros b Hb. rewrite Forall_forall in Ha.
      specialize (Ha b Hb). apply Nat.leb_le in Ha.
      destruct (Nat.eq_dec (key a) (key b)) as [E|E]; [|lia].
      exfalso. apply Hna.
      rewrite (Hinj a b); auto; apply Hin; [now left | now right].
  - apply StronglySorted_filter. apply StronglySorted_by_index.
    intros p q a b Hpq Ha Hb. now rewrite (Hkey _ _ Ha), (Hkey _ _ Hb).
  - apply NoDup_Permutation.
    + eapply Permutation_NoDup; [apply Permutation_sortBy|].
      now apply NoDup_filter.
    + now apply NoDup_filter.
    + intros x. rewrite In_sortBy. unfold named. rewrite !filter_In.
      rewrite !includes_In. tauto.
Qed.

(** The order list of the design document's example; with the name
    [a.jpg] twice in the order list the two orderings differ. *)
Lemma applyOrderList_is_applyOrder_witness :
  Generator.applyOrderList [js "a.jpg"; js "b.jpg"; js "c.jpg"]
                           [js "c.jpg"; js "gone.jpg"; js "a.jpg"]
  = [js "c.jpg"; js "a.jpg"; js "b.jpg"]
  /\ Generator.applyOrderList [js "a.jpg"; js "b.jpg"; js "c.jpg"]
                              [js "c.jpg"; js "gone.jpg"; js "a.jpg"]
     = Order.applyOrder [js "a.jpg"; js "b.jpg"; js "c.jpg"]
                        [js "c.jpg"; js "gone.jpg"; js "a.jpg"]
  /\ Generator.applyOrderList [js "a.jpg"; js "b.jpg"] [js "a.jpg"; js "b.jpg"; js "a.jpg"]
     = [js "b.jpg"; js "a.jpg"]
  /\ Order.applyOrder [js "a.jpg"; js "b.jpg"] [js "a.jpg"; js "b.jpg"; js "a.jpg"]
     = [js "a.jpg"; js "b.jpg"; js "a.jpg"].
Proof.
  split; [reflexivity|]. split; [|split; reflexivity].
  apply applyOrderList_is_applyOrder;
    repeat constructor; simpl; intuition discriminate.
Defined.

(** ** scripts/generate-manifest.mjs: what the generator shows *)

Section Hidden.
Context {host : Host}.

Lemma In_unionSets (a b c : list jsstring) (x : jsstring) :
  In x (Generator.unionSets a b c) <-> In x a \/ In x b \/ In x c.
Proof.
  unfold Generator.unionSets. rewrite nodup_In, !in_app_iff. tauto.
Qed.

Lemma isHiddenOrIgnored_false (n : jsstring) (ignoreSet : list jsstring) :
  Generator.isHiddenOrIgnored n ignoreSet = false ->
  n <> [] /\ startsWith n (js ".") = false /\ startsWith n (js "@") = false
  /\ ~ In (toLowerCase n) ignoreSet
  /\ ~ In (toLowerCase n) Generator.DEFAULT_IGNORE_DIRS.
Proof.
  unfold Generator.isHiddenOrIgnored.
  destruct (negb (truthy n)) eqn:E0; [discriminate|].
  destruct (startsWith n (js ".") || startsWith n (js "@")) eqn:E1;
    [discriminate|].
  destruct (includes ignoreSet (toLowerCase n)) eqn:E2; [discriminate|].
  destruct (includes Generator.DEFAULT_IGNORE_DIRS (toLowerCase n)) eqn:E3;
    [discriminate|].
  intros _. apply orb_false_iff in E1 as [E1 E1'].
  repeat split; auto.
  - intros ->. discriminate.
  - now apply includes_not_In.
  - now apply includes_not_In.
Qed.

(** X23.  What the generator lists in a directory is visible: no name is
    empty or begins with a dot or an at sign, and no name is, up to
    case, a default thumbnail directory, a line of the [.ignore] file
    of the directory, or a name ignored further up.  What it ignores
    is handed down: the set for the sub-directories holds the set
    inherited, the [.ignore] of the directory and the defaults. *)
Theorem listing_shows_visible (fs : list entry)
    (relParts inheritedIgnore : list jsstring) :
  (forall n,
     In n (snd (fst (Generator.listing fs relParts inheritedIgnore)))
     \/ In n (snd (Generator.listing fs relParts inheritedIgnore)) ->
     n <> [] /\ startsWith n (js ".") = false /\ startsWith n (js "@") = false
     /\ ~ In (toLowerCase n) Generator.DEFAULT_IGNORE_DIRS
     /\ ~ In (toLowerCase n) (Generator.readIgnore fs relParts)
     /\ ~ In (toLowerCase n) inheritedIgnore)
  /\ (forall x,
        In x (fst (fst (Generator.listing fs relParts inheritedIgnore)))
        <-> In x inheritedIgnore \/ In x (Generator.readIgnore fs relParts)
            \/ In x Generator.DEFAULT_IGNORE_DIRS).
Proof.
  set (combined := Generator.unionSets inheritedIgnore
                     (Generator.readIgnore fs relParts)
                     Generator.DEFAULT_IGNORE_DIRS).
  assert (Hvis : forall n,
            Generator.isHiddenOrIgnored n combined = false ->
            n <> [] /\ startsWith n (js ".") = false
            /\ startsWith n (js "@") = false
            /\ ~ In (toLowerCase n) Generator.DEFAULT_IGNORE_DIRS
            /\ ~ In (toLowerCase n) (Generator.readIgnore fs relParts)
            /\ ~ In (toLowerCase n) inheritedIgnore).
  { intros n H. apply isHiddenOrIgnored_false in H as [H0 [H1 [H2 [H3 H4]]]].
    unfold combined in H3. rewrite In_unionSets in H3. tauto. }
  assert (Hfilter : forall n (l : list jsstring),
            In n (filter (fun n => negb (Generator.isHiddenOrIgnored n combined)) l) ->
            Generator.isHiddenOrIgnored n combined = false).
  { intros n l H. apply filter_In in H as [_ H]. now apply negb_true_iff. }
  unfold Generator.listing. fold combined. split.
  - intros n Hn. apply Hvis.
    destruct (Generator.readOrder fs relParts) as [|o os]; cbn [fst snd] in Hn;
      destruct Hn as [Hn|Hn].
    + apply In_sortBy in Hn. apply filter_In in Hn as [Hn _].
      eapply Hfilter, Hn.
    + apply In_sortBy in Hn. eapply Hfilter, Hn.
    + apply In_applyOrderList in Hn. apply filter_In in Hn as [Hn _].
      eapply Hfilter, Hn.
    + apply In_applyOrderList in Hn. eapply Hfilter, Hn.
  - intros x.
    destruct (Generator.readOrder fs relParts) as [|o os]; cbn [fst snd];
      apply In_unionSets.
Qed.

End Hidden.

(** ** components/GalleryGrid.tsx *)

Lemma GalleryNode_nested_ind (P : GalleryNode -> Prop) :
  (forall n, (forall cs, children n = Some cs -> Forall P cs) -> P n) ->
  forall n, P n.
Proof.
  intros H. fix IH 1. intros [a b c d e f ch]. apply H. simpl.
  destruct ch as [cs0|]; [|discriminate].
  intros cs [= <-]. induction cs0 as [|x xs IHxs]; constructor;
    [apply IH | exact IHxs].
Qed.

Lemma firstYield_app (yield : GalleryNode -> option jsstring)
    (a b : list GalleryNode) :
  firstYield yield (a ++ b) = orElse (firstYield yield a) (firstYield yield b).
Proof.
  induction a as [|x a IH]; simpl; [reflexivity|].
  destruct (yield x); simpl; [reflexivity | exact IH].
Qed.

Lemma nonEmpty_idem (o : option jsstring) : nonEmpty (nonEmpty o) = nonEmpty o.
Proof.
  destruct o as [s|]; simpl; [|reflexivity].
  destruct (truthy s) eqn:E; simpl; [now rewrite E | reflexivity].
Qed.

Lemma nonEmpty_Some (o : option jsstring) (s : jsstring) :
  nonEmpty o = Some s -> truthy s = true.
Proof.
  destruct o as [t|]; simpl; [|discriminate].
  destruct (truthy t) eqn:E; [|discriminate]. now intros [= <-].
Qed.

Lemma firstYield_nonEmpty (l : list GalleryNode) :
  nonEmpty (firstYield (fun m => nonEmpty (coverWebPath m)) l)
  = firstYield (fun m => nonEmpty (coverWebPath m)) l.
Proof.
  induction l as [|x l IH]; [reflexivity|]. cbn [firstYield].
  destruct (nonEmpty (coverWebPath x)) as [cv|] eqn:E; cbn [orElse]; [|exact IH].
  simpl. now rewrite (nonEmpty_Some _ _ E).
Qed.

Lemma firstDescendantCover_eq (node : GalleryNode) :
  GalleryGrid.firstDescendantCover node
  = match children node with
    | Some cs =>
        (fix walk (cs : list GalleryNode) : option jsstring :=
           match cs with
           | [] => None
           | child :: rest =>
               match nonEmpty (coverWebPath child) with
               | Some cv => Some cv
               | None =>
                   match nonEmpty (GalleryGrid.firstDescendantCover child) with
                   | Some deeper => Some deeper
                   | None => walk rest
                   end
               end
           end) cs
    | None => None
    end.
Proof. destruct node; reflexivity. Qed.

(** X24.  [firstDescendantCover] is the first non-empty cover among the
    nodes below a node, in the order of a walk that visits a node
    before its children and the children from the first to the last. *)
Theorem firstDescendantCover_preorder (node : GalleryNode) :
  GalleryGrid.firstDescendantCover node
  = firstYield (fun m => nonEmpty (coverWebPath m)) (tl (nodesOf node)).
Proof.
  induction node as [node IH] using GalleryNode_nested_ind.
  rewrite firstDescendantCover_eq, nodesOf_eq. cbn [tl].
  destruct (children node) as [cs|]; [|reflexivity].
  specialize (IH cs eq_refl).
  induction cs as [|child rest IHrest]; [reflexivity|].
  inversion IH as [|? ? Hchild Hrest]; subst.
  cbn [flat_map]. rewrite firstYield_app, nodesOf_eq. cbn [firstYield].
  destruct (nonEmpty (coverWebPath child)) as [cv|]; [reflexivity|].
  cbn [orElse]. rewrite Hchild, nodesOf_eq. cbn [tl].
  rewrite firstYield_nonEmpty.
  destruct (firstYield _ match children child with
                         | Some cs0 => flat_map nodesOf cs0
                         | None => []
                         end) as [d|]; [reflexivity|].
  cbn [orElse]. now apply IHrest.
Qed.

Lemma sortBy_sorted_id {A} (le : A -> A -> bool) (l : list A) :
  StronglySorted (fun a b => le a b = true) l -> sortBy le l = l.
Proof.
  induction 1 as [|a l Hs IH Ha]; simpl; [reflexivity|].
  rewrite IH. destruct l as [|b l]; [reflexivity|].
  simpl. inversion Ha; subst. now rewrite H1.
Qed.

Lemma gridNodes_sorted {A} (l : list A) (start : nat) :
  StronglySorted
    (fun a b : A * nat => GalleryGrid.indexLe (Some (snd a)) (Some (snd b)) = true)
    (combine l (seq start (List.length l))).
Proof.
  revert start. induction l as [|x l IH]; intros start; simpl; constructor.
  - apply IH.
  - apply Forall_forall. intros [y i] Hin. apply in_combine_r in Hin.
    apply in_seq in Hin. simpl. apply Nat.leb_le. lia.
Qed.

(** X25.  The grid renders the tiles in the order in which a page hands them
    over: the numbered list of the gallery page comes out of the sort
    as it went in, and a list without numbers is not sorted at all. *)
Theorem grid_keeps_page_order {A} (merged : list A) :
  GalleryGrid.list (fun n : A * nat => Some (snd n)) (Page.gridNodes merged)
  = Page.gridNodes merged
  /\ GalleryGrid.list (fun _ : A => None) merged = merged.
Proof.
  unfold GalleryGrid.list. split.
  - destruct (existsb _ _); [|reflexivity].
    apply sortBy_sorted_id, gridNodes_sorted.
  - assert (E : existsb (fun _ : A => false) merged = false)
      by (induction merged; simpl; auto).
    now rewrite E.
Qed.

(** ** app/portfolio/[...slug]/page.tsx *)

Lemma splitOn_segment (seg rest : jsstring) :
  ~ In 47%N seg ->
  splitOn 47 (seg ++ 47%N :: rest) = seg :: splitOn 47 rest.
Proof.
  induction seg as [|c seg IH]; intros Hno; [reflexivity|].
  assert (Hc : N.eqb c 47 = false).
  { apply N.eqb_neq. intros ->. apply Hno. now left. }
  simpl. rewrite Hc, IH; [reflexivity|]. intros H. apply Hno. now right.
Qed.

Lemma splitOn_last (seg : jsstring) :
  ~ In 47%N seg -> splitOn 47 seg = [seg].
Proof.
  induction seg as [|c seg IH]; intros Hno; [reflexivity|].
  assert (Hc : N.eqb c 47 = false).
  { apply N.eqb_neq. intros ->. apply Hno. now left. }
  simpl. rewrite Hc, IH; [reflexivity|]. intros H. apply Hno. now right.
Qed.

Lemma splitOn_joinWith (segs : list jsstring) :
  segs <> [] -> Forall (fun s => ~ In 47%N s) segs ->
  splitOn 47 (joinWith (js "/") segs) = segs.
Proof.
  induction segs as [|a segs IH]; intros Hne Hall; [contradiction|].
  inversion Hall as [|? ? Ha Hrest]; subst.
  destruct segs as [|b segs]; [now apply splitOn_last|].
  change (joinWith (js "/") (a :: b :: segs))
    with (a ++ 47%N :: joinWith (js "/") (b :: segs)).
  rewrite splitOn_segment by exact Ha. f_equal. apply IH; [discriminate|exact Hrest].
Qed.

Lemma slugPartsOfWebPath_round_trip (parts : list jsstring) :
  Forall (fun s => ~ In 47%N s) parts ->
  slugPartsOfWebPath (Cover.slugToWebPath parts) = parts.
Proof.
  intros Hall. unfold slugPartsOfWebPath, Cover.slugToWebPath.
  change (dropLeadingSlashes (js "/" ++ joinWith (js "/") (js "Portfolio" :: parts)))
    with (dropLeadingSlashes (joinWith (js "/") (js "Portfolio" :: parts))).
  assert (E : dropLeadingSlashes (joinWith (js "/") (js "Portfolio" :: parts))
              = joinWith (js "/") (js "Portfolio" :: parts))
    by (destruct parts; reflexivity).
  rewrite E, splitOn_joinWith; [reflexivity | discriminate |].
  constructor; [|exact Hall]. simpl. intuition discriminate.
Qed.





(** ** lib/gallery/aliases.ts and the alias tiles of the page *)

Section AliasCount.
Context {host : Host}.
Variable w : Build.World.
Variable readFile : jsstring -> jsstring -> option jsstring.

Lemma alias_loops (node : GalleryNode) (slugParts webs : list jsstring)
    (lines : list jsstring) :
  (forall parts t, Build.getNodeBySlug w parts = Ok (Some t) ->
                   truthy (webPath t) = true) ->
  forall (count n : nat) (tiles : list Page.AliasTile),
    Aliases.countLoop w slugParts webs lines count = Ok n ->
    List.length (Page.tilesLoop w node slugParts webs lines tiles) + count
    = List.length tiles + n.
Proof.
  intros Hweb. induction lines as [|line rest IH]; intros count n tiles; simpl.
  - intros [= <-]. reflexivity.
  - destruct (Cover.resolveLineToSlugParts line slugParts) as [parts|];
      [|apply IH].
    destruct (Build.getNodeBySlug w parts) as [[target|]|] eqn:Et;
      [|apply IH|discriminate].
    rewrite (Hweb _ _ Et).
    destruct (includes webs (webPath target)); [apply IH|].
    intros H. apply (IH _ _ (tiles ++ [Page.aliasTile node target parts])) in H.
    rewrite length_app in H. simpl in H. lia.
Qed.

Lemma alias_count_is_tile_count (child child' : GalleryNode)
    (count : option nat) :
  (forall parts t, Build.getNodeBySlug w parts = Ok (Some t) ->
                   truthy (webPath t) = true) ->
  Aliases.addAliasCountToChild w readFile child = Ok (child', count) ->
  child' = child
  /\ List.length (Page.aliasTiles w readFile child
                    (slugPartsOfWebPath (webPath child)))
     = match count with Some n => n | None => 0 end.
Proof.
  intros Hweb. unfold Aliases.addAliasCountToChild, Page.aliasTiles.
  destruct (Page.readLinesIfExists readFile (fsPath child) (js ".aliases"))
    as [|l ls].
  - intros [= <- <-]. split; reflexivity.
  - destruct (Aliases.countLoop _ _ _ _ _) as [n|] eqn:E; [|discriminate].
    intros [= <- <-]. split; [reflexivity|].
    apply (alias_loops child _ _ _ Hweb 0 n []) in E.
    rewrite Nat.add_0_r in E. exact E.
Qed.

(** X27.  The counts that the top page adds to its folder tiles are the
    numbers of alias tiles that the pages of those folders show, when
    every node of the index has an address.  The children come back in
    their order, each as it went in; a child for which a count is set
    has that many alias tiles on its page, and a child for which none
    is set (no [.aliases] file that can be read) has none. *)
Theorem alias_counts_are_tile_counts (children : option (list GalleryNode))
    (counted : list (GalleryNode * option nat)) :
  (forall parts t, Build.getNodeBySlug w parts = Ok (Some t) ->
                   truthy (webPath t) = true) ->
  Aliases.addAliasCountsToChildren w readFile children = Ok counted ->
  map fst counted = match children with Some cs => cs | None => [] end
  /\ Forall (fun r =>
               List.length (Page.aliasTiles w readFile (fst r)
                              (slugPartsOfWebPath (webPath (fst r))))
               = match snd r with Some n => n | None => 0 end)
            counted.
Proof.
  intros Hweb. unfold Aliases.addAliasCountsToChildren.
  assert (Hall : forall cs rs,
            Aliases.allOk (Aliases.addAliasCountToChild w readFile) cs = Ok rs ->
            map fst rs = cs
            /\ Forall (fun r =>
                         List.length (Page.aliasTiles w readFile (fst r)
                                        (slugPartsOfWebPath (webPath (fst r))))
                         = match snd r with Some n => n | None => 0 end)
                      rs).
  { induction cs as [|c cs IH]; intros rs; simpl.
    - intros [= <-]. split; [reflexivity | constructor].
    - destruct (Aliases.addAliasCountToChild w readFile c) as [[c' k]|] eqn:Ec;
        [|discriminate].
      destruct (Aliases.allOk _ cs) as [rs'|]; [|discriminate].
      intros [= <-]. destruct (IH rs' eq_refl) as [Hmap Hrs].
      destruct (alias_count_is_tile_count c c' k Hweb Ec) as [-> Hlen].
      split; [simpl; now f_equal | constructor; assumption]. }
  destruct children as [[|c cs]|].
  - intros [= <-]. split; [reflexivity | constructor].
  - apply Hall.
  - intros [= <-]. split; [reflexivity | constructor].
Qed.

End AliasCount.

Section LiveAddresses.
Context {host : Host}.

Lemma live_lookup_has_address (fs : list entry) (parts : list jsstring)
    (t : GalleryNode) :
  Build.getNodeBySlug (liveWorld fs) parts = Ok (Some t) ->
  truthy (webPath t) = true.
Proof.
  unfold Build.getNodeBySlug, Build.getGalleryIndex, liveWorld.
  cbn [Build.env_GALLERY_USE_MANIFEST Build.manifestFile Build.portfolio opt_is].
  destruct (Build.buildNode _ _ _ _ _) as [index|] eqn:Ei; [|discriminate].
  intros H. apply descend_nodesOf in H.
  pose proof (buildNode_showsDirectory _ fs _ [] _ fs _ eq_refl Ei) as Hall.
  rewrite Forall_forall in Hall. destruct (Hall t H) as [p [es [Hw _]]].
  now rewrite Hw.
Qed.

End LiveAddresses.

(** The top page of [fsThree] with the file [aliasesOfB] in the
    gallery [b]: of its four lines, one counts. *)
Lemma alias_counts_are_tile_counts_witness :
  exists index counted,
    Build.getGalleryIndex (host := asciiHost) (liveWorld fsThree) = Ok index
    /\ Aliases.addAliasCountsToChildren (host := asciiHost) (liveWorld fsThree)
         aliasesOfB (children index) = Ok counted
    /\ map (fun r => (webPath (fst r), snd r)) counted
       = [(js "/Portfolio/c", None); (js "/Portfolio/a", None);
          (js "/Portfolio/b", Some 1)]
    /\ Forall (fun r =>
                 List.length (Page.aliasTiles (host := asciiHost)
                                (liveWorld fsThree) aliasesOfB (fst r)
                                (slugPartsOfWebPath (webPath (fst r))))
                 = match snd r with Some n => n | None => 0 end)
              counted.
Proof.
  do 2 eexists. split; [reflexivity|].
  match goal with
  | |- Aliases.addAliasCountsToChildren _ _ ?cs = _ /\ _ => set (kids := cs)
  end.
  split; [reflexivity|]. split; [reflexivity|].
  match goal with
  | |- Forall _ ?counted =>
      apply (proj2 (@alias_counts_are_tile_counts asciiHost (liveWorld fsThree)
                      aliasesOfB kids counted
                      (@live_lookup_has_address asciiHost fsThree) eq_refl))
  end.
Defined.

(** ** scripts/update-folders.mjs *)

Lemma putFile_names (n c : jsstring) (es es' : list entry) :
  putFile n c es = Some es' ->
  filter isDirectory es' = filter isDirectory es
  /\ (map entryName es' = map entryName es
      \/ (map entryName es' = map entryName es ++ [n]
          /\ ~ In n (map entryName es))).
Proof.
  revert es'. induction es as [|e es IH]; intros es'; simpl.
  - intros [= <-]. split; [reflexivity|]. right. split; [reflexivity|]. auto.
  - destruct (str_eqb (entryName e) n) eqn:E.
    + destruct e as [m c'|m sub]; [|discriminate].
      intros [= <-]. apply str_eqb_eq in E. simpl in E. subst m.
      split; [reflexivity|]. now left.
    + destruct (putFile n c es) as [r|]; [|discriminate].
      intros [= <-]. destruct (IH r eq_refl) as [Hd Hn].
      apply str_eqb_neq in E. split.
      * simpl. destruct (isDirectory e); [f_equal|]; exact Hd.
      * simpl. destruct Hn as [Hn|[Hn Hno]]; [left; now f_equal|].
        right. split; [now f_equal|]. intros [H|H]; auto.
Qed.

Lemma putFile_NoDup (n c : jsstring) (es es' : list entry) :
  NoDup (map entryName es) -> putFile n c es = Some es' ->
  NoDup (map entryName es').
Proof.
  intros Hnd H. apply putFile_names in H as [_ [-> | [-> Hno]]]; [exact Hnd|].
  apply NoDup_app; [exact Hnd | repeat constructor; auto |].
  intros x Hx [<-|[]]. contradiction.
Qed.

Lemma applyOrder_same_elements (items desired : list jsstring) :
  (forall x, In x desired <-> In x items) ->
  Order.applyOrder items desired = desired.
Proof.
  intros H. rewrite applyOrder_eq.
  rewrite forallb_filter_id, filter_nothing.
  - apply app_nil_r.
  - intros x Hx. apply negb_false_iff, includes_In, H, Hx.
  - apply forallb_forall. intros x Hx. apply includes_In, H, Hx.
Qed.

Section UpdateFoldersFacts.
Context {host : Host}.

Lemma readOrder_root (es es' : list entry) :
  lookup es' (js ".order") = lookup es (js ".order") ->
  Order.readOrder es' [] = Order.readOrder es [].
Proof.
  intros H. unfold Order.readOrder, existsSync, readFileSync, statSync. simpl.
  now rewrite H.
Qed.

Lemma topLevelDirs_nonDot (es : list entry) :
  map entryName
    (filter (fun e => isDirectory e
                      && negb (UpdateFolders.isHidden (entryName e))) es)
  = filter (fun d => negb (startsWith d (js ".")))
           (map entryName (filter isDirectory es)).
Proof.
  induction es as [|e es IH]; simpl; [reflexivity|].
  destruct (isDirectory e); simpl; [|exact IH].
  unfold UpdateFolders.isHidden at 1.
  destruct (startsWith (entryName e) (js ".")); simpl; [|f_equal]; exact IH.
Qed.

(** X28.  After [update-folders] has run on a root without an [.order] list,
    the library reads the [.folders] file as the list that the script
    made, and the live scan shows the galleries of the root in that
    order; no other file has changed.  (The names are to stand on a
    line of their own, and no two entries share a name.) *)
Theorem update_folders_sets_display_order (fs : list entry)
    (events : list event) (st' : GenState) :
  NoDup (map entryName fs) ->
  Forall listable (UpdateFolders.listTopLevelDirs fs) ->
  Order.readOrder fs [] = [] ->
  UpdateFolders.main {| disk := fs; trace := events |} = (Finished tt, st') ->
  Order.readFolders (disk st') [] = UpdateFolders.listTopLevelDirs fs
  /\ displayDirs (disk st') [] = UpdateFolders.listTopLevelDirs fs
  /\ sameFilesBut (fun dir f => dir = [] /\ f = js ".folders") fs (disk st').
Proof.
  intros Hnd Hnames Horder Hrun.
  set (dirs := UpdateFolders.listTopLevelDirs fs) in *.
  set (content := joinWith [10%N] dirs ++ [10%N]).
  assert (Hst : readFileSync (disk st') [] (js ".folders") = Some content
                /\ (disk st' = fs
                    \/ putFile (js ".folders") content fs = Some (disk st'))).
  { unfold UpdateFolders.main, bind, getDisk in Hrun. cbn [disk] in Hrun.
    fold dirs in Hrun. fold content in Hrun.
    assert (Hw : writeFileSync [] (js ".folders") content
                   {| disk := fs; trace := events |} = (Finished tt, st') ->
                 readFileSync (disk st') [] (js ".folders") = Some content
                 /\ (disk st' = fs
                     \/ putFile (js ".folders") content fs = Some (disk st'))).
    { unfold writeFileSync. cbn [disk trace updateAt].
      destruct (putFile (js ".folders") content fs) as [d|] eqn:Hd;
        [|discriminate].
      intros [= <-]. cbn [disk]. split; [|now right].
      unfold readFileSync, statSync. simpl.
      now rewrite (lookup_putFile_same _ _ _ _ Hd). }
    destruct (readFileSync fs [] (js ".folders")) as [existing|] eqn:He;
      [|now apply Hw].
    destruct (str_eqb existing content) eqn:Eq; [|now apply Hw].
    apply str_eqb_eq in Eq. subst existing. unfold ret in Hrun.
    injection Hrun as <-. cbn [disk]. split; [exact He | now left]. }
  destruct Hst as [Hread Hdisk].
  assert (Hlook : forall n, n <> js ".folders" ->
                            lookup (disk st') n = lookup fs n).
  { intros n Hn. destruct Hdisk as [-> | Hput]; [reflexivity|].
    eapply lookup_putFile_other; eauto. }
  assert (Hdirs : filter isDirectory (disk st') = filter isDirectory fs).
  { destruct Hdisk as [-> | Hput]; [reflexivity|].
    now apply putFile_names in Hput. }
  assert (Hnd' : NoDup (map entryName (disk st'))).
  { destruct Hdisk as [-> | Hput]; [exact Hnd|]. eapply putFile_NoDup; eauto. }
  assert (Hfolders : Order.readFolders (disk st') [] = dirs).
  { unfold Order.readFolders, Order.readListFile, existsSync.
    rewrite Hread. unfold readFileSync in Hread.
    destruct (statSync (disk st') [] (js ".folders")); [|discriminate].
    now apply lines_read_back. }
  split; [exact Hfolders|]. split.
  - unfold displayDirs.
    rewrite (scan_listing (disk st') [] (disk st') eq_refl Hnd'). cbn [fst snd].
    unfold Build.desiredFolders.
    rewrite (readOrder_root fs (disk st')), Horder, Hfolders, Hdirs
      by (apply Hlook; discriminate).
    apply applyOrder_same_elements. intros x. unfold dirs.
    unfold UpdateFolders.listTopLevelDirs. rewrite In_sortBy.
    now rewrite topLevelDirs_nonDot.
  - intros dir f Hn. destruct dir as [|d p].
    + unfold readFileSync, statSync. simpl. rewrite Hlook; [reflexivity|].
      intros ->. apply Hn. auto.
    + unfold readFileSync, statSync. simpl.
      destruct (str_dec d (js ".folders")) as [->|Hd].
      * destruct Hdisk as [-> | Hput]; [reflexivity|].
        rewrite (lookup_putFile_same _ _ _ _ Hput).
        destruct (lookup fs (js ".folders")) as [[|n sub]|] eqn:E; try reflexivity.
        exfalso. eapply lookup_putFile_before; eauto.
      * now rewrite Hlook.
Qed.

End UpdateFoldersFacts.

(** [fsUnordered] after a run of the script. *)
Lemma update_folders_sets_display_order_witness :
  exists st',
    UpdateFolders.main (host := asciiHost) {| disk := fsUnordered; trace := [] |}
    = (Finished tt, st')
    /\ displayDirs (host := asciiHost) (disk st') [] = [js "a"; js "b 2"; js "c"]
    /\ displayDirs (host := asciiHost) fsUnordered [] = [js "b 2"; js "c"; js "a"].
Proof.
  eexists. split; [vm_compute; reflexivity|]. split; [|reflexivity].
  refine (proj1 (proj2 (@update_folders_sets_display_order asciiHost
                          fsUnordered [] _ _ _ eq_refl eq_refl))).
  - repeat constructor; simpl; intuition discriminate.
  - repeat constructor; try discriminate; simpl; intuition discriminate.
Defined.

(** ** scripts/gen-order-files.mjs *)

Lemma keepsFiles_refl (fs : list entry) : keepsFiles fs fs.
Proof. intros dir f c H. exact H. Qed.

Lemma keepsFiles_trans (a b c : list entry) :
  keepsFiles a b -> keepsFiles b c -> keepsFiles a c.
Proof. intros Hab Hbc dir f x H. apply Hbc, Hab, H. Qed.

Section GenOrderFilesFacts.
Context {host : Host}.
Variable NO_OVERWRITE : bool.

Lemma writeFileIfChanged_cases (dir : list jsstring) (file contents : jsstring)
    (st : GenState) (r : run bool) (st' : GenState) :
  GenOrderFiles.writeFileIfChanged NO_OVERWRITE dir file contents st = (r, st') ->
  (st' = st /\ r <> OutOfFuel)
  \/ (writeFileSync dir file (GenOrderFiles.crlfToLf contents) st
      = (Finished tt, st')
      /\ r = Finished true
      /\ (NO_OVERWRITE = true -> readFileSync (disk st) dir file = None)).
Proof.
  unfold GenOrderFiles.writeFileIfChanged, bind, getDisk.
  assert (Hw : (let (r0, st0) :=
                  writeFileSync dir file (GenOrderFiles.crlfToLf contents) st in
                match r0 with
                | Finished _ => ret true st0
                | Threw => (Threw, st0)
                | OutOfFuel => (OutOfFuel, st0)
                end) = (r, st') ->
               (st' = st /\ r <> OutOfFuel)
               \/ (writeFileSync dir file (GenOrderFiles.crlfToLf contents) st
                   = (Finished tt, st') /\ r = Finished true)).
  { destruct (writeFileSync dir file (GenOrderFiles.crlfToLf contents) st)
      as [r0 st0] eqn:E.
    pose proof (writeFileSync_spec _ _ _ _ _ _ E) as [[-> ->]|[-> _]].
    - intros [= <- <-]. left. split; [reflexivity | discriminate].
    - unfold ret. intros [= <- <-]. now right. }
  destruct (existsSync (disk st) dir file) eqn:Hex.
  - destruct (readFileSync (disk st) dir file) as [old|] eqn:Hold.
    + destruct (str_eqb (GenOrderFiles.crlfToLf old)
                  (GenOrderFiles.crlfToLf contents)).
      * unfold ret. intros [= <- <-]. left. split; [reflexivity|discriminate].
      * destruct NO_OVERWRITE.
        -- unfold ret. intros [= <- <-]. left.
           split; [reflexivity|discriminate].
        -- intros H. destruct (Hw H) as [Hl|[H1 H2]]; [now left|].
           right. repeat split; auto. discriminate.
    + intros [= <- <-]. left. split; [reflexivity|discriminate].
  - intros H. destruct (Hw H) as [Hl|[H1 H2]]; [now left|].
    right. repeat split; auto. intros _.
    unfold existsSync in Hex. unfold readFileSync.
    now destruct (statSync (disk st) dir file).
Qed.

Lemma frame_writeFileIfChanged (touched : list jsstring -> jsstring -> Prop)
    (dir : list jsstring) (file contents : jsstring) :
  touched dir file ->
  relates (sameFilesBut touched)
    (GenOrderFiles.writeFileIfChanged NO_OVERWRITE dir file contents).
Proof.
  intros Ht st r st' H dir' f' Hn.
  apply writeFileIfChanged_cases in H as [[-> _]|[H _]]; [reflexivity|].
  apply writeFileSync_spec in H as [[H _]|[_ [_ [Hframe _]]]]; [discriminate|].
  apply Hframe. destruct (list_eq_dec str_dec dir' dir) as [->|Hd]; [|now left].
  right. intros ->. contradiction.
Qed.

Lemma keeps_writeFileIfChanged (dir : list jsstring) (file contents : jsstring) :
  NO_OVERWRITE = true ->
  relates keepsFiles
    (GenOrderFiles.writeFileIfChanged NO_OVERWRITE dir file contents).
Proof.
  intros Hno st r st' H dir' f' c Hc.
  apply writeFileIfChanged_cases in H as [[-> _]|[H [_ Hnone]]]; [exact Hc|].
  specialize (Hnone Hno).
  apply writeFileSync_spec in H as [[H _]|[_ [_ [Hframe _]]]]; [discriminate|].
  rewrite Hframe; [exact Hc|].
  destruct (list_eq_dec str_dec dir' dir) as [->|Hd]; [|now left].
  right. intros ->. congruence.
Qed.

Lemma shrinks_writeFileIfChanged (dir : list jsstring) (file contents : jsstring) :
  shrinks (GenOrderFiles.writeFileIfChanged NO_OVERWRITE dir file contents).
Proof.
  intros st r st' H.
  apply writeFileIfChanged_cases in H as [[-> _]|[H _]]; [lia|].
  eapply shrinks_writeFileSync, H.
Qed.

Lemma writeFileIfChanged_ends (dir : list jsstring) (file contents : jsstring)
    (st : GenState) :
  fst (GenOrderFiles.writeFileIfChanged NO_OVERWRITE dir file contents st)
  <> OutOfFuel.
Proof.
  destruct (GenOrderFiles.writeFileIfChanged NO_OVERWRITE dir file contents st)
    as [r st'] eqn:E.
  apply writeFileIfChanged_cases in E as [[_ H]|[_ [-> _]]]; [exact H|].
  discriminate.
Qed.

Lemma walk_S (fuel : nat) (relParts : list jsstring) (st : GenState) :
  GenOrderFiles.walk NO_OVERWRITE (S fuel) relParts st
  = bind getDisk (fun fs =>
      bind (if Nat.ltb 0 (List.length (fst (GenOrderFiles.survey fs relParts)))
               && Nat.eqb (List.length (snd (GenOrderFiles.survey fs relParts))) 0
            then bind (GenOrderFiles.writeFileIfChanged NO_OVERWRITE relParts
                         (js ".images")
                         (joinWith [10%N] (fst (GenOrderFiles.survey fs relParts))
                          ++ [10%N]))
                   (fun _ => ret tt)
            else ret tt)
        (fun _ =>
           if Nat.ltb 0 (List.length (snd (GenOrderFiles.survey fs relParts)))
           then bind (GenOrderFiles.writeFileIfChanged NO_OVERWRITE relParts
                        (js ".folders")
                        (joinWith [10%N] (snd (GenOrderFiles.survey fs relParts))
                         ++ [10%N]))
                  (fun _ =>
                     bind (mapGen
                             (fun sub =>
                                GenOrderFiles.walk NO_OVERWRITE fuel
                                  (relParts ++ [sub]))
                             (snd (GenOrderFiles.survey fs relParts)))
                       (fun _ => ret tt))
           else ret tt)) st.
Proof.
  cbn [GenOrderFiles.walk].
  match goal with
  | |- bind getDisk ?F st = bind getDisk ?G st =>
      change (F (disk st) st = G (disk st) st)
  end.
  cbv beta. destruct (GenOrderFiles.survey (disk st) relParts) as [a b].
  reflexivity.
Qed.

Lemma relates_walk (R : list entry -> list entry -> Prop) (fuel : nat) :
  (forall fs, R fs fs) -> (forall a b c, R a b -> R b c -> R a c) ->
  (forall dir file contents,
     listingFile dir file ->
     relates R (GenOrderFiles.writeFileIfChanged NO_OVERWRITE dir file contents)) ->
  forall relParts, relates R (GenOrderFiles.walk NO_OVERWRITE fuel relParts).
Proof.
  intros Hrefl Htrans Hwrite. induction fuel as [|fuel IH]; intros relParts.
  - intros st r st' [= <- <-]. apply Hrefl.
  - eapply relates_ext; [apply walk_S|].
    apply relates_bind; [exact Htrans | now apply relates_getDisk |].
    intros fs. apply relates_bind; [exact Htrans | |].
    + destruct (_ && _); [|now apply relates_ret].
      apply relates_bind; [exact Htrans | apply Hwrite; now right |].
      intros _. now apply relates_ret.
    + intros _. destruct (Nat.ltb _ _); [|now apply relates_ret].
      apply relates_bind; [exact Htrans | apply Hwrite; now left |].
      intros _. apply relates_bind; [exact Htrans | |].
      * apply relates_mapGen; auto.
      * intros _. now apply relates_ret.
Qed.

Lemma shrinks_walk (fuel : nat) :
  forall relParts, shrinks (GenOrderFiles.walk NO_OVERWRITE fuel relParts).
Proof.
  intros relParts st r st' H.
  apply (relates_walk (fun a b => height b <= height a) fuel) in H; [exact H| | |].
  - intros fs. lia.
  - intros a b c. lia.
  - intros dir file contents _ s r0 s' Hs.
    eapply shrinks_writeFileIfChanged, Hs.
Qed.

Lemma survey_subdir (fs : list entry) (relParts : list jsstring) (sub : jsstring) :
  In sub (snd (GenOrderFiles.survey fs relParts)) ->
  exists es n l, readdirSync fs relParts = Some es /\ In (Dir n l) es.
Proof.
  unfold GenOrderFiles.survey, GenOrderFiles.readDirSafe. cbn [snd]. intros H.
  apply In_sortBy in H. apply in_map_iff in H as [e [_ H]].
  apply filter_In in H as [H Hd]. apply filter_In in H as [H _].
  destruct (readdirSync fs relParts) as [es|]; [|destruct H].
  destruct e as [|n l]; [discriminate|]. now exists es, n, l.
Qed.

Lemma fuelled_walk (h : nat) (fuel : nat) :
  forall relParts,
    List.length relParts <= h ->
    h + 1 <= fuel + List.length relParts ->
    fuelled h (GenOrderFiles.walk NO_OVERWRITE fuel relParts).
Proof.
  induction fuel as [|fuel IH]; intros relParts Hlen Hfuel; [lia|].
  intros st Hst. rewrite walk_S.
  unfold bind at 1. unfold getDisk at 1.
  refine (fuelled_bind h _ _ _ _ _ st Hst).
  - intros s _. destruct (_ && _); [|discriminate].
    unfold bind.
    pose proof (writeFileIfChanged_ends relParts (js ".images")
                  (joinWith [10%N] (fst (GenOrderFiles.survey (disk st) relParts))
                   ++ [10%N]) s) as He.
    destruct (GenOrderFiles.writeFileIfChanged _ _ _ _ s) as [[b| |] s1];
      cbn [fst] in *; [discriminate | discriminate | congruence].
  - destruct (_ && _); [|apply shrinks_ret].
    apply shrinks_bind; [apply shrinks_writeFileIfChanged|].
    intros _. apply shrinks_ret.
  - intros _. destruct (Nat.ltb _ _); [|now intros s _].
    apply fuelled_bind.
    + intros s _. apply writeFileIfChanged_ends.
    + apply shrinks_writeFileIfChanged.
    + intros _. apply fuelled_bind.
      * apply fuelled_mapGen; [|intros sub; apply shrinks_walk].
        intros sub Hsub.
        apply survey_subdir in Hsub as [es [n [l [Hes Hin]]]].
        apply readdirSync_depth in Hes. apply height_sub in Hin.
        apply IH; rewrite length_app; simpl; lia.
      * apply shrinks_mapGen. intros sub. apply shrinks_walk.
      * now intros _ s _.
Qed.

Lemma stays_writeFileIfChanged (dir : list jsstring) (file contents : jsstring) :
  relates (fun a b => forall dir' f', readFileSync a dir' f' <> None ->
                                      readFileSync b dir' f' <> None)
    (GenOrderFiles.writeFileIfChanged NO_OVERWRITE dir file contents).
Proof.
  intros st r st' H dir' f' Hc.
  apply writeFileIfChanged_cases in H as [[-> _]|[H _]]; [exact Hc|].
  apply writeFileSync_spec in H as [[H _]|[_ [Hnew [Hframe _]]]]; [discriminate|].
  destruct (list_eq_dec str_dec dir' dir) as [->|Hd].
  - destruct (str_dec f' file) as [->|Hf].
    + rewrite Hnew. discriminate.
    + rewrite Hframe; [exact Hc | now right].
  - rewrite Hframe; [exact Hc | now left].
Qed.

(** X29.  A run of [gen-order-files] ends, and it creates and changes no file
    other than [.folders] and [.images] files; it removes none.  With
    [--no-overwrite] every file that exists keeps its content. *)
Theorem gen_order_files_safe (fs : list entry) :
  fst (GenOrderFiles.main NO_OVERWRITE fs) <> OutOfFuel
  /\ sameFilesBut listingFile fs (disk (snd (GenOrderFiles.main NO_OVERWRITE fs)))
  /\ (forall dir f,
        readFileSync fs dir f <> None ->
        readFileSync (disk (snd (GenOrderFiles.main NO_OVERWRITE fs))) dir f
        <> None)
  /\ (NO_OVERWRITE = true ->
      keepsFiles fs (disk (snd (GenOrderFiles.main NO_OVERWRITE fs)))).
Proof.
  unfold GenOrderFiles.main.
  destruct (GenOrderFiles.walk NO_OVERWRITE (S (height fs)) []
              {| disk := fs; trace := [] |}) as [r st'] eqn:E.
  cbn [fst snd]. split; [|split; [|split]].
  - pose proof (fuelled_walk (height fs) (S (height fs)) []) as H.
    specialize (H ltac:(simpl; lia) ltac:(simpl; lia)
                  {| disk := fs; trace := [] |} ltac:(simpl; lia)).
    now rewrite E in H.
  - apply (relates_walk (sameFilesBut listingFile)) in E; [exact E | | |].
    + apply sameFilesBut_refl.
    + apply sameFilesBut_trans.
    + intros dir file contents Hl. now apply frame_writeFileIfChanged.
  - apply (relates_walk
             (fun a b => forall dir f, readFileSync a dir f <> None ->
                                       readFileSync b dir f <> None)) in E;
      [exact E | | |].
    + auto.
    + auto.
    + intros dir file contents _. apply stays_writeFileIfChanged.
  - intros Hno.
    apply (relates_walk keepsFiles) in E; [exact E | | |].
    + apply keepsFiles_refl.
    + apply keepsFiles_trans.
    + intros dir file contents _. now apply keeps_writeFileIfChanged.
Qed.

End GenOrderFilesFacts.

(** [fsStale] after a run without the flag and after a run with it. *)
Lemma gen_order_files_safe_witness :
  readFileSync (disk (snd (GenOrderFiles.main (host := asciiHost) false fsStale)))
    [js "shoots"; js "b"] (js ".images")
  = Some (js "1.jpg" ++ [10%N] ++ js "2.jpg" ++ [10%N])
  /\ readFileSync (disk (snd (GenOrderFiles.main (host := asciiHost) true fsStale)))
       [js "shoots"; js "a"] (js ".images")
     = Some (js "x.png" ++ [10%N])
  /\ keepsFiles fsStale
       (disk (snd (GenOrderFiles.main (host := asciiHost) true fsStale))).
Proof.
  split; [reflexivity|]. split; [reflexivity|].
  apply (proj2 (proj2 (proj2 (@gen_order_files_safe asciiHost true fsStale)))).
  reflexivity.
Defined.

(** ** Paths as strings *)

Lemma splitOn_snoc (a d : jsstring) :
  ~ In 47%N d ->
  splitOn 47 (a ++ 47%N :: d) = splitOn 47 a ++ [d].
Proof.
  intros Hd. induction a as [|c a IH]; simpl.
  - now rewrite splitOn_last.
  - destruct (N.eqb c 47); [now rewrite IH|].
    rewrite IH. destruct (splitOn 47 a) as [|seg segs] eqn:E; [|reflexivity].
    destruct a; simpl in E; [discriminate|].
    destruct (N.eqb n 47); [discriminate|].
    destruct (splitOn 47 a); discriminate.
Qed.

Lemma normalizeSegs_app (allow : bool) (a b res : list jsstring) :
  normalizeSegs allow res (a ++ b)
  = normalizeSegs allow (normalizeSegs allow res a) b.
Proof.
  revert res. induction a as [|s a IH]; intros res; simpl; [reflexivity|].
  destruct (negb (truthy s) || str_eqb s (js ".")); [apply IH|].
  destruct (str_eqb s (js "..")); [|apply IH].
  destruct (rev res) as [|lastSeg r]; [apply IH|].
  destruct (str_eqb lastSeg (js "..")); apply IH.
Qed.

Lemma normalizeSegs_plain (allow : bool) (res : list jsstring) (d : jsstring) :
  plainSegment d -> normalizeSegs allow res [d] = res ++ [d].
Proof.
  intros Hd. simpl. now destruct (plainSegment_keep d Hd) as [-> ->].
Qed.

Lemma baseScan_name (x rest : jsstring) (e : nat) :
  ~ In 47%N x ->
  (rest = [] \/ exists rest', rest = 47%N :: rest') ->
  baseScan (x ++ rest) (Some e) false = (List.length rest, Some e).
Proof.
  intros Hx Hrest. induction x as [|c x IH]; simpl.
  - destruct Hrest as [->|[rest' ->]]; reflexivity.
  - assert (Hc : N.eqb c 47 = false).
    { apply N.eqb_neq. intros ->. apply Hx. now left. }
    rewrite Hc. apply IH. intros H. apply Hx. now right.
Qed.

Lemma basename_last (pre d : jsstring) :
  d <> [] -> ~ In 47%N d ->
  (pre = [] \/ exists pre', pre = pre' ++ [47%N]) ->
  basename (pre ++ d) = d.
Proof.
  intros Hne Hd Hpre. unfold basename. rewrite rev_app_distr.
  assert (Hrd : ~ In 47%N (rev d)) by (intros H; apply Hd; now apply in_rev).
  assert (Hrest : rev pre = [] \/ exists rest', rev pre = 47%N :: rest').
  { destruct Hpre as [->|[pre' ->]]; [now left|]. right.
    rewrite rev_app_distr. simpl. eauto. }
  destruct (rev d) as [|c x] eqn:Ex.
  { apply (f_equal (@rev N)) in Ex. rewrite rev_involutive in Ex.
    simpl in Ex. contradiction. }
  assert (Hc : N.eqb c 47 = false).
  { apply N.eqb_neq. intros ->. apply Hrd. now left. }
  cbn [app baseScan]. rewrite Hc.
  rewrite baseScan_name; [|intros H; apply Hrd; now right | exact Hrest].
  unfold slice. rewrite length_app, !length_rev.
  assert (Hlen : List.length d = S (List.length x)).
  { rewrite <- (length_rev d), Ex. reflexivity. }
  replace (S (List.length x + List.length pre) - List.length pre)
    with (List.length d) by lia.
  rewrite skipn_app, skipn_all, Nat.sub_diag. simpl.
  apply firstn_all.
Qed.

Lemma joinWith_ends (segs : list jsstring) (d : jsstring) :
  exists pre,
    joinWith (js "/") (segs ++ [d]) = pre ++ d
    /\ (pre = [] \/ exists pre', pre = pre' ++ [47%N]).
Proof.
  destruct segs as [|s segs].
  - exists []. split; [reflexivity | now left].
  - exists (joinWith (js "/") (s :: segs) ++ [47%N]).
    rewrite joinWith_snoc by discriminate.
    rewrite <- app_assoc. split; [reflexivity|]. right. eauto.
Qed.

Lemma posixNormalize_ends (a d : jsstring) :
  plainSegment d -> ~ In 47%N d ->
  exists pre,
    posixNormalize (a ++ 47%N :: d) = pre ++ d
    /\ (pre = [] \/ exists pre', pre = pre' ++ [47%N]).
Proof.
  intros Hd Hno. unfold posixNormalize.
  destruct (a ++ 47%N :: d) as [|c p] eqn:Ep; [destruct a; discriminate|].
  rewrite <- Ep. rewrite splitOn_snoc by exact Hno.
  rewrite normalizeSegs_app, normalizeSegs_plain by exact Hd.
  destruct (joinWith_ends
              (normalizeSegs (negb (N.eqb c 47)) [] (splitOn 47 a)) d)
    as [pre [Hj Hpre]].
  rewrite Hj.
  assert (Hlast : N.eqb (last (a ++ 47%N :: d) 0%N) 47 = false).
  { destruct Hd as [Hne _].
    destruct (exists_last Hne) as [d' [z Hz]]. subst d.
    replace (a ++ 47%N :: d' ++ [z]) with ((a ++ 47%N :: d') ++ [z])
      by (now rewrite <- app_assoc).
    rewrite last_last. apply N.eqb_neq. intros ->.
    apply Hno. apply in_or_app. right. now left. }
  rewrite Hlast.
  assert (Hbody : pre ++ d <> []).
  { destruct Hd as [Hne _]. destruct pre; [exact Hne | discriminate]. }
  destruct (pre ++ d) as [|b body] eqn:Eb; [contradiction|].
  rewrite <- Eb.
  destruct (N.eqb c 47).
  - exists (js "/" ++ pre). rewrite <- app_assoc. split; [reflexivity|].
    right. destruct Hpre as [->|[pre' ->]].
    + exists []. reflexivity.
    + exists (js "/" ++ pre'). now rewrite <- app_assoc.
  - exists pre. split; [reflexivity | exact Hpre].
Qed.

Lemma posixNormalize_plain (d : jsstring) :
  plainSegment d -> ~ In 47%N d -> posixNormalize d = d.
Proof.
  intros Hd Hno. unfold posixNormalize.
  destruct d as [|c d'] eqn:Ed; [now destruct Hd|]. rewrite <- Ed.
  assert (Hc : N.eqb c 47 = false).
  { apply N.eqb_neq. intros ->. apply Hno. now left. }
  rewrite Hc. rewrite splitOn_last by (rewrite Ed; exact Hno).
  rewrite normalizeSegs_plain by (rewrite Ed; exact Hd).
  cbn [app joinWith negb].
  assert (Hlast : N.eqb (last d 0%N) 47 = false).
  { assert (Hne : d <> []) by (rewrite Ed; discriminate).
    destruct (exists_last Hne) as [d0 [z Hz]]. rewrite Hz, last_last.
    apply N.eqb_neq. intros ->. apply Hno. rewrite <- Ed, Hz.
    apply in_or_app. right. now left. }
  rewrite Hlast. rewrite Ed. reflexivity.
Qed.

(** The name of a sub-directory is the base name of its path. *)
Lemma basename_pathJoin (absPath d : jsstring) :
  plainSegment d -> ~ In 47%N d -> basename (pathJoin [absPath; d]) = d.
Proof.
  intros Hd Hno. unfold pathJoin.
  assert (Htd : truthy d = true) by (destruct Hd as [H _]; now destruct d).
  destruct absPath as [|c a].
  - cbn [filter truthy]. rewrite Htd. cbn [joinWith].
    rewrite posixNormalize_plain by assumption.
    apply (basename_last [] d); [apply Hd | exact Hno | now left].
  - cbn [filter truthy]. rewrite Htd.
    change (joinWith (js "/") [c :: a; d]) with ((c :: a) ++ 47%N :: d).
    destruct (posixNormalize_ends (c :: a) d Hd Hno) as [pre [-> Hpre]].
    apply basename_last; [apply Hd | exact Hno | exact Hpre].
Qed.

(** ** lib/gallery/build.ts: every gallery can be reached *)

Lemma In_allNames (fs : list entry) (p : list jsstring) :
  forall es e, readdirSync fs p = Some es -> In e es ->
               In (entryName e) (allNames fs).
Proof.
  revert fs. induction p as [|d p IH]; intros fs es e; simpl.
  - intros [= <-] Hin. unfold allNames. apply in_flat_map.
    exists e. split; [exact Hin|]. destruct e; now left.
  - destruct (lookup fs d) as [[|n sub]|] eqn:Hl; try discriminate.
    intros Hes Hin. apply lookup_Some in Hl as [Hd _].
    unfold allNames. apply in_flat_map. exists (Dir n sub).
    split; [exact Hd|]. right. apply (IH sub es e Hes Hin).
Qed.

Lemma mapM_find {A B} (f : A -> option B) (P : B -> bool) (Q : A -> bool)
    (l : list A) (bs : list B) :
  (forall a b, In a l -> f a = Some b -> P b = Q a) ->
  mapM f l = Some bs ->
  find P bs = match find Q l with
              | Some a => f a
              | None => None
              end.
Proof.
  revert bs. induction l as [|a l IH]; intros bs H; simpl.
  - now intros [= <-].
  - destruct (f a) as [b|] eqn:Hb; [|discriminate].
    destruct (mapM f l) as [bs'|] eqn:Hbs; [|discriminate].
    intros [= <-]. simpl. rewrite (H a b (or_introl eq_refl) Hb).
    destruct (Q a); [now rewrite Hb|].
    apply IH; [|reflexivity]. intros a' b' Hin. apply H. now right.
Qed.

Lemma mapM_In {A B} (f : A -> option B) (l : list A) (bs : list B) (a : A) :
  mapM f l = Some bs -> In a l -> exists b, f a = Some b.
Proof.
  revert bs. induction l as [|x l IH]; intros bs; simpl; [intros _ []|].
  destruct (f x) as [b|] eqn:Hb; [|discriminate].
  destruct (mapM f l) as [bs'|]; [|discriminate].
  intros _ [<-|Hin]; [now exists b | eapply IH; eauto].
Qed.

Section Reachable.
Context {host : Host}.

Lemma assemble_identity (fs : list entry) (absPath : jsstring)
    (relParts dotDirs imagesHere : list jsstring) (cs : list GalleryNode) :
  name (Build.assemble fs absPath relParts dotDirs imagesHere cs)
  = basename absPath
  /\ slug (Build.assemble fs absPath relParts dotDirs imagesHere cs)
     = encodeURIComponent (basename absPath).
Proof.
  unfold Build.assemble.
  destruct cs as [|c cs']; [destruct imagesHere as [|i [|j l]]|];
    split; reflexivity.
Qed.

Lemma buildNode_identity (fuel : nat) (fs : list entry) (absPath : jsstring)
    (relParts : list jsstring) (siblings : nat) (node : GalleryNode) :
  Build.buildNode fuel fs absPath relParts siblings = Some node ->
  name node = basename absPath
  /\ slug node = encodeURIComponent (basename absPath).
Proof.
  destruct fuel as [|fuel]; [discriminate|]. rewrite buildNode_S.
  destruct (mapM _ _); [|discriminate]. intros [= <-]. apply assemble_identity.
Qed.

Lemma displayDirs_proper (fs : list entry) (relParts : list jsstring)
    (d : jsstring) :
  Forall properName (allNames fs) ->
  In d (displayDirs fs relParts) ->
  properName d /\ plainSegment d.
Proof.
  intros Hall Hd.
  assert (Hdot : startsWith d (js ".") = false).
  { unfold displayDirs, Build.scan in Hd. cbn [fst snd] in Hd.
    apply In_applyOrder in Hd. apply filter_In in Hd as [_ Hd].
    now apply negb_true_iff. }
  apply scan_normalDirs_In in Hd as [n [sub Hd]].
  unfold statSync in Hd.
  destruct (readdirSync fs relParts) as [es|] eqn:Hes; [|discriminate].
  apply lookup_Some in Hd as [Hin Hname]. simpl in Hname.
  pose proof (In_allNames fs relParts es _ Hes Hin) as Hn. simpl in Hn.
  rewrite Forall_forall in Hall. specialize (Hall _ Hn).
  rewrite Hname in Hall. split; [exact Hall|].
  destruct Hall as [Hne _]. repeat split; [exact Hne| |];
    intros ->; discriminate.
Qed.

Lemma child_found (fuel : nat) (fs : list entry) (absPath : jsstring)
    (relParts : list jsstring) (siblings : nat) (node : GalleryNode)
    (d : jsstring) :
  Forall properName (allNames fs) ->
  relParts <> [] \/ DevLimit.isDevRuntime = false \/ devGalleryLimit = None ->
  Build.buildNode (S fuel) fs absPath relParts siblings = Some node ->
  In d (displayDirs fs relParts) ->
  exists c,
    find (fun c => str_eqb (slug c) (encodeURIComponent d) || str_eqb (name c) d)
         (match children node with Some cs => cs | None => [] end) = Some c
    /\ Build.buildNode fuel fs (pathJoin [absPath; d]) (relParts ++ [d])
         (List.length (displayDirs fs relParts)) = Some c.
Proof.
  intros Hall Hlimit Hnode Hd. rewrite buildNode_S in Hnode.
  fold (displayDirs fs relParts) in Hnode.
  destruct (mapM _ _) as [cs|] eqn:Hcs; [|discriminate].
  injection Hnode as <-. rewrite assemble_children.
  assert (Hfull : match cs with
                  | [] => None
                  | _ :: _ => Some (if Nat.eqb (List.length relParts) 0
                                    then DevLimit.maybeLimit cs else cs)
                  end
                  = match cs with [] => None | _ :: _ => Some cs end).
  { destruct cs as [|c cs']; [reflexivity|]. f_equal.
    destruct (Nat.eqb (List.length relParts) 0) eqn:E; [|reflexivity].
    destruct Hlimit as [H|H].
    - destruct relParts; [contradiction | discriminate].
    - now apply (proj1 (proj2 (maybeLimit_prefix (c :: cs')))). }
  rewrite Hfull.
  assert (Hcs' : match match cs with [] => None | _ :: _ => Some cs end with
                 | Some l => l
                 | None => []
                 end = cs) by (now destruct cs).
  rewrite Hcs'.
  assert (Hpred : forall d' c',
            In d' (displayDirs fs relParts) ->
            Build.buildNode fuel fs (pathJoin [absPath; d']) (relParts ++ [d'])
              (List.length (displayDirs fs relParts)) = Some c' ->
            str_eqb (slug c') (encodeURIComponent d) || str_eqb (name c') d
            = str_eqb d' d).
  { intros d' c' Hd' Hc'.
    destruct (displayDirs_proper fs relParts d' Hall Hd')
      as [[Hne [Hno Hcodec]] Hplain].
    destruct (displayDirs_proper fs relParts d Hall Hd) as [[_ [_ Hcodec0]] _].
    apply buildNode_identity in Hc' as [Hname Hslug].
    rewrite basename_pathJoin in Hname, Hslug by assumption.
    rewrite Hname, Hslug.
    destruct (str_eqb d' d) eqn:E; [apply orb_true_r|].
    rewrite orb_false_r. apply str_eqb_neq. apply str_eqb_neq in E.
    intros Henc. apply E. rewrite Henc in Hcodec. congruence. }
  rewrite (mapM_find _ _ (fun d' => str_eqb d' d) _ _ Hpred Hcs).
  assert (Hfind : find (fun d' => str_eqb d' d) (displayDirs fs relParts) = Some d).
  { clear -Hd. induction (displayDirs fs relParts) as [|x l IH]; [destruct Hd|].
    simpl. destruct (str_eqb x d) eqn:E.
    - apply str_eqb_eq in E. now subst.
    - apply IH. destruct Hd as [->|Hd]; [|exact Hd].
      now rewrite str_eqb_refl in E. }
  rewrite Hfind.
  destruct (mapM_In _ _ _ d Hcs Hd) as [c Hc].
  exists c. now rewrite Hc.
Qed.

Lemma descend_reaches (path : list jsstring) :
  forall (fuel : nat) (fs : list entry) (absPath : jsstring)
         (relParts : list jsstring) (siblings : nat) (node : GalleryNode),
    Forall properName (allNames fs) ->
    relParts <> [] \/ DevLimit.isDevRuntime = false \/ devGalleryLimit = None ->
    Build.buildNode fuel fs absPath relParts siblings = Some node ->
    onDisplay fs relParts path ->
    exists m,
      Build.descend node (map encodeURIComponent path) = Ok (Some m)
      /\ webPath m = Cover.slugToWebPath (relParts ++ path)
      /\ (path <> [] -> name m = last path []).
Proof.
  induction path as [|d rest IH];
    intros fuel fs absPath relParts siblings node Hall Hlimit Hnode Hpath.
  - exists node. split; [reflexivity|]. rewrite app_nil_r.
    split; [eapply buildNode_webPath, Hnode | intros H; now contradiction H].
  - destruct Hpath as [Hd Hrest].
    destruct fuel as [|fuel]; [discriminate|].
    destruct (child_found fuel fs absPath relParts siblings node d
                Hall Hlimit Hnode Hd) as [c [Hfind Hc]].
    destruct (displayDirs_proper fs relParts d Hall Hd)
      as [[Hne [Hno Hcodec]] Hplain].
    destruct (IH fuel fs _ (relParts ++ [d]) _ c Hall
                ltac:(left; now destruct relParts) Hc Hrest)
      as [m [Hm [Hweb Hname]]].
    exists m. cbn [map Build.descend]. rewrite Hcodec, Hfind.
    split; [exact Hm|]. split; [now rewrite <- app_assoc in Hweb|].
    intros _. destruct rest as [|r rest'].
    + cbn [map Build.descend] in Hm. injection Hm as <-.
      apply buildNode_identity in Hc as [Hn _].
      now rewrite basename_pathJoin in Hn.
    + rewrite Hname by discriminate. reflexivity.
Qed.

(** X30.  Every gallery on display can be reached at its address.  In a
    collection whose names are proper, and outside a development run
    with a limit, a chain of directories, each on display in the one
    before, leads [getNodeBySlug], given the encoded names, to the node
    of the last directory: the node with the address of the chain and
    the name of that directory. *)
Theorem galleries_reachable (fs : list entry) (path : list jsstring) :
  Forall properName (allNames fs) ->
  DevLimit.isDevRuntime = false \/ devGalleryLimit = None ->
  onDisplay fs [] path ->
  exists m,
    Build.getNodeBySlug (liveWorld fs) (map encodeURIComponent path)
    = Ok (Some m)
    /\ webPath m = Cover.slugToWebPath path
    /\ (path <> [] -> name m = last path []).
Proof.
  intros Hall Hlimit Hpath.
  unfold Build.getNodeBySlug, Build.getGalleryIndex, liveWorld.
  cbn [Build.env_GALLERY_USE_MANIFEST Build.manifestFile Build.portfolio opt_is].
  destruct (buildNode_total (S (height fs)) fs Build.ROOT [] 0 fs eq_refl
              (Nat.lt_succ_diag_r _)) as [node Hnode].
  rewrite Hnode.
  apply (descend_reaches path _ fs Build.ROOT [] 0 node Hall
           (or_intror Hlimit) Hnode Hpath).
Qed.

End Reachable.

(** The gallery [b/b2] of [fsThree]. *)
Lemma galleries_reachable_witness :
  exists m,
    Build.getNodeBySlug (host := asciiHost) (liveWorld fsThree) [js "b"; js "b2"]
    = Ok (Some m)
    /\ webPath m = js "/Portfolio/b/b2"
    /\ name m = js "b2".
Proof.
  destruct (@galleries_reachable asciiHost fsThree [js "b"; js "b2"])
    as [m [Hm [Hw Hn]]].
  - repeat constructor; try discriminate; simpl; intuition discriminate.
  - left. reflexivity.
  - simpl. split; [right; right; now left|]. split; [right; now left | exact I].
  - exists m. split; [exact Hm|]. split; [exact Hw|]. apply Hn. discriminate.
Defined.
